(** * mpv-subtitleminer: supervisor script and browser client

    A shallow embedding of the two orchestration layers of the repository:

    - [Supervisor]: the mpv Lua script (mpv/mpv-subtitleminer.lua) that
      probes a list of candidate ports, spawns the helper binary and
      classifies its exits;
    - [Client]: the script part of the Vue application (App.vue) that keeps
      the subtitle store, the contiguous selection and the keyed media
      requests.

    Both run in a single cooperative event loop.  Each handler of the source
    is a function on an explicit state; the host (mpv, the browser) is the
    part of the state that holds the armed timers and the callbacks that
    have not run yet, and an event of the host picks one of them. *)

From stdpp Require Import gmap strings list sorting.
From Stdlib Require Import ZArith String Ascii DecimalString DecimalZ DecimalPos.

Local Open Scope string_scope.
Local Open Scope list_scope.
Local Open Scope Z_scope.

(** ** Strings *)

(** [s:find(pat)] of Lua for a pattern without magic characters (none of
    the script's patterns has one): does [pat] occur in [s]? *)
Fixpoint str_find (pat s : string) : bool :=
  String.prefix pat s ||
  match s with
  | EmptyString => false
  | String _ rest => str_find pat rest
  end.

Definition is_eol (c : ascii) : bool :=
  (Ascii.eqb c "010" || Ascii.eqb c "013")%char.

(** [s:gmatch("[^\r\n]+")]: the maximal runs of characters other than CR
    and LF, in order. *)
Fixpoint gmatch_lines (cur : string) (s : string) : list string :=
  match s with
  | EmptyString => if String.eqb cur "" then [] else [cur]
  | String c rest =>
      if is_eol c
      then (if String.eqb cur "" then gmatch_lines "" rest
            else cur :: gmatch_lines "" rest)
      else gmatch_lines (cur ++ String c "")%string rest
  end.

(** Decimal rendering of an integer ([tostring] of Lua, a template literal
    of JS). *)
Definition show_Z (z : Z) : string := NilZero.string_of_int (Z.to_int z).

Module Supervisor.

(** *** Host interface *)

(** The table mpv passes to the callback of the [subprocess] command. *)
Record subprocess_result := {
  status : option Z;
  stdout : option string;
  stderr : option string;
}.

(** What the script reads from mpv and its options once, at load time. *)
Record config := {
  ports : list Z;                  (* opts.ports, non-empty *)
  prop_pid : option Z;             (* mp.get_property_native("pid") *)
  prop_process_id : option Z;      (* mp.get_property_native("process-id") *)
  command_accepted : nat -> bool;  (* does mp.command_native_async return a handle? *)
}.

(** Arguments of one spawned helper: binary, socket and ffmpeg path are
    fixed; the port and the optional [--expected-mpv-pid] vary. *)
Record spawn_args := {
  arg_port : Z;
  arg_expected_pid : option Z;
}.

(** mp.osd_message: the notices shown to the user. *)
Inductive osd_message :=
| OsdFailedAnyPort                 (* "Failed to start server on any port" *)
| OsdPidMismatch                   (* "IPC socket is in use by another mpv instance ..." *)
| OsdCannotConnect                 (* "can't connect to mpv IPC socket ..." *)
| OsdStoppedError                  (* "server stopped (error)" *)
| OsdStopped                       (* "server stopped" *)
| OsdStarted (port : Z)            (* "server started on port N" *)
| OsdFailedStart                   (* "Failed to start server" *)
| OsdAlreadyRunning (port : option Z) (* "Server already running on port N|unknown" *)
| OsdStarting                      (* "Starting server..." *)
| OsdNotRunning                    (* "Server not running" *)
| OsdStopping.                     (* "Stopping server..." *)

(** mp.msg.*: the console log. *)
Inductive log_line :=
| LogFailedAnyPort
| LogTrying (port : Z)
| LogNoPid
| LogStdout (line : string)
| LogStderr (line : string)
| LogPidMismatch
| LogCannotConnect
| LogPortInUse (port : Z)
| LogExitError (msg : string)
| LogExitStatus (status : option Z)
| LogConfirmed (port : Z)
| LogFailedStart
| LogStartingServer
| LogStoppingServer
| LogShutdown.

(** An asynchronous command whose callback has not run yet.  The callback
    is the closure created in [try_start_on_port]; it captures
    [port_index]. *)
Record command := {
  handle : nat;
  cb_port_index : nat;
  aborted : bool;
}.

(** The script's locals ([server_process], [server_running],
    [current_port], [startup_timer]) and the host's side: pending
    callbacks, armed timers with the [port] their closure captured, and
    what was spawned, logged and shown so far. *)
Record state := {
  server_process : option nat;
  server_running : bool;
  current_port : option Z;
  startup_timer : option nat;
  commands : list command;
  timers : list (nat * Z);
  next_command : nat;
  next_timer : nat;
  spawned : list spawn_args;
  log : list log_line;
  osd : list osd_message;
}.

Definition init : state :=
  {| server_process := None; server_running := false; current_port := None;
     startup_timer := None; commands := []; timers := [];
     next_command := 0; next_timer := 0; spawned := []; log := []; osd := [] |}.

Definition set_server_process (v : option nat) (s : state) : state :=
  {| server_process := v; server_running := server_running s;
     current_port := current_port s; startup_timer := startup_timer s;
     commands := commands s; timers := timers s;
     next_command := next_command s; next_timer := next_timer s;
     spawned := spawned s; log := log s; osd := osd s |}.

Definition set_server_running (v : bool) (s : state) : state :=
  {| server_process := server_process s; server_running := v;
     current_port := current_port s; startup_timer := startup_timer s;
     commands := commands s; timers := timers s;
     next_command := next_command s; next_timer := next_timer s;
     spawned := spawned s; log := log s; osd := osd s |}.

Definition set_current_port (v : option Z) (s : state) : state :=
  {| server_process := server_process s; server_running := server_running s;
     current_port := v; startup_timer := startup_timer s;
     commands := commands s; timers := timers s;
     next_command := next_command s; next_timer := next_timer s;
     spawned := spawned s; log := log s; osd := osd s |}.

Definition set_startup_timer (v : option nat) (s : state) : state :=
  {| server_process := server_process s; server_running := server_running s;
     current_port := current_port s; startup_timer := v;
     commands := commands s; timers := timers s;
     next_command := next_command s; next_timer := next_timer s;
     spawned := spawned s; log := log s; osd := osd s |}.

Definition set_commands (v : list command) (s : state) : state :=
  {| server_process := server_process s; server_running := server_running s;
     current_port := current_port s; startup_timer := startup_timer s;
     commands := v; timers := timers s;
     next_command := next_command s; next_timer := next_timer s;
     spawned := spawned s; log := log s; osd := osd s |}.

Definition set_timers (v : list (nat * Z)) (s : state) : state :=
  {| server_process := server_process s; server_running := server_running s;
     current_port := current_port s; startup_timer := startup_timer s;
     commands := commands s; timers := v;
     next_command := next_command s; next_timer := next_timer s;
     spawned := spawned s; log := log s; osd := osd s |}.

Definition say (m : osd_message) (s : state) : state :=
  {| server_process := server_process s; server_running := server_running s;
     current_port := current_port s; startup_timer := startup_timer s;
     commands := commands s; timers := timers s;
     next_command := next_command s; next_timer := next_timer s;
     spawned := spawned s; log := log s; osd := osd s ++ [m] |}.

Definition msg (l : log_line) (s : state) : state :=
  {| server_process := server_process s; server_running := server_running s;
     current_port := current_port s; startup_timer := startup_timer s;
     commands := commands s; timers := timers s;
     next_command := next_command s; next_timer := next_timer s;
     spawned := spawned s; log := log s ++ [l]; osd := osd s |}.

Definition msgs (ls : list log_line) (s : state) : state :=
  {| server_process := server_process s; server_running := server_running s;
     current_port := current_port s; startup_timer := startup_timer s;
     commands := commands s; timers := timers s;
     next_command := next_command s; next_timer := next_timer s;
     spawned := spawned s; log := log s ++ ls; osd := osd s |}.

(** *** Host operations *)

(** [timer:kill()]: disarm. *)
Definition kill_timer (t : nat) (s : state) : state :=
  set_timers (filter (fun e => e.1 ≠ t) (timers s)) s.

(** [mp.add_timeout(0.5, fn)] where [fn] captures [port]. *)
Definition add_timeout (port : Z) (s : state) : nat * state :=
  let t := next_timer s in
  (t,
   {| server_process := server_process s; server_running := server_running s;
      current_port := current_port s; startup_timer := startup_timer s;
      commands := commands s; timers := timers s ++ [(t, port)];
      next_command := next_command s; next_timer := S t;
      spawned := spawned s; log := log s; osd := osd s |}).

(** [mp.command_native_async({name = "subprocess", ...}, cb)].  The
    callback runs later in either case: when the command is refused, mpv's
    wrapper schedules [cb(false, nil, err)] and returns nil. *)
Definition command_native_async (cfg : config) (args : spawn_args) (port_index : nat)
    (s : state) : option nat * state :=
  let h := next_command s in
  let ok := command_accepted cfg h in
  (if ok then Some h else None,
   {| server_process := server_process s; server_running := server_running s;
      current_port := current_port s; startup_timer := startup_timer s;
      commands := commands s ++ [{| handle := h; cb_port_index := port_index; aborted := false |}];
      timers := timers s;
      next_command := S h; next_timer := next_timer s;
      spawned := if ok then spawned s ++ [args] else spawned s;
      log := log s; osd := osd s |}).

(** [mp.abort_async_command(proc)]: the subprocess is killed; its callback
    still runs, later. *)
Definition abort_async_command (h : nat) (s : state) : state :=
  set_commands
    (map (fun c => if decide (handle c = h)
                   then {| handle := handle c; cb_port_index := cb_port_index c; aborted := true |}
                   else c) (commands s)) s.

(** *** The script *)

Definition get_mpv_pid (cfg : config) : option Z :=
  let pid := match prop_pid cfg with Some p => Some p | None => prop_process_id cfg end in
  match pid with
  | Some p => if 0 <? p then Some p else None
  | None => None
  end.

(** [opts.ports[port_index]], 1-based. *)
Definition port_at (cfg : config) (port_index : nat) : option Z :=
  match port_index with
  | O => None
  | S i => ports cfg !! i
  end.

(** The synchronous body of [try_start_on_port]; the exit callback and the
    timer callback it installs are [exit_callback] and [timer_callback]. *)
Definition try_start_on_port (cfg : config) (port_index : nat) (s : state) : state :=
  if decide (List.length (ports cfg) < port_index)%nat then
    say OsdFailedAnyPort (msg LogFailedAnyPort s)
  else
    match port_at cfg port_index with
    | None => s (* index 0: never passed by the script *)
    | Some port =>
        let s := msg (LogTrying port) s in
        let s := set_current_port (Some port) s in
        let mpv_pid := get_mpv_pid cfg in
        let s := match mpv_pid with Some _ => s | None => msg LogNoPid s end in
        let args := {| arg_port := port; arg_expected_pid := mpv_pid |} in
        let '(proc, s) := command_native_async cfg args port_index s in
        let s := set_server_process proc s in
        match proc with
        | Some _ =>
            let '(t, s) := add_timeout port s in
            set_startup_timer (Some t) s
        | None =>
            say OsdFailedStart (msg LogFailedStart s)
        end
    end.

Definition stderr_text (result : option subprocess_result) : string :=
  match result with
  | Some r => match stderr r with Some e => e | None => "" end
  | None => ""
  end.

Definition is_port_error (text : string) : bool :=
  str_find "Address already in use" text ||
  str_find "os error 98" text ||
  str_find "os error 10048" text.

(** The lines of the captured stdout (logged at info level) and stderr
    (logged at warn level) that the callback echoes. *)
Definition echo_lines (result : option subprocess_result) : list log_line :=
  match result with
  | Some r =>
      match stdout r with
      | Some o => if String.eqb o "" then [] else map LogStdout (gmatch_lines "" o)
      | None => []
      end ++
      match stderr r with
      | Some e => if String.eqb e "" then [] else map LogStderr (gmatch_lines "" e)
      | None => []
      end
  | None => []
  end.

Definition echo_output (result : option subprocess_result) (s : state) : state :=
  msgs (echo_lines result) s.

(** The callback given to [mp.command_native_async] by
    [try_start_on_port port_index]; [port] is the local of that call. *)
Definition exit_callback (cfg : config) (port_index : nat)
    (success : bool) (result : option subprocess_result) (error : option string)
    (s : state) : state :=
  let port := default 0 (port_at cfg port_index) in
  let was_confirmed_running := server_running s in
  let s := set_server_running false s in
  let s := set_server_process None s in
  let s := match startup_timer s with
           | Some t => set_startup_timer None (kill_timer t s)
           | None => s
           end in
  let text := stderr_text result in
  let port_error := is_port_error text in
  let s := echo_output result s in
  if str_find "MPV_IPC_PID_MISMATCH" text then
    set_current_port None (say OsdPidMismatch (msg LogPidMismatch s))
  else if str_find "Failed to connect to mpv socket" text
          || str_find "Failed to connect to mpv pipe" text then
    set_current_port None (say OsdCannotConnect (msg LogCannotConnect s))
  else if port_error then
    try_start_on_port cfg (S port_index) (msg (LogPortInUse port) s)
  else
    let s :=
      if was_confirmed_running then
        if negb success then
          say OsdStoppedError (msg (LogExitError (default "unknown error" error)) s)
        else
          say OsdStopped (msg (LogExitStatus (result ≫= status)) s)
      else s in
    set_current_port None s.

(** The callback of the timeout armed by [try_start_on_port]; [port] is
    the local captured by the closure. *)
Definition timer_callback (port : Z) (s : state) : state :=
  let s := set_startup_timer None s in
  match server_process s with
  | Some _ =>
      say (OsdStarted port) (msg (LogConfirmed port) (set_server_running true s))
  | None => s
  end.

Definition start_server (cfg : config) (s : state) : state :=
  if server_running s || bool_decide (is_Some (server_process s)) then
    say (OsdAlreadyRunning (current_port s)) s
  else
    try_start_on_port cfg 1 (say OsdStarting (msg LogStartingServer s)).

Definition stop_server (s : state) : state :=
  match server_process s with
  | None => say OsdNotRunning s
  | Some proc =>
      let s := say OsdStopping (msg LogStoppingServer s) in
      let s := set_server_process None s in
      let s := set_server_running false s in
      abort_async_command proc s
  end.

Definition toggle_server (cfg : config) (s : state) : state :=
  if server_running s || bool_decide (is_Some (server_process s)) then
    stop_server s
  else
    start_server cfg s.

(** The handler registered for mpv's "shutdown" event. *)
Definition shutdown (s : state) : state :=
  let s := match startup_timer s with
           | Some t => set_startup_timer None (kill_timer t s)
           | None => s
           end in
  if server_running s then
    match server_process s with
    | Some proc => abort_async_command proc (msg LogShutdown s)
    | None => s
    end
  else s.

(** *** Events of the host *)

Inductive event :=
| AutoStart                         (* the auto_start timeout: start_server() *)
| Toggle                            (* key binding or script message *)
| Exit (h : nat) (success : bool) (result : option subprocess_result)
       (error : option string)      (* the async command [h] completes *)
| TimerFire (t : nat)               (* the armed timeout [t] elapses *)
| Shutdown.

Definition find_command (h : nat) (s : state) : option command :=
  List.find (fun c => bool_decide (handle c = h)) (commands s).

Definition find_timer (t : nat) (s : state) : option Z :=
  snd <$> List.find (fun e => bool_decide (e.1 = t)) (timers s).

(** One event.  A completion of a command that is not pending, or the
    firing of a timer that is not armed, cannot happen: the state is left
    as it is. *)
Definition step (cfg : config) (s : state) (e : event) : state :=
  match e with
  | AutoStart => start_server cfg s
  | Toggle => toggle_server cfg s
  | Exit h success result error =>
      match find_command h s with
      | Some c =>
          let s := set_commands (filter (fun c => handle c ≠ h) (commands s)) s in
          exit_callback cfg (cb_port_index c) success result error s
      | None => s
      end
  | TimerFire t =>
      match find_timer t s with
      | Some port => timer_callback port (kill_timer t s)
      | None => s
      end
  | Shutdown => shutdown s
  end.

Definition run (cfg : config) (evs : list event) (s : state) : state :=
  fold_left (step cfg) evs s.

(** The classes of exit the callback's chain of tests distinguishes, in
    the order in which it tests them. *)
Inductive exit_class := PortInUse | IdentityMismatch | Unreachable | UnexpectedExit.

Definition classify (text : string) : exit_class :=
  if str_find "MPV_IPC_PID_MISMATCH" text then IdentityMismatch
  else if str_find "Failed to connect to mpv socket" text
          || str_find "Failed to connect to mpv pipe" text then Unreachable
  else if is_port_error text then PortInUse
  else UnexpectedExit.


(** *** Scenarios and invariants used by the statements *)

(** One port conflict of the probe: the helper exits with a signal the
    callback reads as "port in use"; [late] tells whether the 500 ms
    confirmation timer elapsed before the exit. *)
Record conflict := {
  late : bool;
  c_success : bool;
  c_result : option subprocess_result;
  c_error : option string;
}.

Definition port_conflict (c : conflict) : Prop :=
  classify (stderr_text (c_result c)) = PortInUse.

(** The events of the [i]-th spawn (counted from 0) ending in a conflict:
    command and timer handles are handed out in spawn order. *)
Definition conflict_events (i : nat) (c : conflict) : list event :=
  (if late c then [TimerFire i] else []) ++
  [Exit i (c_success c) (c_result c) (c_error c)].

Fixpoint probe_events (i : nat) (cs : list conflict) : list event :=
  match cs with
  | [] => []
  | c :: cs => conflict_events i c ++ probe_events (S i) cs
  end.

(** The ports the helper was launched on, in launch order. *)
Definition attempted (s : state) : list Z := map arg_port (spawned s).

(** The supervisor waits on spawn [i]: its process handle is held, its
    callback is the only one pending, its timer is the only one armed
    (or has fired, when [confirmed]). *)
Definition probing (cfg : config) (i : nat) (confirmed : bool) (s : state) : Prop :=
  exists p lg o,
    ports cfg !! i = Some p /\
    s = {| server_process := Some i; server_running := confirmed;
           current_port := Some p;
           startup_timer := if confirmed then None else Some i;
           commands := [{| handle := i; cb_port_index := S i; aborted := false |}];
           timers := if confirmed then [] else [(i, p)];
           next_command := S i; next_timer := S i;
           spawned := map (fun q => {| arg_port := q; arg_expected_pid := get_mpv_pid cfg |})
                          (take (S i) (ports cfg));
           log := lg; osd := o |}.

(** No process, no callback pending, no timer armed, [i] spawns so far. *)
Record idle_at (cfg : config) (i : nat) (s : state) : Prop := {
  idle_process : server_process s = None;
  idle_running : server_running s = false;
  idle_timer : startup_timer s = None;
  idle_commands : commands s = [];
  idle_timers : timers s = [];
  idle_next_command : next_command s = i;
  idle_next_timer : next_timer s = i;
  idle_spawned :
    spawned s = map (fun q => {| arg_port := q; arg_expected_pid := get_mpv_pid cfg |})
                    (take i (ports cfg));
}.




(** What the exit callback does before it looks at stderr. *)
Definition exit_prologue (result : option subprocess_result) (s : state) : state :=
  echo_output result
    (let s := set_server_process None (set_server_running false s) in
     match startup_timer s with
     | Some t => set_startup_timer None (kill_timer t s)
     | None => s
     end).

(** The callback left the probe where it was: nothing spawned, no handle
    taken, no port recorded. *)
Definition no_retry (s s' : state) : Prop :=
  spawned s' = spawned s /\ commands s' = commands s /\
  next_command s' = next_command s /\
  server_process s' = None /\ current_port s' = None.

Definition connect_failure (text : string) : bool :=
  str_find "Failed to connect to mpv socket" text
  || str_find "Failed to connect to mpv pipe" text.


(** A configuration for examples: the default ports, mpv's pid known,
    every command accepted. *)
Definition example_config : config :=
  {| ports := [61777; 61778; 61779; 61780; 61781];
     prop_pid := Some 4242; prop_process_id := None;
     command_accepted := fun _ => true |}.

Definition exit_with_stderr (text : string) : option subprocess_result :=
  Some {| status := Some 1; stdout := Some ""; stderr := Some text |}.

(** Two conflicts: one exits at once, one after its timer elapsed. *)
Definition example_conflicts : list conflict :=
  [ {| late := false; c_success := true;
       c_result := exit_with_stderr "Error: Address already in use (os error 98)";
       c_error := None |};
    {| late := true; c_success := true;
       c_result := exit_with_stderr "bind failed: os error 10048";
       c_error := None |} ].

(** *** Notions used by the further properties *)

(** The script's locals agree with the host: a supervisor marked as
    confirmed holds a handle, the handle held belongs to a command whose
    callback has not run yet, and the port recorded with it is one of the
    candidates. *)
Record consistent (cfg : config) (s : state) : Prop := {
  cons_running : server_running s = true -> is_Some (server_process s);
  cons_pending : forall h, server_process s = Some h -> h ∈ handle <$> commands s;
  cons_port : is_Some (server_process s) ->
              exists p, current_port s = Some p /\ p ∈ ports cfg;
}.

(** What every launch of the helper is given. *)
Definition launch_ok (cfg : config) (a : spawn_args) : Prop :=
  arg_port a ∈ ports cfg /\
  arg_expected_pid a = get_mpv_pid cfg /\
  forall q, arg_expected_pid a = Some q -> 0 < q.

(** [pat] occurs in [s]. *)
Definition occurs_in (pat s : string) : Prop :=
  exists pre post, s = (pre ++ pat ++ post)%string.

Fixpoint string_chars (s : string) : list ascii :=
  match s with
  | EmptyString => []
  | String c rest => c :: string_chars rest
  end.

(** The text of a line the callback echoes. *)
Definition echoed_text (l : log_line) : option string :=
  match l with
  | LogStdout t | LogStderr t => Some t
  | _ => None
  end.

(** Command [h] was asked to abort. *)
Definition abort_requested (h : nat) (s : state) : Prop :=
  exists c, c ∈ commands s /\ handle c = h /\ aborted c = true.

(** A helper is stopped and another started before the callback of the
    first has run. *)
Definition restart_history : list event := [AutoStart; Toggle; Toggle].

End Supervisor.

Module Client.

(** *** JSON values and numbers *)

(** A JS number: a finite value (modelled by an integer: the ids are
    counters and the claims compare, never add, the times), or one of the
    three values [Number.isFinite] rejects. *)
Inductive number := Fin (z : Z) | PosInf | NegInf | NaN.

#[global] Instance number_eq_dec : EqDecision number.
Proof. solve_decision. Defined.

#[local] Unset Elimination Schemes.
Inductive JsonValue :=
| JNull
| JBool (b : bool)
| JNum (n : number)
| JStr (s : string)
| JArr (l : list JsonValue)
| JObj (fields : list (string * JsonValue)).
#[local] Set Elimination Schemes.

Definition Number_isFinite (n : number) : bool :=
  match n with Fin _ => true | _ => false end.

(** [a === b] on numbers: NaN equals nothing. *)
Definition number_eqb (a b : number) : bool :=
  match a, b with
  | Fin x, Fin y => x =? y
  | PosInf, PosInf | NegInf, NegInf => true
  | _, _ => false
  end.

(** Truthiness of a number: 0 and NaN are falsy. *)
Definition number_truthy (n : number) : bool :=
  match n with
  | Fin z => negb (z =? 0)
  | NaN => false
  | _ => true
  end.

(** A number inside a template literal. *)
Definition show_number (n : number) : string :=
  match n with
  | Fin z => show_Z z
  | PosInf => "Infinity"
  | NegInf => "-Infinity"
  | NaN => "NaN"
  end.

(** Truthiness of an optional string: undefined and "" are falsy. *)
Definition truthy (o : option string) : bool :=
  match o with
  | Some s => negb (String.eqb s "")
  | None => false
  end.

(** [d.k]: undefined when the object has no such field. *)
Definition field (d : list (string * JsonValue)) (k : string) : option JsonValue :=
  snd <$> List.find (fun p => String.eqb p.1 k) d.

Definition asNumber (value : option JsonValue) : option number :=
  match value with
  | Some (JNum n) => if Number_isFinite n then Some n else None
  | _ => None
  end.

Definition asString (value : option JsonValue) : option string :=
  match value with
  | Some (JStr s) => Some s
  | _ => None
  end.

(** *** The item store *)

Record SubtitleMessage := {
  id : number;
  subtitle : string;
  time_pos : number;
  sub_start : number;
  sub_end : number;
  thumbnail : option string;
  audio : option string;
  sourcePort : Z;
  uid : string;
}.

Definition set_thumbnail (v : option string) (m : SubtitleMessage) : SubtitleMessage :=
  {| id := id m; subtitle := subtitle m; time_pos := time_pos m;
     sub_start := sub_start m; sub_end := sub_end m;
     thumbnail := v; audio := audio m;
     sourcePort := sourcePort m; uid := uid m |}.

Definition set_audio (v : option string) (m : SubtitleMessage) : SubtitleMessage :=
  {| id := id m; subtitle := subtitle m; time_pos := time_pos m;
     sub_start := sub_start m; sub_end := sub_end m;
     thumbnail := thumbnail m; audio := v;
     sourcePort := sourcePort m; uid := uid m |}.

Definition parseSubtitleMessage (d : list (string * JsonValue)) (port : Z)
    : option SubtitleMessage :=
  let id := asNumber (field d "id") in
  let subtitle := asString (field d "subtitle") in
  let sub_start := asNumber (field d "sub_start") in
  let sub_end := asNumber (field d "sub_end") in
  let time_pos := asNumber (field d "time_pos") in
  match id, subtitle, sub_start, sub_end with
  | Some id, Some subtitle, Some sub_start, Some sub_end =>
      let normalizedTimePos := default sub_start time_pos in
      let uid := (show_Z port ++ "-" ++ show_number id)%string in
      Some {| id := id; subtitle := subtitle; time_pos := normalizedTimePos;
              sub_start := sub_start; sub_end := sub_end;
              thumbnail := None; audio := None;
              sourcePort := port; uid := uid |}
  | _, _, _, _ => None
  end.

Definition parseMediaMessage (d : list (string * JsonValue)) : option (number * string) :=
  match asNumber (field d "id"), asString (field d "data") with
  | Some id, Some data => Some (id, data)
  | _, _ => None
  end.

Record range_result := {
  startId : number;
  endId : number;
  data : string;
  port : Z;
}.

Definition parseAudioRangeMessage (d : list (string * JsonValue))
    : option (number * number * string) :=
  match asNumber (field d "start_id"), asNumber (field d "end_id"),
        asString (field d "data") with
  | Some startId, Some endId, Some data => Some (startId, endId, data)
  | _, _, _ => None
  end.

(** *** Requests, timers, notices *)

Inductive media_type := thumbnail_t | audio_t.

#[global] Instance media_type_eq_dec : EqDecision media_type.
Proof. solve_decision. Defined.

(** What goes on the wire.  The image and audio parameters copied from
    the settings into every request are left out. *)
Inductive payload :=
| MediaRequest (request : media_type) (id : number) (end_id : option number)
| AudioRangeRequest (start_id end_id : number).

(** The closures handed to [setInterval] and [setTimeout], with what they
    capture.  [call] names the promise whose [resolve] they hold; [msg] is
    the message object, by reference. *)
Inductive callback :=
| MediaJoinPoll (call msg : nat) (type : media_type) (key : string)
| MediaJoinDeadline (call msg : nat) (type : media_type) (checkInterval : nat)
| MediaOwnPoll (call msg : nat) (type : media_type)
| MediaOwnDeadline (call msg : nat) (type : media_type) (key : string) (checkInterval : nat)
| RangeJoinPoll (call : nat) (startId endId : number) (port : Z) (key : string)
| RangeJoinDeadline (call : nat) (checkInterval : nat)
| RangeOwnPoll (call : nat) (startId endId : number) (port : Z)
| RangeOwnDeadline (call : nat) (key : string) (checkInterval : nat).

(** An armed timer of the browser: due time in milliseconds, and the
    period when it repeats. *)
Record timer := {
  tid : nat;
  due : N;
  period : option N;
  action : callback;
}.

(** A promise settled: which call, when, with what. *)
Record resolution := {
  res_call : nat;
  res_at : N;
  res_value : option string;
}.

Inductive toast_kind := toast_error | toast_success | toast_info.

Record toast := {
  kind : toast_kind;
  text : string;
}.

Inductive connectionState := disconnected | connecting | connected | error.

#[global] Instance connectionState_eq_dec : EqDecision connectionState.
Proof. solve_decision. Defined.

Record AnkiSettings := {
  noteType : string;
  frontField : string;
  sentenceField : string;
  audioField : string;
  imageField : string;
  maxCardAgeMinutes : option Z;
}.

(** How far an export ([sendSelectionToAnki]) has come.  The model follows
    it through its audio part; storing the media, the image part and the
    note update that follow belong to the note service. *)
Inductive job_status :=
| AwaitingNote
| Failed (message : string)
| AudioSkipped
| AudioCached (data : string)
| AwaitingAudio (call : nat).

Record export_job := {
  job_selected : list nat;   (* selectedMsgs, the array taken at the click *)
  job_first : nat;
  job_last : nat;
  job_key : string;          (* primaryKey *)
  job_status_of : job_status;
}.

(** The reactive state of the component, the browser's timer queue and
    clock, and what was sent, settled and shown so far.  [heap] holds the
    message objects, a reference is an index into it; [messages] is the
    array of references [messages.value]. *)
Record state := {
  heap : list SubtitleMessage;
  messages : list nat;
  loadingMedia : gmap string bool;
  selectedMessages : gset string;
  pendingAudioRange : option range_result;
  anki : AnkiSettings;
  connections : list (Z * connectionState);
  now : N;
  timers : list timer;
  next_timer : nat;
  sent : list (Z * payload);
  resolved : list resolution;
  next_call : nat;
  toasts : list toast;
  sendingToAnki : gmap string bool;
  ankiError : gmap string string;
  jobs : list export_job;
}.

Definition set_heap (v : list SubtitleMessage) (s : state) : state :=
  {| heap := v;
     messages := messages s;
     loadingMedia := loadingMedia s;
     selectedMessages := selectedMessages s;
     pendingAudioRange := pendingAudioRange s;
     anki := anki s;
     connections := connections s;
     now := now s;
     timers := timers s;
     next_timer := next_timer s;
     sent := sent s;
     resolved := resolved s;
     next_call := next_call s;
     toasts := toasts s;
     sendingToAnki := sendingToAnki s;
     ankiError := ankiError s;
     jobs := jobs s |}.

Definition set_messages (v : list nat) (s : state) : state :=
  {| heap := heap s;
     messages := v;
     loadingMedia := loadingMedia s;
     selectedMessages := selectedMessages s;
     pendingAudioRange := pendingAudioRange s;
     anki := anki s;
     connections := connections s;
     now := now s;
     timers := timers s;
     next_timer := next_timer s;
     sent := sent s;
     resolved := resolved s;
     next_call := next_call s;
     toasts := toasts s;
     sendingToAnki := sendingToAnki s;
     ankiError := ankiError s;
     jobs := jobs s |}.

Definition set_loadingMedia (v : gmap string bool) (s : state) : state :=
  {| heap := heap s;
     messages := messages s;
     loadingMedia := v;
     selectedMessages := selectedMessages s;
     pendingAudioRange := pendingAudioRange s;
     anki := anki s;
     connections := connections s;
     now := now s;
     timers := timers s;
     next_timer := next_timer s;
     sent := sent s;
     resolved := resolved s;
     next_call := next_call s;
     toasts := toasts s;
     sendingToAnki := sendingToAnki s;
     ankiError := ankiError s;
     jobs := jobs s |}.

Definition set_selectedMessages (v : gset string) (s : state) : state :=
  {| heap := heap s;
     messages := messages s;
     loadingMedia := loadingMedia s;
     selectedMessages := v;
     pendingAudioRange := pendingAudioRange s;
     anki := anki s;
     connections := connections s;
     now := now s;
     timers := timers s;
     next_timer := next_timer s;
     sent := sent s;
     resolved := resolved s;
     next_call := next_call s;
     toasts := toasts s;
     sendingToAnki := sendingToAnki s;
     ankiError := ankiError s;
     jobs := jobs s |}.

Definition set_pendingAudioRange (v : option range_result) (s : state) : state :=
  {| heap := heap s;
     messages := messages s;
     loadingMedia := loadingMedia s;
     selectedMessages := selectedMessages s;
     pendingAudioRange := v;
     anki := anki s;
     connections := connections s;
     now := now s;
     timers := timers s;
     next_timer := next_timer s;
     sent := sent s;
     resolved := resolved s;
     next_call := next_call s;
     toasts := toasts s;
     sendingToAnki := sendingToAnki s;
     ankiError := ankiError s;
     jobs := jobs s |}.

Definition set_connections (v : list (Z * connectionState)) (s : state) : state :=
  {| heap := heap s;
     messages := messages s;
     loadingMedia := loadingMedia s;
     selectedMessages := selectedMessages s;
     pendingAudioRange := pendingAudioRange s;
     anki := anki s;
     connections := v;
     now := now s;
     timers := timers s;
     next_timer := next_timer s;
     sent := sent s;
     resolved := resolved s;
     next_call := next_call s;
     toasts := toasts s;
     sendingToAnki := sendingToAnki s;
     ankiError := ankiError s;
     jobs := jobs s |}.

Definition set_now (v : N) (s : state) : state :=
  {| heap := heap s;
     messages := messages s;
     loadingMedia := loadingMedia s;
     selectedMessages := selectedMessages s;
     pendingAudioRange := pendingAudioRange s;
     anki := anki s;
     connections := connections s;
     now := v;
     timers := timers s;
     next_timer := next_timer s;
     sent := sent s;
     resolved := resolved s;
     next_call := next_call s;
     toasts := toasts s;
     sendingToAnki := sendingToAnki s;
     ankiError := ankiError s;
     jobs := jobs s |}.

Definition set_timers (v : list timer) (s : state) : state :=
  {| heap := heap s;
     messages := messages s;
     loadingMedia := loadingMedia s;
     selectedMessages := selectedMessages s;
     pendingAudioRange := pendingAudioRange s;
     anki := anki s;
     connections := connections s;
     now := now s;
     timers := v;
     next_timer := next_timer s;
     sent := sent s;
     resolved := resolved s;
     next_call := next_call s;
     toasts := toasts s;
     sendingToAnki := sendingToAnki s;
     ankiError := ankiError s;
     jobs := jobs s |}.

Definition set_next_timer (v : nat) (s : state) : state :=
  {| heap := heap s;
     messages := messages s;
     loadingMedia := loadingMedia s;
     selectedMessages := selectedMessages s;
     pendingAudioRange := pendingAudioRange s;
     anki := anki s;
     connections := connections s;
     now := now s;
     timers := timers s;
     next_timer := v;
     sent := sent s;
     resolved := resolved s;
     next_call := next_call s;
     toasts := toasts s;
     sendingToAnki := sendingToAnki s;
     ankiError := ankiError s;
     jobs := jobs s |}.

Definition set_sent (v : list (Z * payload)) (s : state) : state :=
  {| heap := heap s;
     messages := messages s;
     loadingMedia := loadingMedia s;
     selectedMessages := selectedMessages s;
     pendingAudioRange := pendingAudioRange s;
     anki := anki s;
     connections := connections s;
     now := now s;
     timers := timers s;
     next_timer := next_timer s;
     sent := v;
     resolved := resolved s;
     next_call := next_call s;
     toasts := toasts s;
     sendingToAnki := sendingToAnki s;
     ankiError := ankiError s;
     jobs := jobs s |}.

Definition set_resolved (v : list resolution) (s : state) : state :=
  {| heap := heap s;
     messages := messages s;
     loadingMedia := loadingMedia s;
     selectedMessages := selectedMessages s;
     pendingAudioRange := pendingAudioRange s;
     anki := anki s;
     connections := connections s;
     now := now s;
     timers := timers s;
     next_timer := next_timer s;
     sent := sent s;
     resolved := v;
     next_call := next_call s;
     toasts := toasts s;
     sendingToAnki := sendingToAnki s;
     ankiError := ankiError s;
     jobs := jobs s |}.

Definition set_next_call (v : nat) (s : state) : state :=
  {| heap := heap s;
     messages := messages s;
     loadingMedia := loadingMedia s;
     selectedMessages := selectedMessages s;
     pendingAudioRange := pendingAudioRange s;
     anki := anki s;
     connections := connections s;
     now := now s;
     timers := timers s;
     next_timer := next_timer s;
     sent := sent s;
     resolved := resolved s;
     next_call := v;
     toasts := toasts s;
     sendingToAnki := sendingToAnki s;
     ankiError := ankiError s;
     jobs := jobs s |}.

Definition set_toasts (v : list toast) (s : state) : state :=
  {| heap := heap s;
     messages := messages s;
     loadingMedia := loadingMedia s;
     selectedMessages := selectedMessages s;
     pendingAudioRange := pendingAudioRange s;
     anki := anki s;
     connections := connections s;
     now := now s;
     timers := timers s;
     next_timer := next_timer s;
     sent := sent s;
     resolved := resolved s;
     next_call := next_call s;
     toasts := v;
     sendingToAnki := sendingToAnki s;
     ankiError := ankiError s;
     jobs := jobs s |}.

Definition set_sendingToAnki (v : gmap string bool) (s : state) : state :=
  {| heap := heap s;
     messages := messages s;
     loadingMedia := loadingMedia s;
     selectedMessages := selectedMessages s;
     pendingAudioRange := pendingAudioRange s;
     anki := anki s;
     connections := connections s;
     now := now s;
     timers := timers s;
     next_timer := next_timer s;
     sent := sent s;
     resolved := resolved s;
     next_call := next_call s;
     toasts := toasts s;
     sendingToAnki := v;
     ankiError := ankiError s;
     jobs := jobs s |}.

Definition set_ankiError (v : gmap string string) (s : state) : state :=
  {| heap := heap s;
     messages := messages s;
     loadingMedia := loadingMedia s;
     selectedMessages := selectedMessages s;
     pendingAudioRange := pendingAudioRange s;
     anki := anki s;
     connections := connections s;
     now := now s;
     timers := timers s;
     next_timer := next_timer s;
     sent := sent s;
     resolved := resolved s;
     next_call := next_call s;
     toasts := toasts s;
     sendingToAnki := sendingToAnki s;
     ankiError := v;
     jobs := jobs s |}.

Definition set_jobs (v : list export_job) (s : state) : state :=
  {| heap := heap s;
     messages := messages s;
     loadingMedia := loadingMedia s;
     selectedMessages := selectedMessages s;
     pendingAudioRange := pendingAudioRange s;
     anki := anki s;
     connections := connections s;
     now := now s;
     timers := timers s;
     next_timer := next_timer s;
     sent := sent s;
     resolved := resolved s;
     next_call := next_call s;
     toasts := toasts s;
     sendingToAnki := sendingToAnki s;
     ankiError := ankiError s;
     jobs := v |}.

Definition init (a : AnkiSettings) : state :=
  {| heap := []; messages := []; loadingMedia := ∅; selectedMessages := ∅;
     pendingAudioRange := None; anki := a; connections := [];
     now := 0%N; timers := []; next_timer := 0; sent := []; resolved := [];
     next_call := 0; toasts := []; sendingToAnki := ∅; ankiError := ∅;
     jobs := [] |}.

(** [messages.value] with the references followed. *)
Definition store (s : state) : list SubtitleMessage :=
  omap (fun r => heap s !! r) (messages s).

Definition loading (key : string) (s : state) : bool :=
  default false (loadingMedia s !! key).

Definition toast_add (k : toast_kind) (t : string) (s : state) : state :=
  set_toasts (toasts s ++ [{| kind := k; text := t |}]) s.

(** *** The connection manager *)

(** Modelled from the spec: [useWebSocket] (composables/useWebSocket) is
    not among the sources.  Its [status] is "connected" when at least one
    port is connected, "connecting" when some port is attempting, else
    "disconnected"; [send(payload, port)] transmits only when that port is
    connected and returns false, without raising, otherwise. *)
Definition port_state (p : Z) (s : state) : connectionState :=
  default disconnected (snd <$> List.find (fun e => e.1 =? p) (connections s)).

Definition ws_status (s : state) : connectionState :=
  if existsb (fun e => bool_decide (e.2 = connected)) (connections s) then connected
  else if existsb (fun e => bool_decide (e.2 = connecting)) (connections s) then connecting
  else disconnected.

Definition ws_send (pl : payload) (p : Z) (s : state) : bool * state :=
  if bool_decide (port_state p s = connected)
  then (true, set_sent (sent s ++ [(p, pl)]) s)
  else (false, s).

Definition ws_set (p : Z) (c : connectionState) (s : state) : state :=
  set_connections ((p, c) :: filter (fun e => e.1 ≠ p) (connections s)) s.

Definition sendToPort (pl : payload) (p : Z) (s : state) : bool * state :=
  if p =? 0 then (false, s) else ws_send pl p s.

(** *** The browser's timers and promises *)

Definition setInterval (a : callback) (ms : N) (s : state) : nat * state :=
  let t := next_timer s in
  (t, set_next_timer (S t)
        (set_timers (timers s ++ [{| tid := t; due := (now s + ms)%N;
                                     period := Some ms; action := a |}]) s)).

Definition setTimeout (a : callback) (ms : N) (s : state) : nat * state :=
  let t := next_timer s in
  (t, set_next_timer (S t)
        (set_timers (timers s ++ [{| tid := t; due := (now s + ms)%N;
                                     period := None; action := a |}]) s)).

(** [clearInterval(id)]; timeouts and intervals share their ids. *)
Definition clearInterval (i : nat) (s : state) : state :=
  set_timers (filter (fun t => tid t ≠ i) (timers s)) s.

Definition is_resolved (call : nat) (s : state) : bool :=
  existsb (fun r => res_call r =? call)%nat (resolved s).

(** [resolve(v)]: a promise settles once, later calls do nothing. *)
Definition resolve (call : nat) (v : option string) (s : state) : state :=
  if is_resolved call s then s
  else set_resolved (resolved s ++ [{| res_call := call; res_at := now s; res_value := v |}]) s.

(** *** Inbound messages *)

Definition media_prefix (type : media_type) : string :=
  match type with thumbnail_t => "thumb" | audio_t => "audio" end.

(** [messages.value.find((m) => m.id === id && m.sourcePort === port)]:
    the first matching object, by reference. *)
Definition find_message (i : number) (p : Z) (s : state) : option nat :=
  List.find (fun r => match heap s !! r with
                      | Some m => number_eqb (id m) i && (sourcePort m =? p)
                      | None => false
                      end) (messages s).

Definition update_message (r : nat) (f : SubtitleMessage -> SubtitleMessage)
    (s : state) : state :=
  match heap s !! r with
  | Some m => set_heap (<[r := f m]> (heap s)) s
  | None => s
  end.

Definition capacity : nat := 200.

(** The [onMessage] handler given to [useWebSocket].  Playing the audio
    and scrolling the list are left out. *)
Definition onMessage (d : JsonValue) (p : Z) (s : state) : state :=
  match d with
  | JObj d =>
      match field d "type" with
      | Some (JStr type) =>
          if String.eqb type "subtitle" then
            match parseSubtitleMessage d p with
            | None => s
            | Some m =>
                let r := List.length (heap s) in
                let s := set_heap (heap s ++ [m]) s in
                let s := set_messages (messages s ++ [r]) s in
                if decide (capacity < List.length (messages s))%nat
                then set_messages (tail (messages s)) s
                else s
            end
          else if String.eqb type "thumbnail" || String.eqb type "audio" then
            match parseMediaMessage d with
            | None => s
            | Some (i, dat) =>
                let s :=
                  match find_message i p s with
                  | Some r =>
                      if String.eqb type "thumbnail"
                      then update_message r (set_thumbnail (Some dat)) s
                      else update_message r (set_audio (Some dat)) s
                  | None => s
                  end in
                let key := ((if String.eqb type "thumbnail" then "thumb" else "audio")
                            ++ "-" ++ show_Z p ++ "-" ++ show_number i)%string in
                set_loadingMedia (delete key (loadingMedia s)) s
            end
          else if String.eqb type "audio_range" then
            match parseAudioRangeMessage d with
            | None => s
            | Some (a, b, dat) =>
                let s := set_pendingAudioRange
                           (Some {| startId := a; endId := b; data := dat; port := p |}) s in
                let key := ("audio_range-" ++ show_Z p ++ "-" ++ show_number a
                            ++ "-" ++ show_number b)%string in
                set_loadingMedia (delete key (loadingMedia s)) s
            end
          else s
      | _ => s
      end
  | _ => s
  end.

(** [saveSettings] when the media settings changed: the media of every
    message in the store is dropped. *)
Definition clear_media (s : state) : state :=
  fold_left (fun s r => update_message r (fun m => set_thumbnail None (set_audio None m)) s)
            (messages s) s.

(** *** Selection *)

Fixpoint findIndex_from {A} (p : A -> bool) (l : list A) (i : Z) : Z :=
  match l with
  | [] => -1
  | x :: l => if p x then i else findIndex_from p l (i + 1)
  end.

Definition findIndex {A} (p : A -> bool) (l : list A) : Z := findIndex_from p l 0.

Fixpoint insert_sorted {A} (key : A -> Z) (x : A) (l : list A) : list A :=
  match l with
  | [] => [x]
  | y :: l' => if key x <=? key y then x :: l else y :: insert_sorted key x l'
  end.

(** [sort((a, b) => key(a) - key(b))]: ascending, stable. *)
Definition sort_by {A} (key : A -> Z) (l : list A) : list A :=
  foldr (insert_sorted key) [] l.

Definition index_of_uid (u : string) (s : state) : Z :=
  findIndex (fun m => String.eqb (uid m) u) (store s).

(** [Array.from(selected).map(findIndex).filter(i => i !== -1).sort()];
    the order in which the set lists its members is lost in the sort. *)
Definition selectedIndices (s : state) : list Z :=
  sort_by (fun i => i)
    (filter (fun i => i ≠ -1)
       (map (fun selId => index_of_uid selId s) (elements (selectedMessages s)))).

Definition toggleSelection (msg : nat) (index : Z) (s : state) : state :=
  match heap s !! msg with
  | None => s
  | Some m =>
      let i := uid m in
      let selected := selectedMessages s in
      if decide (i ∈ selected) then
        let idxs := selectedIndices s in
        if bool_decide (head idxs = Some index) || bool_decide (last idxs = Some index)
        then set_selectedMessages (selected ∖ {[i]}) s
        else s
      else if decide (size selected = 0%nat) then
        set_selectedMessages ({[i]} ∪ selected) s
      else
        let idxs := selectedIndices s in
        let minIdx := default index (head idxs) in
        let maxIdx := default index (last idxs) in
        if (index =? minIdx - 1) || (index =? maxIdx + 1)
        then set_selectedMessages ({[i]} ∪ selected) s
        else s
  end.

Definition clearSelection (s : state) : state := set_selectedMessages ∅ s.

Definition is_selected (s : state) (r : nat) : bool :=
  match heap s !! r with
  | Some m => bool_decide (uid m ∈ selectedMessages s)
  | None => false
  end.

Definition getSelectedMessages (s : state) : list nat :=
  List.filter (is_selected s) (messages s).

Definition uid_of (s : state) (r : nat) : string :=
  match heap s !! r with Some m => uid m | None => "" end.

Definition getSelectionRange (s : state) : option (nat * nat) :=
  let selected := getSelectedMessages s in
  if decide (List.length selected = 0%nat) then None
  else
    let sorted := sort_by (fun r => index_of_uid (uid_of s r) s) selected in
    match head sorted, last sorted with
    | Some first, Some last => Some (first, last)
    | _, _ => None
    end.

Definition selectionRange (s : state) : option (nat * nat) :=
  if decide (size (selectedMessages s) < 2)%nat then None else getSelectionRange s.

(** *** Keyed media requests *)

Definition media_of (type : media_type) (m : SubtitleMessage) : option string :=
  match type with thumbnail_t => thumbnail m | audio_t => audio m end.

(** [msg.thumbnail] or [msg.audio] of the captured object, now. *)
Definition media_now (type : media_type) (msg : nat) (s : state) : option string :=
  heap s !! msg ≫= media_of type.

Definition media_key (type : media_type) (m : SubtitleMessage) (e : option number) : string :=
  (media_prefix type ++ "-" ++ uid m ++
   match e with
   | Some e => if number_truthy e then "-" ++ show_number e else ""
   | None => ""
   end)%string.

Definition truthy_number (e : option number) : option number :=
  match e with
  | Some e => if number_truthy e then Some e else None
  | None => None
  end.

Definition single_deadline : N := 10000.
Definition range_deadline : N := 15000.
Definition poll_interval : N := 100.

Definition requestMediaFromServer (msg : nat) (type : media_type) (e : option number)
    (s : state) : state :=
  let call := next_call s in
  let s := set_next_call (S call) s in
  if negb (bool_decide (ws_status s = connected)) then resolve call None s
  else
    match heap s !! msg with
    | None => s
    | Some m =>
        let key := media_key type m e in
        if loading key s then
          let '(checkInterval, s) := setInterval (MediaJoinPoll call msg type key) poll_interval s in
          let '(_, s) := setTimeout (MediaJoinDeadline call msg type checkInterval)
                           single_deadline s in
          s
        else
          let s := set_loadingMedia (<[key := true]> (loadingMedia s)) s in
          let pl := MediaRequest type (id m) (truthy_number e) in
          let '(ok, s) := sendToPort pl (sourcePort m) s in
          if negb ok then
            resolve call None (set_loadingMedia (delete key (loadingMedia s)) s)
          else
            let '(checkInterval, s) := setInterval (MediaOwnPoll call msg type) poll_interval s in
            let '(_, s) := setTimeout (MediaOwnDeadline call msg type key checkInterval)
                             single_deadline s in
            s
    end.

Definition range_key (a b : number) (p : Z) : string :=
  ("audio_range-" ++ show_Z p ++ "-" ++ show_number a ++ "-" ++ show_number b)%string.

Definition requestAudioRange (a b : number) (p : Z) (s : state) : state :=
  let call := next_call s in
  let s := set_next_call (S call) s in
  if negb (bool_decide (ws_status s = connected)) then resolve call None s
  else
    let key := range_key a b p in
    if loading key s then
      let '(checkInterval, s) := setInterval (RangeJoinPoll call a b p key) poll_interval s in
      let '(_, s) := setTimeout (RangeJoinDeadline call checkInterval) range_deadline s in
      s
    else
      let s := set_loadingMedia (<[key := true]> (loadingMedia s)) s in
      let '(ok, s) := sendToPort (AudioRangeRequest a b) p s in
      if negb ok then
        resolve call None (set_loadingMedia (delete key (loadingMedia s)) s)
      else
        let '(checkInterval, s) := setInterval (RangeOwnPoll call a b p) poll_interval s in
        let '(_, s) := setTimeout (RangeOwnDeadline call key checkInterval) range_deadline s in
        s.

Definition range_matches (a b : number) (p : Z) (r : range_result) : bool :=
  number_eqb (startId r) a && number_eqb (endId r) b && (port r =? p).

(** The body of a timer callback; [self] is the id of the timer that
    fires (the [checkInterval] of a poll). *)
Definition run_callback (a : callback) (self : nat) (s : state) : state :=
  match a with
  | MediaJoinPoll call msg type key =>
      if truthy (media_now type msg s) then
        resolve call (media_now type msg s) (clearInterval self s)
      else if negb (loading key s) then
        resolve call None (clearInterval self s)
      else s
  | MediaJoinDeadline call msg type checkInterval =>
      let s := clearInterval checkInterval s in
      resolve call (media_now type msg s) s
  | MediaOwnPoll call msg type =>
      if truthy (media_now type msg s) then
        resolve call (media_now type msg s) (clearInterval self s)
      else s
  | MediaOwnDeadline call msg type key checkInterval =>
      let s := clearInterval checkInterval s in
      let s := set_loadingMedia (delete key (loadingMedia s)) s in
      resolve call (media_now type msg s) s
  | RangeJoinPoll call a b p key =>
      match pendingAudioRange s with
      | Some r =>
          if range_matches a b p r then
            resolve call (Some (data r)) (set_pendingAudioRange None (clearInterval self s))
          else if negb (loading key s) then resolve call None (clearInterval self s)
          else s
      | None =>
          if negb (loading key s) then resolve call None (clearInterval self s) else s
      end
  | RangeJoinDeadline call checkInterval =>
      resolve call None (clearInterval checkInterval s)
  | RangeOwnPoll call a b p =>
      match pendingAudioRange s with
      | Some r =>
          if range_matches a b p r then
            resolve call (Some (data r)) (set_pendingAudioRange None (clearInterval self s))
          else s
      | None => s
      end
  | RangeOwnDeadline call key checkInterval =>
      let s := clearInterval checkInterval s in
      let s := set_loadingMedia (delete key (loadingMedia s)) s in
      resolve call None s
  end.

Definition is_armed (i : nat) (s : state) : bool :=
  existsb (fun u => tid u =? i)%nat (timers s).

Definition rearm (i : nat) (p : N) (s : state) : state :=
  set_timers
    (map (fun u => if (tid u =? i)%nat
                   then {| tid := tid u; due := (due u + p)%N; period := period u; action := action u |}
                   else u) (timers s)) s.

(** Timer [t] elapses: unless cleared meanwhile, it is re-armed (an
    interval) or leaves the queue (a timeout), and its callback runs. *)
Definition fire (t : timer) (s : state) : state :=
  if is_armed (tid t) s then
    let s := match period t with
             | Some p => rearm (tid t) p s
             | None => clearInterval (tid t) s
             end in
    run_callback (action t) (tid t) s
  else s.

(** One millisecond passes: the timers now due run, oldest first. *)
Definition tick (s : state) : state :=
  let s := set_now (now s + 1)%N s in
  fold_left (fun s t => fire t s) (filter (fun t => due t ≤ now s)%N (timers s)) s.

(** *** The buttons *)

Definition requestThumbnail (msg : nat) (s : state) : state :=
  match heap s !! msg with
  | None => s
  | Some m =>
      if negb (bool_decide (ws_status s = connected)) || truthy (thumbnail m) then s
      else
        let key := ("thumb-" ++ uid m)%string in
        if loading key s then s
        else
          let '(ok, s) := sendToPort (MediaRequest thumbnail_t (id m) None) (sourcePort m) s in
          if negb ok then
            toast_add toast_error ("Not connected to port " ++ show_Z (sourcePort m))%string s
          else set_loadingMedia (<[key := true]> (loadingMedia s)) s
  end.

Definition requestAudio (msg : nat) (s : state) : state :=
  match heap s !! msg with
  | None => s
  | Some m =>
      if negb (bool_decide (ws_status s = connected)) then s
      else if truthy (audio m) then s (* playAudio(msg.audio) *)
      else
        let key := ("audio-" ++ uid m)%string in
        if loading key s then s
        else
          let '(ok, s) := sendToPort (MediaRequest audio_t (id m) None) (sourcePort m) s in
          if negb ok then
            toast_add toast_error ("Not connected to port " ++ show_Z (sourcePort m))%string s
          else set_loadingMedia (<[key := true]> (loadingMedia s)) s
  end.

Definition port_of (s : state) (r : nat) : Z :=
  match heap s !! r with Some m => sourcePort m | None => 0 end.

Definition id_of (s : state) (r : nat) : number :=
  match heap s !! r with Some m => id m | None => NaN end.

(** [selectedMsgs.every((msg) => msg.sourcePort === selectionPort)]. *)
Definition allSamePort (s : state) (selectedMsgs : list nat) (selectionPort : Z) : bool :=
  forallb (fun r => port_of s r =? selectionPort) selectedMsgs.

Definition same_connection_error : string :=
  "Selected subtitles must come from the same connection for audio.".

(** The range-audio button; what follows the [await] (playing the audio)
    is left out. *)
Definition requestSelectionAudioRange (s : state) : state :=
  match selectionRange s with
  | None => s
  | Some (first, last) =>
      let selectedMsgs := getSelectedMessages s in
      let selectionPort := port_of s first in
      if negb (allSamePort s selectedMsgs selectionPort) then
        toast_add toast_error same_connection_error s
      else
        requestAudioRange (id_of s first) (id_of s last) selectionPort s
  end.

(** *** Export to the note service *)

Definition ankiConfigured (s : state) : bool :=
  let a := anki s in
  negb (String.eqb (noteType a) "") &&
  (negb (String.eqb (sentenceField a) "") || negb (String.eqb (audioField a) "")
   || negb (String.eqb (imageField a) "")).

(** What [anki.getLastNote] comes back with. *)
Inductive note_reply :=
| NoteError (message : string)      (* the call throws *)
| NoNote                            (* null *)
| Note (noteId : Z).

Definition set_job (j : nat) (st : job_status) (s : state) : state :=
  match jobs s !! j with
  | Some job =>
      set_jobs (<[j := {| job_selected := job_selected job; job_first := job_first job;
                          job_last := job_last job; job_key := job_key job;
                          job_status_of := st |}]> (jobs s)) s
  | None => s
  end.

(** [sendSelectionToAnki] up to its first [await]. *)
Definition sendSelectionToAnki (s : state) : state :=
  let selectedMsgs := getSelectedMessages s in
  if negb (ankiConfigured s) || bool_decide (List.length selectedMsgs = 0%nat) then s
  else
    match getSelectionRange s with
    | None => s
    | Some (first, last) =>
        let primaryKey := uid_of s first in
        let s := set_sendingToAnki (<[primaryKey := true]> (sendingToAnki s)) s in
        let s := set_ankiError (<[primaryKey := ""]> (ankiError s)) s in
        set_jobs (jobs s ++ [{| job_selected := selectedMsgs; job_first := first;
                                job_last := last; job_key := primaryKey;
                                job_status_of := AwaitingNote |}]) s
    end.

(** The [catch] and [finally] of the export. *)
Definition export_fail (j : nat) (key message : string) (s : state) : state :=
  let s := set_ankiError (<[key := message]> (ankiError s)) s in
  let s := toast_add toast_error message s in
  let s := set_sendingToAnki (delete key (sendingToAnki s)) s in
  set_job j (Failed message) s.

(** [sendSelectionToAnki] from the reply of [getLastNote] through its audio
    part; [date_now] is [Date.now()]. *)
Definition export_resume (j : nat) (reply : note_reply) (date_now : Z) (s : state) : state :=
  match jobs s !! j with
  | Some job =>
      match job_status_of job with
      | AwaitingNote =>
          let key := job_key job in
          match reply with
          | NoteError message => export_fail j key message s
          | NoNote => export_fail j key "No target card found in Anki" s
          | Note noteId =>
              let maxAgeMinutes := default 5 (maxCardAgeMinutes (anki s)) in
              if (0 <? maxAgeMinutes) && (maxAgeMinutes * 60000 <? date_now - noteId) then
                export_fail j key
                  ("Cannot add to card: The latest card is too old (> "
                   ++ show_Z maxAgeMinutes ++ " minutes).")%string s
              else if String.eqb (audioField (anki s)) "" then
                set_job j AudioSkipped s
              else
                let selectedMsgs := job_selected job in
                let first := job_first job in
                let last := job_last job in
                if (1 <? Z.of_nat (List.length selectedMsgs))
                   && negb (allSamePort s selectedMsgs (port_of s first)) then
                  export_fail j key same_connection_error s
                else if 1 <? Z.of_nat (List.length selectedMsgs) then
                  let call := next_call s in
                  set_job j (AwaitingAudio call)
                    (requestAudioRange (id_of s first) (id_of s last) (port_of s first) s)
                else
                  match media_now audio_t first s with
                  | Some a =>
                      if truthy (Some a) then set_job j (AudioCached a) s
                      else
                        let call := next_call s in
                        set_job j (AwaitingAudio call)
                          (requestMediaFromServer first audio_t None s)
                  | None =>
                      let call := next_call s in
                      set_job j (AwaitingAudio call)
                        (requestMediaFromServer first audio_t None s)
                  end
          end
      | _ => s
      end
  | None => s
  end.

(** *** Events *)

Inductive event :=
| Tick                                          (* one millisecond passes *)
| WsMessage (d : JsonValue) (p : Z)             (* a frame arrives on port [p] *)
| WsState (p : Z) (c : connectionState)         (* the connection to [p] changes *)
| ClickRow (msg : nat) (index : Z)              (* toggleSelection(message, index) *)
| ClickClear                                    (* clearSelection *)
| ClickThumbnail (msg : nat)
| ClickAudio (msg : nat)
| ClickRangeAudio                               (* requestSelectionAudioRange *)
| ClickExport                                   (* sendSelectionToAnki *)
| NoteReply (j : nat) (reply : note_reply) (date_now : Z)
| CallMedia (msg : nat) (type : media_type) (e : option number)
                                                (* requestMediaFromServer, from the export *)
| CallRange (a b : number) (p : Z)              (* requestAudioRange *)
| SaveMediaSettings.                            (* saveSettings, media changed *)

Definition step (s : state) (e : event) : state :=
  match e with
  | Tick => tick s
  | WsMessage d p => onMessage d p s
  | WsState p c => ws_set p c s
  | ClickRow msg index => toggleSelection msg index s
  | ClickClear => clearSelection s
  | ClickThumbnail msg => requestThumbnail msg s
  | ClickAudio msg => requestAudio msg s
  | ClickRangeAudio => requestSelectionAudioRange s
  | ClickExport => sendSelectionToAnki s
  | NoteReply j reply date_now => export_resume j reply date_now s
  | CallMedia msg type e => requestMediaFromServer msg type e s
  | CallRange a b p => requestAudioRange a b p s
  | SaveMediaSettings => clear_media s
  end.

Definition run (evs : list event) (s : state) : state := fold_left step evs s.

(** *** Invariants and notions used by the statements *)

(** The part of the state that only [onMessage] and [saveSettings] write. *)
Definition store_view (s : state) := (heap s, messages s).


Definition is_min (x : Z) (l : list Z) : Prop := x ∈ l /\ forall y, y ∈ l -> x <= y.

Definition is_max (x : Z) (l : list Z) : Prop := x ∈ l /\ forall y, y ∈ l -> y <= x.

(** The positions in the store of the selected ids that are in it. *)
Definition selected_positions (s : state) : list Z :=
  filter (fun i => i ≠ -1)
    (map (fun selId => index_of_uid selId s) (elements (selectedMessages s))).

Definition sort_Z : list Z -> list Z := sort_by (fun i => i).

Definition boundary (index : Z) (s : state) : Prop :=
  is_min index (selected_positions s) \/ is_max index (selected_positions s).

Definition adjacent (index : Z) (s : state) : Prop :=
  (exists lo, is_min lo (selected_positions s) /\ index = lo - 1) \/
  (exists hi, is_max hi (selected_positions s) /\ index = hi + 1).


(** The interval a deadline callback clears. *)
Definition checkInterval_of (a : callback) : option nat :=
  match a with
  | MediaJoinDeadline _ _ _ ci | MediaOwnDeadline _ _ _ _ ci
  | RangeJoinDeadline _ ci | RangeOwnDeadline _ _ ci => Some ci
  | _ => None
  end.

(** The call a deadline callback resolves. *)
Definition deadline_call (a : callback) : option nat :=
  match a with
  | MediaJoinDeadline c _ _ _ | MediaOwnDeadline c _ _ _ _
  | RangeJoinDeadline c _ | RangeOwnDeadline c _ _ => Some c
  | _ => None
  end.

(** The browser's queue is well formed: ids are distinct and below the
    next id, and the interval a deadline callback is going to clear is,
    if still armed, an interval. *)
Record queue_wf (s : state) : Prop := {
  wf_ids : forall t, t ∈ timers s -> (tid t < next_timer s)%nat;
  wf_nodup : NoDup (tid <$> timers s);
  wf_ci : forall t ci, t ∈ timers s -> checkInterval_of (action t) = Some ci ->
          (ci < next_timer s)%nat /\
          forall u, u ∈ timers s -> tid u = ci -> is_Some (period u);
}.

(** Every promise on record was settled in the past. *)
Definition resolved_stamped (s : state) : Prop :=
  forall r, r ∈ resolved s -> (res_at r <= now s)%N.

(** Call [c] was settled no later than [d]. *)
Definition resolved_by (c : nat) (d : N) (s : state) : Prop :=
  exists r, r ∈ resolved s /\ res_call r = c /\ (res_at r <= d)%N.

(** Call [c] is settled, or its deadline timer is armed for [d], ahead. *)
Definition waiting (c : nat) (d : N) (s : state) : Prop :=
  resolved_by c d s \/
  ((now s < d)%N /\
   exists t, t ∈ timers s /\ period t = None /\ due t = d /\
             deadline_call (action t) = Some c).

(** A step in which no time passes: the clock stands, no timer leaves the
    queue, promises only settle, stamped with the present. *)
Record timeless (s s' : state) : Prop := {
  tl_now : now s' = now s;
  tl_timers : forall t, t ∈ timers s -> t ∈ timers s';
  tl_resolved : forall r, r ∈ resolved s -> r ∈ resolved s';
  tl_stamped : forall r, r ∈ resolved s' -> r ∈ resolved s \/ res_at r = now s;
}.

(** What a request leaves in the queue: nothing, when it settles at once,
    or a poll and a deadline. *)
Definition registered (D : N) (c : nat) (s s' : state) : Prop :=
  exists a b,
    checkInterval_of a = None /\
    checkInterval_of b = Some (next_timer s) /\
    deadline_call b = Some c /\
    timers s' = timers s ++
      [{| tid := next_timer s; due := (now s + poll_interval)%N;
          period := Some poll_interval; action := a |};
       {| tid := S (next_timer s); due := (now s + D)%N;
          period := None; action := b |}] /\
    next_timer s' = S (S (next_timer s)) /\
    resolved s' = resolved s /\ now s' = now s.

Definition settled_at_once (c : nat) (s s' : state) : Prop :=
  timers s' = timers s /\ next_timer s' = next_timer s /\ now s' = now s /\
  is_resolved c s' = true /\ timeless s s'.

Definition untouched (s s' : state) : Prop :=
  timers s' = timers s /\ next_timer s' = next_timer s /\ now s' = now s /\
  resolved s' = resolved s.

(** A step inside a tick: the clock stands, timers only leave the queue or
    are re-armed, promises only settle, stamped with the present. *)
Record shrinks (s s' : state) : Prop := {
  sh_now : now s' = now s;
  sh_next : next_timer s' = next_timer s;
  sh_resolved : forall r, r ∈ resolved s -> r ∈ resolved s';
  sh_stamped : forall r, r ∈ resolved s' -> r ∈ resolved s \/ res_at r = now s;
  sh_timers : forall u, u ∈ timers s' ->
              exists t, t ∈ timers s /\ tid t = tid u /\ period t = period u /\
                        action t = action u;
  sh_nodup : NoDup (tid <$> timers s) -> NoDup (tid <$> timers s');
}.

(** A step that takes no time and keeps the queue well formed. *)
Definition benign (s s' : state) : Prop :=
  timeless s s' /\ (queue_wf s -> queue_wf s').

(** The marker a deadline callback of a transmitting call deletes. *)
Definition own_deadline_key (a : callback) : option string :=
  match a with
  | MediaOwnDeadline _ _ _ key _ | RangeOwnDeadline _ key _ => Some key
  | _ => None
  end.

(** The marker an inbound frame deletes. *)
Definition response_key (d : JsonValue) (p : Z) : option string :=
  match d with
  | JObj d =>
      match field d "type" with
      | Some (JStr type) =>
          if String.eqb type "subtitle" then None
          else if String.eqb type "thumbnail" || String.eqb type "audio" then
            match parseMediaMessage d with
            | Some (i, _) =>
                Some ((if String.eqb type "thumbnail" then "thumb" else "audio")
                      ++ "-" ++ show_Z p ++ "-" ++ show_number i)%string
            | None => None
            end
          else if String.eqb type "audio_range" then
            match parseAudioRangeMessage d with
            | Some (a, b, _) => Some (range_key a b p)
            | None => None
            end
          else None
      | _ => None
      end
  | _ => None
  end.

(** Does event [e], in state [s], delete the marker [key]?  A tick does
    when a deadline of a transmitting call for [key] is due, a frame when
    it answers [key]. *)
Definition clears (key : string) (s : state) (e : event) : bool :=
  match e with
  | Tick =>
      existsb (fun t => bool_decide (due t <= now s + 1)%N
                        && bool_decide (own_deadline_key (action t) = Some key))
              (timers s)
  | WsMessage d p => bool_decide (response_key d p = Some key)
  | _ => false
  end.

(** No event of the run deletes the marker. *)
Fixpoint undisturbed (key : string) (evs : list event) (s : state) : bool :=
  match evs with
  | [] => true
  | e :: evs => negb (clears key s e) && undisturbed key evs (step s e)
  end.

(** The fields of an item that never change once it is stored. *)
Definition same_item (m m' : SubtitleMessage) : Prop :=
  uid m' = uid m /\ id m' = id m /\ sourcePort m' = sourcePort m.

(** The milliseconds that pass in a run. *)
Fixpoint count_ticks (evs : list event) : N :=
  match evs with
  | [] => 0%N
  | Tick :: evs => (1 + count_ticks evs)%N
  | _ :: evs => count_ticks evs
  end.

(** The promise of [call] settles now with [v]. *)
Definition settles (call : nat) (v : option string) (s s' : state) : Prop :=
  resolved s' = resolved s ++ [{| res_call := call; res_at := now s; res_value := v |}].

(** No character of the string is a dash. *)
Fixpoint no_dash (s : string) : Prop :=
  match s with
  | EmptyString => True
  | String c rest => c <> "-"%char /\ no_dash rest
  end.

(** The uid of an item is the one its port and id give. *)
Definition uid_wf (m : SubtitleMessage) : Prop :=
  uid m = (show_Z (sourcePort m) ++ "-" ++ show_number (id m))%string.

(** *** Example states *)

Definition example_anki : AnkiSettings :=
  {| noteType := "Basic"; frontField := "Front"; sentenceField := "Sentence";
     audioField := "Audio"; imageField := "Image"; maxCardAgeMinutes := Some 5 |}.

Definition subtitle_frame (i : Z) (txt : string) : JsonValue :=
  JObj [("type", JStr "subtitle"); ("id", JNum (Fin i)); ("subtitle", JStr txt);
        ("time_pos", JNum (Fin (10 * i + 1))); ("sub_start", JNum (Fin (10 * i)));
        ("sub_end", JNum (Fin (10 * i + 5)))].

Definition audio_range_frame (a b : Z) (dat : string) : JsonValue :=
  JObj [("type", JStr "audio_range"); ("start_id", JNum (Fin a)); ("end_id", JNum (Fin b));
        ("data", JStr dat)].

Definition ticks (n : N) : list event := repeat Tick (N.to_nat n).

(** Port 61777 connected, four items A, B, C, D from it. *)
Definition example_store : state :=
  run [WsState 61777 connected;
       WsMessage (subtitle_frame 1 "A") 61777; WsMessage (subtitle_frame 2 "B") 61777;
       WsMessage (subtitle_frame 3 "C") 61777; WsMessage (subtitle_frame 4 "D") 61777]
      (init example_anki).



(** The store at its capacity, the oldest item selected. *)
Definition full_store : state :=
  run (map (fun i => WsMessage (subtitle_frame (Z.of_nat i) "x") 61777) (seq 1 200)
       ++ [ClickRow 0 0])
      (init example_anki).

(** The events that lead to [example_store]. *)
Definition example_history : list event :=
  [WsState 61777 connected;
   WsMessage (subtitle_frame 1 "A") 61777; WsMessage (subtitle_frame 2 "B") 61777;
   WsMessage (subtitle_frame 3 "C") 61777; WsMessage (subtitle_frame 4 "D") 61777].


(** The first item of [example_store]. *)
Definition item_A : SubtitleMessage :=
  {| id := Fin 1; subtitle := "A"; time_pos := Fin 11; sub_start := Fin 10;
     sub_end := Fin 15; thumbnail := None; audio := None;
     sourcePort := 61777; uid := "61777-1" |}.

(** The frame of a 201st subtitle. *)
Definition frame_201 : list (string * JsonValue) :=
  [("type", JStr "subtitle"); ("id", JNum (Fin 201)); ("subtitle", JStr "y");
   ("time_pos", JNum (Fin 2011)); ("sub_start", JNum (Fin 2010));
   ("sub_end", JNum (Fin 2015))].

(** [example_store] with B and C selected. *)
Definition range_B_C : state := run [ClickRow 1 1; ClickRow 2 2] example_store.



(** *** Notions used by the further properties *)

(** The name of a media type on the wire. *)
Definition media_name (type : media_type) : string :=
  match type with thumbnail_t => "thumbnail" | audio_t => "audio" end.

(** The frame with which the server answers a request for the media of
    item [i]. *)
Definition media_frame (type : media_type) (i : number) (dat : string) : JsonValue :=
  JObj [("type", JStr (media_name type)); ("id", JNum i); ("data", JStr dat)].

(** The thumbnail and the audio button of a row. *)
Definition click_media (type : media_type) (msg : nat) (s : state) : state :=
  match type with
  | thumbnail_t => requestThumbnail msg s
  | audio_t => requestAudio msg s
  end.

(** The marker the button of an item sets. *)
Definition button_key (type : media_type) (m : SubtitleMessage) : string :=
  (media_prefix type ++ "-" ++ uid m)%string.

(** The types of frame [onMessage] has a branch for. *)
Definition known_types : list string := ["subtitle"; "thumbnail"; "audio"; "audio_range"].

(** The uids of the stored items, in display order. *)
Definition store_uids (s : state) : list string := uid <$> store s.

(** The selected ids are those of the [n] rows from position [lo] on. *)
Definition selects_rows (lo n : nat) (s : state) : Prop :=
  (lo + n <= List.length (store_uids s))%nat /\
  forall u, u ∈ selectedMessages s <->
            exists k, (lo <= k < lo + n)%nat /\ store_uids s !! k = Some u.

(** The selection is a run of consecutive rows (possibly empty). *)
Definition contiguous (s : state) : Prop := exists lo n, selects_rows lo n s.

(** Every row has its object, and no two rows have the same uid. *)
Definition store_ok (s : state) : Prop :=
  NoDup (store_uids s) /\ Forall (fun r => is_Some (heap s !! r)) (messages s).

(** A click on the row displayed at some position of the list, or on the
    clear button. *)
Definition row_click (s : state) (e : event) : Prop :=
  e = ClickClear \/
  exists k msg, e = ClickRow msg (Z.of_nat k) /\ messages s !! k = Some msg.

(** What [saveSettings] leaves of an item when the media settings changed. *)
Definition without_media (m : SubtitleMessage) : SubtitleMessage :=
  set_thumbnail None (set_audio None m).


(** [selectionAudioKey]: the marker the selection bar watches. *)
Definition selectionAudioKey (s : state) : option string :=
  match selectionRange s with
  | None => None
  | Some (first, last) =>
      Some ("audio_range-" ++ show_Z (port_of s first) ++ "-" ++ show_number (id_of s first)
            ++ "-" ++ show_number (id_of s last))%string
  end.

(** [selectionAudioLoading]: does the range-audio button show as busy? *)
Definition selectionAudioLoading (s : state) : bool :=
  match selectionAudioKey s with
  | Some key => loading key s
  | None => false
  end.

(** The frame with which the server answers a range-audio request. *)
Definition range_frame (a b : number) (dat : string) : JsonValue :=
  JObj [("type", JStr "audio_range"); ("start_id", JNum a); ("end_id", JNum b);
        ("data", JStr dat)].

(** [example_store] once the thumbnail of its first item has arrived. *)
Definition cached_store : state :=
  run [WsMessage (media_frame thumbnail_t (Fin 1) "aW1n") 61777] example_store.

(** The first item of [cached_store]. *)
Definition cached_item_A : SubtitleMessage := set_thumbnail (Some "aW1n") item_A.

(** Clicks on the rows of [example_store]: B, D (not adjacent), C, A. *)
Definition example_clicks : list event :=
  [ClickRow 1 1; ClickRow 3 3; ClickRow 2 2; ClickRow 0 0].

(** The queue of the browser holds nothing stale: every timer is due in
    the future, a timeout no later than [B]; a timeout carries a deadline
    callback and an interval a poll, with a positive period; and every
    armed interval is watched by an armed timeout whose callback clears
    it. *)
Record tidy (B : N) (s : state) : Prop := {
  tidy_wf : queue_wf s;
  tidy_future : forall t, t ∈ timers s -> (now s < due t)%N;
  tidy_bound : forall t, t ∈ timers s -> period t = None -> (due t <= B)%N;
  tidy_period : forall t p, t ∈ timers s -> period t = Some p -> (0 < p)%N;
  tidy_kind : forall t, t ∈ timers s ->
              (period t = None <-> is_Some (checkInterval_of (action t)));
  tidy_watched : forall u, u ∈ timers s -> is_Some (period u) ->
                 exists t, t ∈ timers s /\ period t = None /\
                           checkInterval_of (action t) = Some (tid u);
}.

(** What an event other than a tick does to the queue: nothing, or it
    registers the poll and the deadline of one request. *)
Definition arms (s s' : state) : Prop :=
  (timers s' = timers s /\ next_timer s' = next_timer s /\ now s' = now s) \/
  exists D c, (D = single_deadline \/ D = range_deadline) /\ registered D c s s'.

(** Inside a tick that started in [s1]: [l] holds the timers of the
    snapshot that have not run yet, [s] is the state reached.  Timeouts
    are those of [s1], the due ones still to run; a poll is due later or
    still to run; every poll is watched. *)
Record mid_tick (s1 : state) (l : list timer) (s : state) : Prop := {
  mt_timeouts : forall u, u ∈ timers s -> period u = None -> u ∈ timers s1;
  mt_due : forall u, u ∈ timers s -> period u = None -> (due u <= now s1)%N -> u ∈ l;
  mt_polls : forall u, u ∈ timers s -> is_Some (period u) -> (now s1 < due u)%N \/ u ∈ l;
  mt_watched : forall u, u ∈ timers s -> is_Some (period u) ->
               exists t, t ∈ timers s /\ period t = None /\
                         checkInterval_of (action t) = Some (tid u);
  mt_shrinks : shrinks s1 s;
}.

End Client.

(** * The settings dialog (App.vue) *)

Module Settings.
Import Client.

(** ** Strings of the browser *)

(** The white space of a JS regular expression ([\s]) and of [parseInt],
    among the code units below 256: TAB, LF, VT, FF, CR, SP and NBSP. *)
Definition is_space (c : ascii) : bool :=
  let n := nat_of_ascii c in
  ((9 <=? n) && (n <=? 13) || (n =? 32) || (n =? 160))%nat.

(** A character matched by the class [[\s,]]. *)
Definition is_sep (c : ascii) : bool := is_space c || Ascii.eqb c ","%char.

Definition is_digit (c : ascii) : bool :=
  let n := nat_of_ascii c in ((48 <=? n) && (n <=? 57))%nat.

(** [raw.split(/[\s,]+/)]: the pieces between the maximal runs of
    separators; a separator at either end leaves an empty piece there, and
    a string without separators is its only piece.  [in_sep] tells that
    the previous character was a separator. *)
Fixpoint split_from (cur : string) (in_sep : bool) (s : string) : list string :=
  match s with
  | EmptyString => [cur]
  | String c rest =>
      if is_sep c then
        if in_sep then split_from "" true rest else cur :: split_from "" true rest
      else split_from (cur ++ String c "")%string false rest
  end.

Definition split_ports (raw : string) : list string := split_from "" false raw.

Fixpoint skip_space (s : string) : string :=
  match s with
  | String c rest => if is_space c then skip_space rest else s
  | EmptyString => s
  end.

(** The longest prefix of decimal digits. *)
Fixpoint digits_prefix (s : string) : string :=
  match s with
  | String c rest => if is_digit c then String c (digits_prefix rest) else ""
  | EmptyString => ""
  end.

(** [parseInt(v, 10)]: white space is skipped, a sign is read, then the
    longest run of decimal digits; NaN when there is no digit.  The value
    is the exact integer: where JS rounds (beyond 2^53) both are far above
    any port number, and the only test applied to the result is the range
    test of [valid_port]. *)
Definition parseInt (v : string) : number :=
  let s := skip_space v in
  let neg := match s with String "-" _ => true | _ => false end in
  let s := match s with
           | String "-" r => r
           | String "+" r => r
           | _ => s
           end in
  match digits_prefix s with
  | EmptyString => NaN
  | ds =>
      match NilEmpty.uint_of_string ds with
      | Some d => Fin (if neg then - Z.of_uint d else Z.of_uint d)
      | None => NaN
      end
  end.

(** [Number.isInteger(n) && n > 0 && n <= 65535]. *)
Definition valid_port (n : number) : bool :=
  match n with
  | Fin z => (0 <? z) && (z <=? 65535)
  | _ => false
  end.

(** [ports.join(', ')]. *)
Definition join_ports (ports : list number) : string :=
  String.concat ", " (map show_number ports).

(** ** Settings *)

Record ConnectionSettings := {
  host : string;
  ports : list number;
}.

(** The media settings.  The component only compares its numeric fields
    and copies them, so their type is left open: [num] is the type of JS
    numbers. *)
Record MediaSettings {num : Type} := {
  audioOffsetStart : num;
  audioOffsetEnd : num;
  imageFormat : string;
  imageQuality : num;
  imageAnimated : bool;
  audioFormat : string;
  audioQuality : num;
  audioFilters : string;
  imageSize : string;
  imageAdvanced : bool;
  imageAdvancedArgs : string;
  imageAdvancedExtension : string;
  audioAdvanced : bool;
  audioAdvancedArgs : string;
  audioAdvancedExtension : string;
}.
Arguments MediaSettings : clear implicits.

Definition set_imageAnimated {num} (v : bool) (m : MediaSettings num) : MediaSettings num :=
  {| audioOffsetStart := audioOffsetStart m; audioOffsetEnd := audioOffsetEnd m;
     imageFormat := imageFormat m; imageQuality := imageQuality m;
     imageAnimated := v;
     audioFormat := audioFormat m; audioQuality := audioQuality m;
     audioFilters := audioFilters m; imageSize := imageSize m;
     imageAdvanced := imageAdvanced m; imageAdvancedArgs := imageAdvancedArgs m;
     imageAdvancedExtension := imageAdvancedExtension m;
     audioAdvanced := audioAdvanced m; audioAdvancedArgs := audioAdvancedArgs m;
     audioAdvancedExtension := audioAdvancedExtension m |}.

(** [settings.value]. *)
Record Settings {num : Type} := {
  anki : AnkiSettings;
  connection : ConnectionSettings;
  media : MediaSettings num;
}.
Arguments Settings : clear implicits.

(** The local copies the dialog edits. *)
Record dialog {num : Type} := {
  localSettings : AnkiSettings;
  localConnection : ConnectionSettings;
  localMedia : MediaSettings num;
  localPortInput : string;
  showSettings : bool;
}.
Arguments dialog : clear implicits.

Definition DEFAULT_PORTS : list number :=
  [Fin 61777; Fin 61778; Fin 61779; Fin 61780; Fin 61781].

Definition default_host : string := "127.0.0.1".

(** [settings.value.anki = v]: the component reads its note settings from
    there. *)
Definition set_anki (v : AnkiSettings) (s : state) : state :=
  {| heap := heap s; messages := messages s; loadingMedia := loadingMedia s;
     selectedMessages := selectedMessages s; pendingAudioRange := pendingAudioRange s;
     Client.anki := v; connections := connections s; now := now s; timers := timers s;
     next_timer := next_timer s; sent := sent s; resolved := resolved s;
     next_call := next_call s; toasts := toasts s; sendingToAnki := sendingToAnki s;
     ankiError := ankiError s; jobs := jobs s |}.

(** [settingsValid], on the local copy. *)
Definition settingsValid (a : AnkiSettings) : bool :=
  if String.eqb (noteType a) "" then true
  else negb (String.eqb (sentenceField a) "") || negb (String.eqb (audioField a) "")
       || negb (String.eqb (imageField a) "").

Definition onModelChange (value : string) (a : AnkiSettings) : AnkiSettings :=
  {| noteType := value; frontField := ""; sentenceField := ""; audioField := "";
     imageField := ""; maxCardAgeMinutes := Some 5 |}.

Definition updateLocalPorts {num} (raw : string) (d : dialog num) : dialog num :=
  let parsed := filter (fun n => valid_port n = true) (map parseInt (split_ports raw)) in
  {| localSettings := localSettings d;
     localConnection :=
       if decide (List.length parsed = 0%nat) then localConnection d
       else {| host := host (localConnection d); ports := parsed |};
     localMedia := localMedia d;
     localPortInput := raw;
     showSettings := showSettings d |}.

Definition resetLocalConnectionDefaults {num} (d : dialog num) : dialog num :=
  {| localSettings := localSettings d;
     localConnection := {| host := default_host; ports := DEFAULT_PORTS |};
     localMedia := localMedia d;
     localPortInput := join_ports DEFAULT_PORTS;
     showSettings := showSettings d |}.

(** [mediaSettingsChanged] of [saveSettings]; [neq] is [!==] on numbers. *)
Definition mediaSettingsChanged {num} (neq : num -> num -> bool)
    (l s : MediaSettings num) : bool :=
  neq (audioOffsetStart l) (audioOffsetStart s) ||
  neq (audioOffsetEnd l) (audioOffsetEnd s) ||
  negb (String.eqb (imageFormat l) (imageFormat s)) ||
  neq (imageQuality l) (imageQuality s) ||
  negb (Bool.eqb (imageAnimated l) (imageAnimated s)) ||
  negb (String.eqb (audioFormat l) (audioFormat s)) ||
  neq (audioQuality l) (audioQuality s) ||
  negb (String.eqb (audioFilters l) (audioFilters s)) ||
  negb (String.eqb (imageSize l) (imageSize s)) ||
  negb (Bool.eqb (imageAdvanced l) (imageAdvanced s)) ||
  negb (String.eqb (imageAdvancedArgs l) (imageAdvancedArgs s)) ||
  negb (Bool.eqb (audioAdvanced l) (audioAdvanced s)) ||
  negb (String.eqb (audioAdvancedArgs l) (audioAdvancedArgs s)).

(** The animation flag as [saveSettings] leaves it in [localMedia]. *)
Definition normalize_animated {num} (l : MediaSettings num) : MediaSettings num :=
  if imageAdvanced l then
    if String.eqb (imageAdvancedExtension l) "" then set_imageAnimated false l else l
  else if negb (String.eqb (imageFormat l) "avif") && negb (String.eqb (imageFormat l) "webp")
  then set_imageAnimated false l
  else l.

(** [saveSettings]: the dialog, the saved settings and the component's
    state (the store of items and the notices) after the call. *)
Definition saveSettings {num} (neq : num -> num -> bool)
    (d : dialog num) (st : Settings num) (s : state) : dialog num * Settings num * state :=
  let changed := mediaSettingsChanged neq (localMedia d) (media st) in
  let l := normalize_animated (localMedia d) in
  let d := {| localSettings := localSettings d; localConnection := localConnection d;
              localMedia := l; localPortInput := localPortInput d;
              showSettings := false |} in
  let st := {| anki := localSettings d; connection := localConnection d; media := l |} in
  let s := set_anki (localSettings d) s in
  let s := if changed then clear_media s else s in
  (d, st, toast_add toast_success "Settings saved" s).

(** The format an image request asks for: [getImageParams().image_config.format]. *)
Definition request_image_format {num} (m : MediaSettings num) : string :=
  if imageAdvanced m then imageAdvancedExtension m else imageFormat m.

(** The format an audio request asks for: [getAudioParams().audio_config.format]. *)
Definition request_audio_format {num} (m : MediaSettings num) : string :=
  if audioAdvanced m then audioAdvancedExtension m else audioFormat m.

(** ** File names of the exported media *)

Inductive file_kind := audio_file | image_file.

(** [ext.replace(/^\.+/, '')]: the leading dots are dropped. *)
Fixpoint strip_dots (ext : string) : string :=
  match ext with
  | String "." rest => strip_dots rest
  | _ => ext
  end.

(** The extension [generateMediaFilename] computes; [lower] is
    [String.prototype.toLowerCase], and [m] the media settings in force
    (the dialog's copy while the dialog is open). *)
Definition media_extension {num} (lower : string -> string) (type : file_kind)
    (m : MediaSettings num) : string :=
  let ext :=
    match type with
    | audio_file =>
        if audioAdvanced m then
          if String.eqb (audioAdvancedExtension m) "" then "mp3" else audioAdvancedExtension m
        else if String.eqb (audioFormat m) "mp3" then "mp3" else "opus"
    | image_file =>
        if imageAdvanced m then
          if String.eqb (imageAdvancedExtension m) "" then "jpg" else imageAdvancedExtension m
        else if String.eqb (imageFormat m) "jpeg" then "jpg" else imageFormat m
    end in
  let ext := if String.eqb (lower ext) "jpeg" then "jpg" else ext in
  let ext := strip_dots ext in
  lower ext.

(** [generateMediaFilename]; [timestamp] is [Date.now()]. *)
Definition generateMediaFilename {num} (lower : string -> string) (msgId : number)
    (timestamp : Z) (type : file_kind) (m : MediaSettings num) : string :=
  ("mpv_subtitleminer_" ++ show_number msgId ++ "_" ++ show_Z timestamp ++ "."
   ++ media_extension lower type m)%string.

(** Settings for examples: numbers are integers. *)
Definition example_media : MediaSettings Z :=
  {| audioOffsetStart := 0; audioOffsetEnd := 0; imageFormat := "jpeg"; imageQuality := 5;
     imageAnimated := false; audioFormat := "mp3"; audioQuality := 128; audioFilters := "";
     imageSize := "640:-2"; imageAdvanced := true; imageAdvancedArgs := "-c:v png";
     imageAdvancedExtension := "png"; audioAdvanced := false; audioAdvancedArgs := "";
     audioAdvancedExtension := "" |}.

Definition Z_neq (a b : Z) : bool := negb (a =? b).

(** A port number a connection can be opened to. *)
Definition in_range (n : number) : Prop := exists z, n = Fin z /\ 0 < z <= 65535.

(** The two media settings differ at most in the extensions of the
    advanced mode. *)
Record same_but_extensions {num} (l s : MediaSettings num) : Prop := {
  sbe_audioOffsetStart : audioOffsetStart l = audioOffsetStart s;
  sbe_audioOffsetEnd : audioOffsetEnd l = audioOffsetEnd s;
  sbe_imageFormat : imageFormat l = imageFormat s;
  sbe_imageQuality : imageQuality l = imageQuality s;
  sbe_imageAnimated : imageAnimated l = imageAnimated s;
  sbe_audioFormat : audioFormat l = audioFormat s;
  sbe_audioQuality : audioQuality l = audioQuality s;
  sbe_audioFilters : audioFilters l = audioFilters s;
  sbe_imageSize : imageSize l = imageSize s;
  sbe_imageAdvanced : imageAdvanced l = imageAdvanced s;
  sbe_imageAdvancedArgs : imageAdvancedArgs l = imageAdvancedArgs s;
  sbe_audioAdvanced : audioAdvanced l = audioAdvanced s;
  sbe_audioAdvancedArgs : audioAdvancedArgs l = audioAdvancedArgs s;
}.

(** No numeric field is NaN: each equals itself. *)
Definition numbers_ok {num} (neq : num -> num -> bool) (m : MediaSettings num) : Prop :=
  neq (audioOffsetStart m) (audioOffsetStart m) = false /\
  neq (audioOffsetEnd m) (audioOffsetEnd m) = false /\
  neq (imageQuality m) (imageQuality m) = false /\
  neq (audioQuality m) (audioQuality m) = false.

(** Can the format the requests will ask for hold an animation? *)
Definition can_animate {num} (m : MediaSettings num) : Prop :=
  (imageAdvanced m = true /\ imageAdvancedExtension m <> "") \/
  (imageAdvanced m = false /\ (imageFormat m = "avif" \/ imageFormat m = "webp")).

(** [example_media] with another extension for the advanced image mode. *)
Definition example_media_webp : MediaSettings Z :=
  {| audioOffsetStart := 0; audioOffsetEnd := 0; imageFormat := "jpeg"; imageQuality := 5;
     imageAnimated := false; audioFormat := "mp3"; audioQuality := 128; audioFilters := "";
     imageSize := "640:-2"; imageAdvanced := true; imageAdvancedArgs := "-c:v png";
     imageAdvancedExtension := "webp"; audioAdvanced := false; audioAdvancedArgs := "";
     audioAdvancedExtension := "" |}.

Definition example_dialog (l : MediaSettings Z) : dialog Z :=
  {| localSettings := example_anki;
     localConnection := {| host := default_host; ports := DEFAULT_PORTS |};
     localMedia := l; localPortInput := join_ports DEFAULT_PORTS; showSettings := true |}.

Definition example_settings : Settings Z :=
  {| anki := example_anki;
     connection := {| host := default_host; ports := DEFAULT_PORTS |};
     media := example_media |}.

End Settings.

(** * The media form (components/MediaConfiguration.vue) *)

Module MediaConfiguration.
Import Client.
Import Settings.

Section Numbers.

(** The JS numbers, with the integers among them. *)
Context {num : Type} (int : Z -> num).

Definition set_image (fmt : string) (animated : bool) (quality : num)
    (m : MediaSettings num) : MediaSettings num :=
  {| audioOffsetStart := audioOffsetStart m; audioOffsetEnd := audioOffsetEnd m;
     imageFormat := fmt; imageQuality := quality; imageAnimated := animated;
     audioFormat := audioFormat m; audioQuality := audioQuality m;
     audioFilters := audioFilters m; imageSize := imageSize m;
     imageAdvanced := imageAdvanced m; imageAdvancedArgs := imageAdvancedArgs m;
     imageAdvancedExtension := imageAdvancedExtension m;
     audioAdvanced := audioAdvanced m; audioAdvancedArgs := audioAdvancedArgs m;
     audioAdvancedExtension := audioAdvancedExtension m |}.

Definition set_audioQuality (quality : num) (m : MediaSettings num) : MediaSettings num :=
  {| audioOffsetStart := audioOffsetStart m; audioOffsetEnd := audioOffsetEnd m;
     imageFormat := imageFormat m; imageQuality := imageQuality m;
     imageAnimated := imageAnimated m;
     audioFormat := audioFormat m; audioQuality := quality;
     audioFilters := audioFilters m; imageSize := imageSize m;
     imageAdvanced := imageAdvanced m; imageAdvancedArgs := imageAdvancedArgs m;
     imageAdvancedExtension := imageAdvancedExtension m;
     audioAdvanced := audioAdvanced m; audioAdvancedArgs := audioAdvancedArgs m;
     audioAdvancedExtension := audioAdvancedExtension m |}.

(** The getter of [localSelectedFormat]. *)
Definition selected_format (m : MediaSettings num) : string :=
  if String.eqb (imageFormat m) "avif" && imageAnimated m then "avif_animated"
  else if String.eqb (imageFormat m) "webp" && imageAnimated m then "webp_animated"
  else imageFormat m.

(** The setter of [localSelectedFormat]. *)
Definition select_format (val : string) (m : MediaSettings num) : MediaSettings num :=
  if String.eqb val "avif_animated" then set_image "avif" true (int 35) m
  else if String.eqb val "webp_animated" then set_image "webp" true (int 75) m
  else
    let q := imageQuality m in
    let q := if String.eqb val "jpeg" then int 5 else q in
    let q := if String.eqb val "webp" then int 80 else q in
    let q := if String.eqb val "avif" then int 25 else q in
    set_image val false q m.

Record quality_info := {
  label : string;
  q_min : Z;
  q_max : Z;
  q_default : Z;
}.

(** [qualityInfo] (its hint and range texts left out). *)
Definition qualityInfo (m : MediaSettings num) : quality_info :=
  let isAnimated := imageAnimated m in
  if String.eqb (imageFormat m) "jpeg" then
    {| label := "q:v"; q_min := 1; q_max := 31; q_default := 5 |}
  else if String.eqb (imageFormat m) "avif" then
    {| label := "CRF"; q_min := 0; q_max := 63; q_default := if isAnimated then 35 else 25 |}
  else
    {| label := "Quality"; q_min := 0; q_max := 100;
       q_default := if isAnimated then 75 else 80 |}.

(** [Math.max(lo, Math.min(hi, val))] for integers [lo], [hi] and a [val]
    that is not NaN. *)
Definition clamp (lo hi : Z) (val : number) : Z :=
  match val with
  | Fin z => Z.max lo (Z.min hi z)
  | PosInf => Z.max lo hi
  | NegInf => lo
  | NaN => lo
  end.

Definition isNaN (val : number) : bool :=
  match val with NaN => true | _ => false end.

(** [updateImageQuality]; [val] is what [parseInt] made of the input. *)
Definition updateImageQuality (val : number) (m : MediaSettings num) : MediaSettings num :=
  if negb (isNaN val) then
    let info := qualityInfo m in
    set_image (imageFormat m) (imageAnimated m) (int (clamp (q_min info) (q_max info) val)) m
  else m.

(** [updateAudioQuality]; writing the clamped value back into the input
    element is left out. *)
Definition updateAudioQuality (val : number) (m : MediaSettings num) : MediaSettings num :=
  if negb (isNaN val) then set_audioQuality (int (clamp 8 512 val)) m else m.

End Numbers.

(** The formats the selector offers. *)
Definition offered_formats : list string :=
  ["jpeg"; "webp"; "avif"; "webp_animated"; "avif_animated"].

End MediaConfiguration.

(** * Supervisor: theorems *)

Section SupervisorProofs.
Import Supervisor.

#[local] Arguments exit_prologue : simpl never.

Lemma classify_port_in_use text :
  classify text = PortInUse ->
  str_find "MPV_IPC_PID_MISMATCH" text = false /\
  (str_find "Failed to connect to mpv socket" text
   || str_find "Failed to connect to mpv pipe" text) = false /\
  is_port_error text = true.
Proof.
  unfold classify.
  destruct (str_find "MPV_IPC_PID_MISMATCH" text); [discriminate|].
  destruct (str_find "Failed to connect to mpv socket" text
            || str_find "Failed to connect to mpv pipe" text); [discriminate|].
  destruct (is_port_error text); [done|discriminate].
Qed.

Lemma try_start_probing cfg i p s :
  (forall h, command_accepted cfg h = true) ->
  ports cfg !! i = Some p ->
  idle_at cfg i s ->
  probing cfg i false (try_start_on_port cfg (S i) s).
Proof.
  intros Hacc Hp [].
  destruct s; cbn in *; subst.
  unfold try_start_on_port.
  apply lookup_lt_Some in Hp as Hlt.
  destruct (decide _) as [Hbad|_]; [cbn in Hbad; lia|].
  cbn [port_at]. rewrite Hp.
  unfold command_native_async, add_timeout. cbn. rewrite Hacc.
  exists p.
  destruct (get_mpv_pid cfg) eqn:Hpid; cbn; do 2 eexists; (split; [done|]);
  rewrite (take_S_r _ _ _ Hp), map_app; cbn; rewrite ?Hpid; reflexivity.
Qed.

Lemma exit_callback_port_in_use cfg idx success result error s :
  classify (stderr_text result) = PortInUse ->
  exit_callback cfg idx success result error s =
  try_start_on_port cfg (S idx)
    (msg (LogPortInUse (default 0 (port_at cfg idx)))
       (echo_output result
          (match startup_timer s with
           | Some t => set_startup_timer None
                         (kill_timer t (set_server_process None (set_server_running false s)))
           | None => set_server_process None (set_server_running false s)
           end))).
Proof.
  intros (Hm & Hc & Hp)%classify_port_in_use.
  unfold exit_callback. cbn [startup_timer set_server_process set_server_running].
  rewrite Hm, Hc, Hp. reflexivity.
Qed.

Lemma probing_exit_idle cfg i r c s :
  probing cfg i r s ->
  idle_at cfg (S i)
    (msg (LogPortInUse (default 0 (port_at cfg (S i))))
       (echo_output (c_result c)
          (let s := set_commands (filter (fun c => handle c <> i) (commands s)) s in
           match startup_timer s with
           | Some t => set_startup_timer None
                         (kill_timer t (set_server_process None (set_server_running false s)))
           | None => set_server_process None (set_server_running false s)
           end))).
Proof.
  intros (p & lg & o & Hp & ->).
  destruct r; constructor; cbn; try done; repeat case_decide; cbn; done.
Qed.

Lemma probing_find_command cfg i r s :
  probing cfg i r s ->
  find_command i s = Some {| handle := i; cb_port_index := S i; aborted := false |}.
Proof.
  intros (p & lg & o & Hp & ->). unfold find_command. cbn.
  by rewrite bool_decide_eq_true_2.
Qed.

Lemma probing_timer_fire cfg i s :
  probing cfg i false s ->
  let s' := step cfg s (TimerFire i) in
  probing cfg i true s' /\
  exists p, ports cfg !! i = Some p /\ last (osd s') = Some (OsdStarted p).
Proof.
  intros (p & lg & o & Hp & ->).
  unfold step, find_timer. cbn [timers List.find fst].
  rewrite bool_decide_eq_true_2 by done.
  unfold timer_callback, kill_timer. cbn.
  case_decide; [done|]. cbn. split.
  - exists p. by do 2 eexists.
  - exists p. by rewrite last_snoc.
Qed.

Lemma probing_conflict cfg i c s :
  (forall h, command_accepted cfg h = true) ->
  classify (stderr_text (c_result c)) = PortInUse ->
  probing cfg i false s ->
  (S i < List.length (ports cfg))%nat ->
  probing cfg (S i) false (run cfg (conflict_events i c) s).
Proof.
  intros Hacc Hc Hpr Hlt.
  destruct (lookup_lt_is_Some_2 (ports cfg) (S i) Hlt) as [q Hq].
  assert (Hstep : forall r s, probing cfg i r s ->
    probing cfg (S i) false (step cfg s (Exit i (c_success c) (c_result c) (c_error c)))).
  { intros r s' Hs'. unfold step. rewrite (probing_find_command _ _ _ _ Hs').
    cbn [cb_port_index].
    rewrite exit_callback_port_in_use by done.
    eapply try_start_probing; [done|exact Hq|].
    by eapply probing_exit_idle. }
  unfold conflict_events, run. destruct (late c); cbn [app fold_left].
  - eapply Hstep. by apply probing_timer_fire.
  - by eapply Hstep.
Qed.

Lemma probing_exhausted cfg i c s :
  classify (stderr_text (c_result c)) = PortInUse ->
  probing cfg i false s ->
  S i = List.length (ports cfg) ->
  let s' := run cfg (conflict_events i c) s in
  idle_at cfg (S i) s' /\ last (osd s') = Some OsdFailedAnyPort.
Proof.
  intros Hc Hpr Hlen.
  assert (Hstep : forall r s, probing cfg i r s ->
    let s' := step cfg s (Exit i (c_success c) (c_result c) (c_error c)) in
    idle_at cfg (S i) s' /\ last (osd s') = Some OsdFailedAnyPort).
  { intros r s' Hs'. unfold step. rewrite (probing_find_command _ _ _ _ Hs').
    cbn [cb_port_index].
    rewrite exit_callback_port_in_use by done.
    unfold try_start_on_port. rewrite decide_True by lia.
    pose proof (probing_exit_idle cfg i r c s' Hs') as [].
    split; [by constructor|]. cbn. by rewrite last_snoc. }
  unfold conflict_events, run. destruct (late c); cbn [app fold_left].
  - eapply Hstep. by apply probing_timer_fire.
  - by eapply Hstep.
Qed.

Lemma run_app cfg evs1 evs2 s :
  run cfg (evs1 ++ evs2) s = run cfg evs2 (run cfg evs1 s).
Proof. apply fold_left_app. Qed.

Lemma probing_conflicts cfg cs : forall i s,
  (forall h, command_accepted cfg h = true) ->
  Forall port_conflict cs ->
  probing cfg i false s ->
  (i + List.length cs < List.length (ports cfg))%nat ->
  probing cfg (i + List.length cs) false (run cfg (probe_events i cs) s).
Proof.
  induction cs as [|c cs IH]; intros i s Hacc Hcs Hpr Hlt; cbn [probe_events List.length] in *.
  - by rewrite Nat.add_0_r.
  - inversion Hcs as [|? ? Hc Hcs']; subst.
    rewrite run_app. replace (i + S (List.length cs))%nat with (S i + List.length cs)%nat by lia.
    apply IH; [done|done| |lia].
    apply probing_conflict; [done|done|done|lia].
Qed.

Lemma init_idle cfg : idle_at cfg 0 (say OsdStarting (msg LogStartingServer init)).
Proof. by constructor. Qed.

Lemma auto_start_probing cfg p :
  (forall h, command_accepted cfg h = true) ->
  ports cfg !! 0%nat = Some p ->
  probing cfg 0 false (step cfg init AutoStart).
Proof.
  intros Hacc Hp. cbn. eapply try_start_probing; [done|exact Hp|by constructor].
Qed.


Lemma probe_events_snoc cs : forall i c,
  probe_events i (cs ++ [c]) = probe_events i cs ++ conflict_events (i + List.length cs) c.
Proof.
  induction cs as [|c' cs IH]; intros i c; cbn [probe_events app List.length].
  - by rewrite Nat.add_0_r, app_nil_r.
  - rewrite IH, <- app_assoc. do 3 f_equal. lia.
Qed.











Lemma exit_prologue_frame result s :
  let s0 := exit_prologue result s in
  server_process s0 = None /\ server_running s0 = false /\
  current_port s0 = current_port s /\ commands s0 = commands s /\
  next_command s0 = next_command s /\ spawned s0 = spawned s /\ osd s0 = osd s.
Proof. unfold exit_prologue. cbn. by destruct (startup_timer s). Qed.

Lemma try_start_spawns cfg i q s :
  ports cfg !! i = Some q ->
  command_accepted cfg (next_command s) = true ->
  let s' := try_start_on_port cfg (S i) s in
  spawned s' = spawned s ++ [{| arg_port := q; arg_expected_pid := get_mpv_pid cfg |}] /\
  server_process s' = Some (next_command s) /\
  current_port s' = Some q.
Proof.
  intros Hq Hacc. unfold try_start_on_port.
  apply lookup_lt_Some in Hq as Hlt.
  rewrite decide_False by lia. cbn [port_at]. rewrite Hq.
  destruct s. unfold command_native_async. cbn in *.
  destruct (get_mpv_pid cfg); cbn; rewrite Hacc; done.
Qed.

Lemma try_start_exhausted cfg i s :
  ports cfg !! i = None ->
  try_start_on_port cfg (S i) s = say OsdFailedAnyPort (msg LogFailedAnyPort s).
Proof.
  intros Hq%lookup_ge_None. unfold try_start_on_port. by rewrite decide_True by lia.
Qed.

(** C1: when the first [k] spawns of the probe each end in a port conflict
    and spawn [k+1] is still up when its confirmation timer elapses, the
    helper was launched on exactly the first [k+1] candidate ports, in list
    order, and the supervisor is Confirmed on port [k+1]; when all
    candidates end in a port conflict, every port was tried once, the
    "failed on any port" notice is shown and no process handle, pending
    callback or armed timer is left. *)
Theorem port_probe_outcome cfg (cs : list conflict) :
  (forall h, command_accepted cfg h = true) ->
  Forall port_conflict cs ->
  let k := List.length cs in
  ((k < List.length (ports cfg))%nat ->
   let s := run cfg (AutoStart :: probe_events 0 cs ++ [TimerFire k]) init in
   attempted s = take (S k) (ports cfg) /\
   server_running s = true /\
   server_process s = Some k /\
   current_port s = ports cfg !! k /\
   exists p, ports cfg !! k = Some p /\ last (osd s) = Some (OsdStarted p)) /\
  (k = List.length (ports cfg) ->
   let s := run cfg (AutoStart :: probe_events 0 cs) init in
   attempted s = ports cfg /\
   server_process s = None /\
   server_running s = false /\
   commands s = [] /\
   timers s = [] /\
   last (osd s) = Some OsdFailedAnyPort).
Proof.
  intros Hacc Hcs k. split.
  - intros Hk s.
    assert (exists p0, ports cfg !! 0%nat = Some p0) as [p0 Hp0].
    { apply lookup_lt_is_Some_2. lia. }
    assert (Hpr : probing cfg k false (run cfg (AutoStart :: probe_events 0 cs) init)).
    { change (run cfg (AutoStart :: probe_events 0 cs) init)
        with (run cfg (probe_events 0 cs) (step cfg init AutoStart)).
      apply (probing_conflicts cfg cs 0); [done|done| |done].
      by eapply auto_start_probing. }
    apply probing_timer_fire in Hpr as [Hpr Hosd].
    change (step cfg (run cfg (AutoStart :: probe_events 0 cs) init) (TimerFire k))
      with (run cfg [TimerFire k] (run cfg (AutoStart :: probe_events 0 cs) init)) in Hpr, Hosd.
    rewrite <- run_app, <- app_comm_cons in Hpr, Hosd. fold s in Hpr, Hosd.
    destruct Hpr as (p & lg & o & Hp & Hs). split_and!; [| | | |done].
    all: rewrite Hs; unfold attempted; cbn; try done.
    by rewrite map_map, map_id.
  - intros Hk s.
    destruct cs as [|c cs _] using rev_ind.
    { symmetry in Hk. apply nil_length_inv in Hk. subst s. cbn.
      unfold try_start_on_port, attempted. rewrite Hk. cbn. done. }
    subst k. rewrite length_app in Hk. cbn in Hk.
    apply Forall_app in Hcs as [Hcs Hc%Forall_inv].
    assert (exists p0, ports cfg !! 0%nat = Some p0) as [p0 Hp0].
    { apply lookup_lt_is_Some_2. lia. }
    assert (Hpr : probing cfg (List.length cs) false
                    (run cfg (AutoStart :: probe_events 0 cs) init)).
    { change (run cfg (AutoStart :: probe_events 0 cs) init)
        with (run cfg (probe_events 0 cs) (step cfg init AutoStart)).
      apply (probing_conflicts cfg cs 0); [done|done| |lia].
      by eapply auto_start_probing. }
    eapply probing_exhausted in Hpr as [Hidle Hosd]; [|exact Hc|lia].
    rewrite <- run_app, <- app_comm_cons in Hidle, Hosd.
    change (List.length cs) with (0 + List.length cs)%nat in Hidle, Hosd.
    rewrite <- probe_events_snoc in Hidle, Hosd. fold s in Hidle, Hosd.
    destruct Hidle as [? ? ? ? ? ? ? Hsp]. split_and!; try done. unfold attempted.
    rewrite Hsp, map_map. cbn. rewrite map_id.
    apply take_ge. lia.
Qed.

Lemma exit_callback_by_marker cfg idx success result error s :
  let text := stderr_text result in
  let s' := exit_callback cfg idx success result error s in
  (str_find "MPV_IPC_PID_MISMATCH" text = true ->
     classify text = IdentityMismatch /\ no_retry s s' /\
     osd s' = osd s ++ [OsdPidMismatch]) /\
  (str_find "MPV_IPC_PID_MISMATCH" text = false -> connect_failure text = true ->
     classify text = Unreachable /\ no_retry s s' /\
     osd s' = osd s ++ [OsdCannotConnect]) /\
  (str_find "MPV_IPC_PID_MISMATCH" text = false -> connect_failure text = false ->
   is_port_error text = true ->
     classify text = PortInUse /\
     (forall q, port_at cfg (S idx) = Some q ->
        command_accepted cfg (next_command s) = true ->
        spawned s' = spawned s ++ [{| arg_port := q; arg_expected_pid := get_mpv_pid cfg |}] /\
        server_process s' = Some (next_command s) /\
        current_port s' = Some q) /\
     (port_at cfg (S idx) = None ->
        spawned s' = spawned s /\ server_process s' = None /\
        osd s' = osd s ++ [OsdFailedAnyPort])) /\
  (str_find "MPV_IPC_PID_MISMATCH" text = false -> connect_failure text = false ->
   is_port_error text = false ->
     classify text = UnexpectedExit /\ no_retry s s' /\
     osd s' = osd s ++ (if server_running s
                        then [if success then OsdStopped else OsdStoppedError]
                        else [])).
Proof.
  intros text s'.
  assert (Hs' : s' =
    let s0 := exit_prologue result s in
    if str_find "MPV_IPC_PID_MISMATCH" text then
      set_current_port None (say OsdPidMismatch (msg LogPidMismatch s0))
    else if connect_failure text then
      set_current_port None (say OsdCannotConnect (msg LogCannotConnect s0))
    else if is_port_error text then
      try_start_on_port cfg (S idx) (msg (LogPortInUse (default 0 (port_at cfg idx))) s0)
    else
      set_current_port None
        (if server_running s then
           if negb success then
             say OsdStoppedError (msg (LogExitError (default "unknown error" error)) s0)
           else say OsdStopped (msg (LogExitStatus (result ≫= status)) s0)
         else s0)) by reflexivity.
  clearbody s'. cbv zeta in Hs'.
  destruct (exit_prologue_frame result s) as (Hp & Hr & Hc & Hcm & Hn & Hsp & Ho).
  cbv zeta in *. unfold classify. fold (connect_failure text).
  split_and!.
  - intros Hm. rewrite Hm in *. subst s'. unfold no_retry. cbn.
    rewrite Hsp, Hcm, Hn, Hp, Ho. done.
  - intros Hm Hcf. rewrite Hm, Hcf in *. subst s'. unfold no_retry. cbn.
    rewrite Hsp, Hcm, Hn, Hp, Ho. done.
  - intros Hm Hcf Hpe. rewrite Hm, Hcf, Hpe in *. subst s'. split; [done|]. split.
    + intros q Hq Hacc. rewrite <- Hn in Hacc.
      destruct (try_start_spawns cfg idx q
                  (msg (LogPortInUse (default 0 (port_at cfg idx))) (exit_prologue result s))
                  Hq Hacc) as (H1 & H2 & H3).
      cbn in H1, H2. by rewrite H1, H2, H3, Hsp, Hn.
    + intros Hq. rewrite try_start_exhausted by done. cbn.
      by rewrite Hsp, Hp, Ho.
  - intros Hm Hcf Hpe. rewrite Hm, Hcf, Hpe in *. subst s'. unfold no_retry.
    destruct (server_running s), success; cbn; rewrite Hsp, Hcm, Hn, Hp, Ho, ?app_nil_r; done.
Qed.

(** C2 (amended): the exit callback classifies by substring tests on
    stderr, in this order of precedence: the identity-mismatch marker
    (terminal, its own notice), then a connect-failure marker (terminal),
    then a port-in-use marker (retry on the next candidate, or exhaustion
    when there is none); an exit with none of them is unexpected and is
    reported only when the confirmed flag was set. *)
Theorem exit_classification cfg idx success result error s :
  let text := stderr_text result in
  let s' := exit_callback cfg idx success result error s in
  (str_find "MPV_IPC_PID_MISMATCH" text = true ->
     classify text = IdentityMismatch /\ no_retry s s' /\
     osd s' = osd s ++ [OsdPidMismatch]) /\
  (str_find "MPV_IPC_PID_MISMATCH" text = false -> connect_failure text = true ->
     classify text = Unreachable /\ no_retry s s' /\
     osd s' = osd s ++ [OsdCannotConnect]) /\
  (str_find "MPV_IPC_PID_MISMATCH" text = false -> connect_failure text = false ->
   is_port_error text = true ->
     classify text = PortInUse /\
     (forall q, port_at cfg (S idx) = Some q ->
        command_accepted cfg (next_command s) = true ->
        spawned s' = spawned s ++ [{| arg_port := q; arg_expected_pid := get_mpv_pid cfg |}] /\
        server_process s' = Some (next_command s) /\
        current_port s' = Some q) /\
     (port_at cfg (S idx) = None ->
        spawned s' = spawned s /\ server_process s' = None /\
        osd s' = osd s ++ [OsdFailedAnyPort])) /\
  (str_find "MPV_IPC_PID_MISMATCH" text = false -> connect_failure text = false ->
   is_port_error text = false ->
     classify text = UnexpectedExit /\ no_retry s s' /\
     osd s' = osd s ++ (if server_running s
                        then [if success then OsdStopped else OsdStoppedError]
                        else [])).
Proof. apply exit_callback_by_marker. Qed.






(** *** Examples *)

Lemma port_probe_outcome_witness :
  let s := run example_config
             (AutoStart :: probe_events 0 example_conflicts ++ [TimerFire 2%nat]) init in
  attempted s = [61777; 61778; 61779] /\
  server_running s = true /\
  server_process s = Some 2%nat /\
  current_port s = Some 61779.
Proof.
  destruct (port_probe_outcome example_config example_conflicts) as [H _].
  - intros h. reflexivity.
  - repeat constructor.
  - destruct H as (H1 & H2 & H3 & H4 & _); [cbn; lia|].
    repeat split; assumption.
Defined.

Lemma exit_classification_witness :
  let text := "Error: Address already in use (os error 98)" in
  let s := run example_config [AutoStart] init in
  let s' := exit_callback example_config 1 true (exit_with_stderr text) None s in
  classify text = PortInUse /\
  spawned s' = spawned s ++ [{| arg_port := 61778; arg_expected_pid := Some 4242 |}].
Proof.
  intros text s.
  destruct (exit_classification example_config 1 true (exit_with_stderr text) None s)
    as (_ & _ & H & _).
  destruct H as (Hc & Hretry & _); [reflexivity..|].
  split; [exact Hc|].
  destruct (Hretry 61778) as (Hs & _); [reflexivity..|]. exact Hs.
Defined.

(** C2, as stated, fails: a port-in-use marker together with the
    identity-mismatch marker (or a connect-failure marker) gives no retry. *)
Lemma port_in_use_marker_overridden :
  let text1 := "Error: Address already in use (os error 98); MPV_IPC_PID_MISMATCH" in
  let text2 := "Failed to connect to mpv socket: os error 98" in
  let s := run example_config [AutoStart] init in
  let s1 := step example_config s (Exit 0 false (exit_with_stderr text1) None) in
  let s2 := step example_config s (Exit 0 false (exit_with_stderr text2) None) in
  (is_port_error text1 = true /\ classify text1 = IdentityMismatch /\
   spawned s1 = spawned s /\ server_process s1 = None /\
   osd s1 = osd s ++ [OsdPidMismatch]) /\
  (is_port_error text2 = true /\ classify text2 = Unreachable /\
   spawned s2 = spawned s /\ server_process s2 = None /\
   osd s2 = osd s ++ [OsdCannotConnect]).
Proof. vm_compute. repeat split; reflexivity. Qed.





(** ** Further properties of the supervisor *)


Lemma try_start_consistent cfg i s :
  server_running s = false -> server_process s = None ->
  consistent cfg (try_start_on_port cfg i s).
Proof.
  intros Hr Hp. unfold try_start_on_port.
  case_decide.
  { split; cbn; rewrite ?Hr, ?Hp; try done; by intros [? ?]. }
  destruct (port_at cfg i) as [port|] eqn:Hport.
  2:{ split; rewrite ?Hr, ?Hp; try done; by intros [? ?]. }
  assert (Hin : port ∈ ports cfg).
  { destruct i as [|i]; [done|]. cbn in Hport. by eapply list_elem_of_lookup_2. }
  unfold command_native_async, add_timeout.
  destruct (command_accepted cfg _) eqn:Hacc; cbn;
    destruct (get_mpv_pid cfg); cbn; split; cbn; try done;
    try (by intros [? ?]);
    try (intros h [= <-]; rewrite fmap_app, elem_of_app; right; cbn; left);
    try (intros _; by exists port);
    try (intros; congruence).
Qed.

Lemma exit_prologue_idle result s :
  server_running (exit_prologue result s) = false /\
  server_process (exit_prologue result s) = None.
Proof.
  unfold exit_prologue. cbn. by destruct (startup_timer s).
Qed.

Lemma exit_callback_unfold cfg idx success result error s :
  exit_callback cfg idx success result error s =
  let s0 := exit_prologue result s in
  let text := stderr_text result in
  if str_find "MPV_IPC_PID_MISMATCH" text then
    set_current_port None (say OsdPidMismatch (msg LogPidMismatch s0))
  else if str_find "Failed to connect to mpv socket" text
          || str_find "Failed to connect to mpv pipe" text then
    set_current_port None (say OsdCannotConnect (msg LogCannotConnect s0))
  else if is_port_error text then
    try_start_on_port cfg (S idx) (msg (LogPortInUse (default 0 (port_at cfg idx))) s0)
  else
    set_current_port None
      (if server_running s then
         if negb success then
           say OsdStoppedError (msg (LogExitError (default "unknown error" error)) s0)
         else say OsdStopped (msg (LogExitStatus (result ≫= status)) s0)
       else s0).
Proof.
  unfold exit_callback, exit_prologue. cbn.
  by destruct (startup_timer s).
Qed.

Lemma exit_callback_consistent cfg idx success result error s :
  consistent cfg (exit_callback cfg idx success result error s).
Proof.
  rewrite exit_callback_unfold. cbv zeta.
  destruct (exit_prologue_idle result s) as [Hr Hp].
  repeat match goal with |- context [if ?b then _ else _] => destruct b end;
    try (apply try_start_consistent; cbn; done);
    split; cbn; rewrite ?Hr, ?Hp; first [done | by intros [? ?] | intros; congruence].
Qed.

Lemma abort_handles h s : handle <$> commands (abort_async_command h s) = handle <$> commands s.
Proof.
  unfold abort_async_command. cbn. rewrite <- list_fmap_compose.
  apply list_fmap_ext. intros _ c _. cbn. by case_decide.
Qed.

Lemma consistent_ext cfg s s' :
  server_running s' = server_running s -> server_process s' = server_process s ->
  current_port s' = current_port s ->
  handle <$> commands s' = handle <$> commands s ->
  consistent cfg s -> consistent cfg s'.
Proof.
  intros E1 E2 E3 E4 [H1 H2 H3]. split; rewrite ?E1, ?E2, ?E3, ?E4; done.
Qed.

Lemma stopped_consistent cfg s' :
  server_running s' = false -> server_process s' = None -> consistent cfg s'.
Proof.
  intros E1 E2. split; rewrite ?E1, ?E2; try done; by intros [? ?].
Qed.

Lemma step_consistent cfg s e : consistent cfg s -> consistent cfg (step cfg s e).
Proof.
  intros Hs. destruct e as [| |h success result error|t|]; cbn.
  - unfold start_server.
    destruct (server_running s || bool_decide (is_Some (server_process s))) eqn:Hb.
    + by eapply consistent_ext; [..|exact Hs].
    + apply orb_false_iff in Hb as [Hr Hp]. apply bool_decide_eq_false in Hp.
      apply try_start_consistent; cbn; [done|].
      destruct (server_process s); [|done]. by destruct Hp.
  - unfold toggle_server, start_server, stop_server.
    destruct (server_running s || bool_decide (is_Some (server_process s))) eqn:Hb.
    + destruct (server_process s) as [proc|] eqn:Hproc.
      * by apply stopped_consistent.
      * by eapply consistent_ext; [..|exact Hs].
    + apply orb_false_iff in Hb as [Hr Hp]. apply bool_decide_eq_false in Hp.
      apply try_start_consistent; cbn; [done|].
      destruct (server_process s); [|done]. by destruct Hp.
  - destruct (find_command h s); [|done]. apply exit_callback_consistent.
  - destruct (find_timer t s) as [port|]; [|done].
    unfold timer_callback. cbn.
    destruct (server_process s) as [proc|] eqn:Hproc.
    + destruct Hs as [H1 H2 H3]. split; cbn; rewrite ?Hproc; try done.
      all: rewrite Hproc in *; done.
    + by eapply consistent_ext; [..|exact Hs].
  - unfold shutdown.
    assert (Hk : forall s0, consistent cfg s0 ->
              consistent cfg (if server_running s0
                              then match server_process s0 with
                                   | Some proc => abort_async_command proc (msg LogShutdown s0)
                                   | None => s0
                                   end
                              else s0)).
    { intros s0 Hs0. destruct (server_running s0); [|done].
      destruct (server_process s0) as [proc|]; [|done].
      eapply consistent_ext; [..|exact Hs0]; try done. by rewrite abort_handles. }
    apply Hk. destruct (startup_timer s); [|done].
    by eapply consistent_ext; [..|exact Hs].
Qed.

Lemma init_consistent cfg : consistent cfg init.
Proof. split; cbn; try done; by intros [? ?]. Qed.

Lemma run_consistent cfg evs : forall s, consistent cfg s -> consistent cfg (run cfg evs s).
Proof.
  induction evs as [|e evs IH]; intros s H; [done|]. cbn. by apply IH, step_consistent.
Qed.

(** X1: in every state the script can reach, a supervisor marked as
    confirmed holds a process handle, a held handle belongs to a command
    whose callback is still pending, and the port recorded with it is one
    of the configured candidates. *)
Theorem supervisor_locals_consistent (cfg : config) (evs : list event) :
  let s := run cfg evs init in
  (server_running s = true -> is_Some (server_process s)) /\
  (forall h, server_process s = Some h -> exists c, c ∈ commands s /\ handle c = h) /\
  (is_Some (server_process s) -> exists p, current_port s = Some p /\ p ∈ ports cfg).
Proof.
  intros s. destruct (run_consistent cfg evs init (init_consistent cfg)) as [H1 H2 H3].
  split_and!; [done| |done].
  intros h Hh. specialize (H2 h Hh). apply list_elem_of_fmap in H2 as (c & -> & Hc).
  by exists c.
Qed.

Lemma try_start_osd cfg i s :
  exists l, osd (try_start_on_port cfg i s) = osd s ++ l /\
            forall m, m ∈ l -> m = OsdFailedAnyPort \/ m = OsdFailedStart.
Proof.
  unfold try_start_on_port. case_decide.
  { eexists [_]. split; [done|]. intros m ->%list_elem_of_singleton. by left. }
  destruct (port_at cfg i) as [port|].
  2:{ exists []. split; [by rewrite app_nil_r|]. by intros m ?%elem_of_nil. }
  unfold command_native_async, add_timeout.
  destruct (command_accepted cfg _); destruct (get_mpv_pid cfg); cbn.
  1,2: exists []; split; [by rewrite app_nil_r|]; by intros m ?%elem_of_nil.
  all: eexists [_]; split; [done|]; intros m ->%list_elem_of_singleton; by right.
Qed.

Lemma exit_prologue_osd result s : osd (exit_prologue result s) = osd s.
Proof. unfold exit_prologue. cbn. by destruct (startup_timer s). Qed.

Lemma exit_callback_osd cfg idx success result error s :
  exists l, osd (exit_callback cfg idx success result error s) = osd s ++ l /\
            forall m, m ∈ l -> forall p, m <> OsdAlreadyRunning p.
Proof.
  rewrite exit_callback_unfold. cbv zeta.
  pose proof (exit_prologue_osd result s) as E.
  repeat match goal with |- context [if ?b then _ else _] => destruct b end; cbn;
    rewrite ?E;
    try (eexists [_]; split; [done|]; by intros m ->%list_elem_of_singleton);
    try (exists []; split; [by rewrite app_nil_r|]; by intros m ?%elem_of_nil).
  destruct (try_start_osd cfg (S idx)
              (msg (LogPortInUse (default 0 (port_at cfg idx))) (exit_prologue result s)))
    as (l & -> & Hl).
  exists l. cbn. rewrite E. split; [done|].
  intros m Hm p. by destruct (Hl m Hm) as [-> | ->].
Qed.

Lemma step_osd cfg s e :
  consistent cfg s ->
  exists l, osd (step cfg s e) = osd s ++ l /\ OsdAlreadyRunning None ∉ l.
Proof.
  intros [H1 H2 H3].
  assert (Hnil : exists l : list osd_message, osd s = osd s ++ l /\ OsdAlreadyRunning None ∉ l).
  { exists []. split; [by rewrite app_nil_r|]. by intros ?%elem_of_nil. }
  assert (Hstart : exists l, osd (start_server cfg s) = osd s ++ l /\
                             OsdAlreadyRunning None ∉ l).
  { unfold start_server.
    destruct (server_running s || bool_decide (is_Some (server_process s))) eqn:Hb.
    - eexists [_]. split; [done|]. intros E%list_elem_of_singleton.
      injection E as E.
      assert (Hp : is_Some (server_process s)).
      { apply orb_true_iff in Hb as [Hb|Hb]; [by apply H1|by apply bool_decide_eq_true in Hb]. }
      destruct (H3 Hp) as (p & Hp' & _). congruence.
    - destruct (try_start_osd cfg 1 (say OsdStarting (msg LogStartingServer s)))
        as (l & -> & Hl).
      exists (OsdStarting :: l). cbn. rewrite <- app_assoc. split; [done|].
      intros [E|Hm]%elem_of_cons; [done|]. by destruct (Hl _ Hm). }
  destruct e as [| |h success result error|t|]; cbn.
  - exact Hstart.
  - unfold toggle_server.
    destruct (server_running s || bool_decide (is_Some (server_process s))); [|exact Hstart].
    unfold stop_server. destruct (server_process s); cbn.
    all: eexists [_]; split; [done|]; by intros E%list_elem_of_singleton.
  - destruct (find_command h s) as [c|]; [|exact Hnil].
    destruct (exit_callback_osd cfg (cb_port_index c) success result error
                (set_commands (filter (fun c0 => handle c0 ≠ h) (commands s)) s))
      as (l & -> & Hl).
    exists l. split; [done|]. intros Hm. by apply (Hl _ Hm None).
  - destruct (find_timer t s) as [port|]; [|exact Hnil].
    unfold timer_callback. cbn. destruct (server_process s); cbn; [|exact Hnil].
    eexists [_]; split; [done|]; by intros E%list_elem_of_singleton.
  - unfold shutdown.
    destruct (startup_timer s); cbn;
      destruct (server_running s); cbn; try exact Hnil;
      destruct (server_process s); cbn; exact Hnil.
Qed.

Lemma run_osd cfg evs : forall s,
  consistent cfg s -> OsdAlreadyRunning None ∉ osd s ->
  OsdAlreadyRunning None ∉ osd (run cfg evs s).
Proof.
  induction evs as [|e evs IH]; intros s Hs Hn; [done|]. cbn.
  apply IH; [by apply step_consistent|].
  destruct (step_osd cfg s e Hs) as (l & -> & Hl).
  by intros [?|?]%elem_of_app.
Qed.

(** X2: the notice "Server already running on port ..." always names a
    port: whenever a start request finds the supervisor active, a port is
    on record, so the "unknown" fallback of the script is never shown. *)
Theorem already_running_names_port (cfg : config) (evs : list event) :
  OsdAlreadyRunning None ∉ osd (run cfg evs init).
Proof.
  apply run_osd; [apply init_consistent|]. by intros ?%elem_of_nil.
Qed.

Lemma try_start_spawned cfg i s :
  exists l, spawned (try_start_on_port cfg i s) = spawned s ++ l /\ Forall (launch_ok cfg) l.
Proof.
  unfold try_start_on_port. case_decide.
  { exists []. split; [by rewrite app_nil_r|done]. }
  destruct (port_at cfg i) as [port|] eqn:Hport.
  2:{ exists []. split; [by rewrite app_nil_r|done]. }
  assert (Hin : port ∈ ports cfg).
  { destruct i as [|i]; [done|]. cbn in Hport. by eapply list_elem_of_lookup_2. }
  assert (Hpid : forall q, get_mpv_pid cfg = Some q -> 0 < q).
  { unfold get_mpv_pid. intros q.
    destruct (match prop_pid cfg with Some p => Some p | None => prop_process_id cfg end)
      as [p|]; [|done].
    destruct (0 <? p) eqn:Hp; [|done]. intros [= <-]. by apply Z.ltb_lt. }
  unfold command_native_async, add_timeout.
  destruct (command_accepted cfg _); destruct (get_mpv_pid cfg) eqn:Hg; cbn.
  3,4: exists []; split; [by rewrite app_nil_r|done].
  all: eexists [_]; split; [done|]; apply Forall_singleton; split_and!; cbn; done.
Qed.

Lemma step_spawned cfg s e :
  exists l, spawned (step cfg s e) = spawned s ++ l /\ Forall (launch_ok cfg) l.
Proof.
  assert (Hnil : exists l, spawned s = spawned s ++ l /\ Forall (launch_ok cfg) l).
  { exists []. split; [by rewrite app_nil_r|done]. }
  assert (Hstart : exists l, spawned (start_server cfg s) = spawned s ++ l /\
                             Forall (launch_ok cfg) l).
  { unfold start_server.
    destruct (server_running s || bool_decide (is_Some (server_process s))); [exact Hnil|].
    apply (try_start_spawned cfg 1 (say OsdStarting (msg LogStartingServer s))). }
  destruct e as [| |h success result error|t|]; cbn.
  - exact Hstart.
  - unfold toggle_server.
    destruct (server_running s || bool_decide (is_Some (server_process s))); [|exact Hstart].
    unfold stop_server. destruct (server_process s); exact Hnil.
  - destruct (find_command h s) as [c|]; [|exact Hnil].
    rewrite exit_callback_unfold. cbv zeta.
    assert (E : forall s0, spawned (exit_prologue result s0) = spawned s0).
    { intros s0. unfold exit_prologue. cbn. by destruct (startup_timer s0). }
    repeat match goal with |- context [if ?b then _ else _] => destruct b end; cbn;
      rewrite ?E; try exact Hnil.
    match goal with |- context [try_start_on_port cfg ?i ?s0] =>
      destruct (try_start_spawned cfg i s0) as (l & -> & Hl) end.
    exists l. cbn. by rewrite E.
  - destruct (find_timer t s) as [port|]; [|exact Hnil].
    unfold timer_callback. cbn. destruct (server_process s); exact Hnil.
  - unfold shutdown.
    destruct (startup_timer s); cbn;
      destruct (server_running s); cbn; try exact Hnil;
      destruct (server_process s); cbn; exact Hnil.
Qed.

Lemma run_spawned cfg evs : forall s,
  Forall (launch_ok cfg) (spawned s) -> Forall (launch_ok cfg) (spawned (run cfg evs s)).
Proof.
  induction evs as [|e evs IH]; intros s Hs; [done|]. cbn. apply IH.
  destruct (step_spawned cfg s e) as (l & -> & Hl). by apply Forall_app.
Qed.

(** X3: whatever the host does, the helper is only ever launched on one
    of the configured ports, and with the pid argument the script derives
    from mpv's [pid] property (a positive number, or none). *)
Theorem launches_on_configured_ports (cfg : config) (evs : list event) :
  Forall (launch_ok cfg) (spawned (run cfg evs init)).
Proof. by apply run_spawned. Qed.

Lemma find_command_handle h s c : find_command h s = Some c -> c ∈ commands s /\ handle c = h.
Proof.
  unfold find_command. intros H. apply find_some in H as [H1 H2].
  split; [by apply list_elem_of_In|]. by apply bool_decide_eq_true in H2.
Qed.

(** X4: the exit callback does not ask which helper exited.  When the
    callback of an earlier helper runs while a later one is supervised (the
    helper was stopped and started again before the first callback ran),
    and the exit is not read as a port conflict, the handle of the later
    helper is dropped and its confirmation timer forgotten although its own
    callback is still pending; the next toggle request therefore starts a
    further helper instead of stopping the one that runs. *)
Theorem stale_exit_resets_supervisor (cfg : config) (s : state) (h0 h : nat) (c : command)
    (success : bool) (result : option subprocess_result) (error : option string) :
  find_command h0 s = Some c ->
  server_process s = Some h -> h <> h0 ->
  h ∈ handle <$> commands s ->
  classify (stderr_text result) <> PortInUse ->
  let s' := step cfg s (Exit h0 success result error) in
  server_process s' = None /\ server_running s' = false /\
  startup_timer s' = None /\ current_port s' = None /\
  h ∈ handle <$> commands s' /\
  spawned s' = spawned s /\
  step cfg s' Toggle = try_start_on_port cfg 1 (say OsdStarting (msg LogStartingServer s')).
Proof.
  intros Hc Hh Hne Hpend Hcl s'.
  assert (Hs' : server_process s' = None /\ server_running s' = false /\
                startup_timer s' = None /\ current_port s' = None /\
                commands s' = filter (fun c0 => handle c0 ≠ h0) (commands s) /\
                spawned s' = spawned s).
  { subst s'. cbn. rewrite Hc. unfold classify in Hcl.
    unfold exit_callback. cbn.
    destruct (str_find "MPV_IPC_PID_MISMATCH" (stderr_text result)).
    { destruct (startup_timer s) eqn:Ht; cbn; rewrite ?Ht; done. }
    destruct (str_find "Failed to connect to mpv socket" (stderr_text result)
              || str_find "Failed to connect to mpv pipe" (stderr_text result)).
    { destruct (startup_timer s) eqn:Ht; cbn; rewrite ?Ht; done. }
    destruct (is_port_error (stderr_text result)); [done|].
    destruct (startup_timer s) eqn:Ht, (server_running s), (negb success); cbn;
      rewrite ?Ht; done. }
  destruct Hs' as (H1 & H2 & H3 & H4 & H5 & H6). clearbody s'.
  split_and!; try done.
  - rewrite H5. apply list_elem_of_fmap in Hpend as (c' & -> & Hc').
    apply list_elem_of_fmap. exists c'. split; [done|].
    by apply list_elem_of_filter.
  - change (step cfg s' Toggle) with (toggle_server cfg s').
    unfold toggle_server, start_server. by rewrite H1, H2.
Qed.

(** X5: the shutdown handler aborts the helper only when it is marked as
    confirmed.  A helper whose confirmation timer has not elapsed yet is
    left to run: its command is not aborted, and the handle stays. *)
Theorem shutdown_spares_unconfirmed_helper (s : state) (h : nat) :
  server_process s = Some h ->
  let s' := shutdown s in
  (server_running s = false -> commands s' = commands s /\ log s' = log s) /\
  (server_running s = true ->
   forall c, c ∈ commands s' -> handle c = h -> aborted c = true) /\
  server_process s' = Some h /\ startup_timer s' = None.
Proof.
  intros Hh s'. subst s'. unfold shutdown.
  destruct (startup_timer s) as [t|] eqn:Ht; cbn; rewrite ?Hh;
    destruct (server_running s); cbn; rewrite ?Hh, ?Ht; cbn; split_and!; try done.
  all: intros _ c (c0 & -> & Hc0)%list_elem_of_fmap; by case_decide.
Qed.

Lemma prefix_occurs pat s :
  String.prefix pat s = true <-> exists post, s = (pat ++ post)%string.
Proof.
  revert s. induction pat as [|a pat IH]; intros s.
  - destruct s; cbn; (split; [|done]); intros _; by eexists.
  - destruct s as [|b s]; cbn.
    + split; [done|]. by intros [post ?].
    + destruct (Ascii.ascii_dec a b) as [->|Hab].
      * rewrite IH. split; intros [post E]; exists post.
        -- by rewrite E.
        -- by injection E.
      * split; [done|]. intros [post [= ? ?]]. done.
Qed.

Lemma str_find_occurs pat s : str_find pat s = true <-> occurs_in pat s.
Proof.
  unfold occurs_in. induction s as [|b s IH].
  - change (str_find pat "") with (String.prefix pat "" || false).
    rewrite orb_false_r, prefix_occurs. split.
    + intros [post E]. by exists "", post.
    + intros ([|a pre] & post & E); [by exists post|done].
  - change (str_find pat (String b s))
      with (String.prefix pat (String b s) || str_find pat s).
    rewrite orb_true_iff, IH, prefix_occurs. split.
    + intros [[post E]|(pre & post & ->)].
      * by exists "", post.
      * by exists (String b pre), post.
    + intros ([|a pre] & post & E).
      * left. by exists post.
      * right. cbn in E. injection E as -> ->. by exists pre, post.
Qed.

(** X6: the exit callback reads an exit as a port conflict exactly when
    the captured stderr contains, anywhere, one of the three texts
    "Address already in use", "os error 98" and "os error 10048". *)
Theorem port_error_is_substring_test (text : string) :
  is_port_error text = true <->
  occurs_in "Address already in use" text \/ occurs_in "os error 98" text \/
  occurs_in "os error 10048" text.
Proof.
  unfold is_port_error. rewrite !orb_true_iff, !str_find_occurs. tauto.
Qed.

Lemma string_chars_app a b : string_chars (a ++ b) = string_chars a ++ string_chars b.
Proof.
  induction a as [|c a IH]; [done|].
  change (string_chars (String c a ++ b)) with (c :: string_chars (a ++ b)).
  by rewrite IH.
Qed.

Lemma gmatch_lines_spec s : forall cur,
  Forall (fun c => is_eol c = false) (string_chars cur) ->
  Forall (fun l => l <> "" /\ Forall (fun c => is_eol c = false) (string_chars l))
         (gmatch_lines cur s) /\
  List.concat (string_chars <$> gmatch_lines cur s)
  = string_chars cur ++ List.filter (fun c => negb (is_eol c)) (string_chars s).
Proof.
  induction s as [|c s IH]; intros cur Hcur; cbn.
  - destruct (String.eqb_spec cur "") as [->|Hne]; cbn.
    + done.
    + split; [by repeat constructor|]. by rewrite !app_nil_r.
  - destruct (is_eol c) eqn:Hc; cbn.
    + destruct (String.eqb_spec cur "") as [->|Hne].
      * apply (IH ""). constructor.
      * pose proof (IH "" (Forall_nil_2 _)) as [H1 H2]. cbn in H2. split.
        -- by constructor.
        -- cbn. by rewrite H2.
    + assert (Hc' : Forall (fun c => is_eol c = false) (string_chars (cur ++ String c ""))).
      { rewrite string_chars_app. apply Forall_app. split; [done|]. by repeat constructor. }
      destruct (IH _ Hc') as [H1 H2].
      split; [done|]. rewrite H2, string_chars_app. cbn. by rewrite <- app_assoc.
Qed.

(** X7: the exit callback echoes the captured output line by line: first
    the lines of stdout, then those of stderr; no echoed line is empty or
    contains a line break, and together the echoed lines are the captured
    output with its line breaks removed, nothing lost and nothing added. *)
Theorem echoed_lines_unbroken (r : subprocess_result) :
  let ls := echo_lines (Some r) in
  Forall (fun l => exists t, echoed_text l = Some t /\ t <> "" /\
                             Forall (fun c => is_eol c = false) (string_chars t)) ls /\
  List.concat (string_chars <$> omap echoed_text ls)
  = List.filter (fun c => negb (is_eol c))
      (string_chars (default "" (stdout r)) ++ string_chars (default "" (stderr r))) /\
  exists n, Forall (fun l => exists t, l = LogStdout t) (take n ls) /\
            Forall (fun l => exists t, l = LogStderr t) (drop n ls).
Proof.
  assert (Hlines : forall (k : string -> log_line) (o : option string),
            (forall t, echoed_text (k t) = Some t) ->
            let ls := match o with
                      | Some x => if String.eqb x "" then [] else map k (gmatch_lines "" x)
                      | None => []
                      end in
            Forall (fun l => exists t, l = k t /\ t <> "" /\
                             Forall (fun c => is_eol c = false) (string_chars t)) ls /\
            List.concat (string_chars <$> omap echoed_text ls)
            = List.filter (fun c => negb (is_eol c)) (string_chars (default "" o))).
  { intros k o Hk.
    assert (Ho : forall l, omap echoed_text (map k l) = l).
    { induction l as [|t l IHl]; cbn; [done|]. by rewrite Hk, IHl. }
    destruct o as [x|]; cbn; [|done].
    pose proof (gmatch_lines_spec x "" (Forall_nil_2 _)) as [H1 H2]. cbn in H2.
    destruct (String.eqb_spec x "") as [->|Hne]; [done|]. split.
    - apply Forall_fmap. eapply Forall_impl; [exact H1|]. intros t [? ?]. by exists t.
    - by rewrite <- H2, Ho. }
  intros ls. subst ls. unfold echo_lines.
  pose proof (Hlines LogStdout (stdout r) (fun t => eq_refl)) as [A1 A2].
  pose proof (Hlines LogStderr (stderr r) (fun t => eq_refl)) as [B1 B2].
  set (la := match stdout r with
             | Some o => if String.eqb o "" then [] else map LogStdout (gmatch_lines "" o)
             | None => [] end) in *.
  set (lb := match stderr r with
             | Some e => if String.eqb e "" then [] else map LogStderr (gmatch_lines "" e)
             | None => [] end) in *.
  cbv zeta in A1, A2, B1, B2. split_and!.
  - apply Forall_app. split; (eapply Forall_impl; [eassumption|]);
      intros l (t & -> & ? & ?); by exists t.
  - rewrite omap_app, fmap_app, concat_app, A2, B2. by rewrite List.filter_app.
  - exists (List.length la). rewrite take_app_length, drop_app_length. split.
    + eapply Forall_impl; [exact A1|]. intros l (t & -> & _). by exists t.
    + eapply Forall_impl; [exact B1|]. intros l (t & -> & _). by exists t.
Qed.

Lemma stale_exit_resets_supervisor_witness :
  let s := run example_config restart_history init in
  let s' := step example_config s (Exit 0 false None (Some "killed")) in
  server_process s = Some 1%nat /\
  server_process s' = None /\ startup_timer s' = None /\
  handle <$> commands s' = [1%nat] /\
  attempted (step example_config s' Toggle) = [61777; 61777; 61777].
Proof.
  pose proof (stale_exit_resets_supervisor example_config
                (run example_config restart_history init) 0 1
                {| handle := 0; cb_port_index := 1; aborted := true |}
                false None (Some "killed")) as H.
  cbv zeta in H.
  destruct H as (H1 & H2 & H3 & H4 & H5 & H6 & H7).
  - reflexivity.
  - reflexivity.
  - discriminate.
  - vm_compute. apply list_elem_of_further, list_elem_of_here.
  - discriminate.
  - cbv zeta. split_and!; [reflexivity|exact H1|exact H3|reflexivity|].
    rewrite H7. reflexivity.
Defined.

Lemma shutdown_spares_unconfirmed_helper_witness :
  let s := run example_config [AutoStart] init in
  server_process s = Some 0%nat /\ server_running s = false /\
  commands (shutdown s) = commands s /\
  aborted <$> commands (shutdown s) = [false].
Proof.
  destruct (shutdown_spares_unconfirmed_helper (run example_config [AutoStart] init) 0)
    as (H1 & _ & _).
  - reflexivity.
  - cbv zeta. destruct H1 as [H1 _]; [reflexivity|].
    split_and!; [reflexivity|reflexivity|exact H1|].
    rewrite H1. reflexivity.
Defined.

End SupervisorProofs.

(** * Client: theorems *)

Section ClientProofs.
Import Client.

Ltac break_match :=
  match goal with
  | |- context [if ?b then _ else _] => destruct b eqn:?
  | |- context [match ?x with Some _ => _ | None => _ end] => destruct x eqn:?
  | |- context [match ?x with (_, _) => _ end] => is_var x; destruct x
  | |- context [match ?x with AwaitingNote => _ | _ => _ end] => destruct x eqn:?
  | |- context [match ?x with NoNote => _ | _ => _ end] => destruct x eqn:?
  end.

Lemma resolve_store call v s : store_view (resolve call v s) = store_view s.
Proof. unfold resolve. by destruct (is_resolved call s). Qed.

Lemma run_callback_store a self s : store_view (run_callback a self s) = store_view s.
Proof.
  destruct a; cbn [run_callback]; repeat break_match; rewrite ?resolve_store; reflexivity.
Qed.

Lemma fire_store t s : store_view (fire t s) = store_view s.
Proof.
  unfold fire. repeat break_match; rewrite ?run_callback_store; reflexivity.
Qed.

Lemma fold_fire_store l : forall s, store_view (fold_left (fun s t => fire t s) l s) = store_view s.
Proof.
  induction l as [|t l IH]; intros s; [done|]. cbn. by rewrite IH, fire_store.
Qed.

Lemma tick_store s : store_view (tick s) = store_view s.
Proof. unfold tick. by rewrite fold_fire_store. Qed.

Lemma requestAudioRange_store a b p s : store_view (requestAudioRange a b p s) = store_view s.
Proof.
  unfold requestAudioRange, sendToPort, ws_send, setInterval, setTimeout.
  repeat (break_match; cbn [fst snd negb]); rewrite ?resolve_store; reflexivity.
Qed.

Lemma requestMediaFromServer_store msg type e s :
  store_view (requestMediaFromServer msg type e s) = store_view s.
Proof.
  unfold requestMediaFromServer, sendToPort, ws_send, setInterval, setTimeout.
  repeat (break_match; cbn [fst snd negb]); rewrite ?resolve_store; reflexivity.
Qed.

Lemma set_job_store j st s : store_view (set_job j st s) = store_view s.
Proof. unfold set_job. by destruct (jobs s !! j). Qed.

Lemma export_fail_store j key m s : store_view (export_fail j key m s) = store_view s.
Proof. unfold export_fail. by rewrite set_job_store. Qed.

Lemma export_resume_store j reply d s : store_view (export_resume j reply d s) = store_view s.
Proof.
  unfold export_resume.
  repeat (break_match; cbn [fst snd negb]);
    rewrite ?set_job_store, ?export_fail_store, ?requestAudioRange_store,
      ?requestMediaFromServer_store; reflexivity.
Qed.

Lemma step_store s e :
  match e with WsMessage _ _ | SaveMediaSettings => True | _ => store_view (step s e) = store_view s end.
Proof.
  destruct e; cbn [step]; try done.
  - apply tick_store.
  - unfold toggleSelection. repeat break_match; reflexivity.
  - unfold requestThumbnail, sendToPort, ws_send.
    repeat (break_match; cbn [fst snd negb]); reflexivity.
  - unfold requestAudio, sendToPort, ws_send.
    repeat (break_match; cbn [fst snd negb]); reflexivity.
  - unfold requestSelectionAudioRange.
    repeat (break_match; cbn [fst snd negb]); rewrite ?requestAudioRange_store; reflexivity.
  - unfold sendSelectionToAnki. repeat (break_match; cbn [fst snd negb]); reflexivity.
  - apply export_resume_store.
  - apply requestMediaFromServer_store.
  - apply requestAudioRange_store.
Qed.










Lemma onMessage_messages_length d p s :
  (List.length (messages s) <= capacity)%nat ->
  (List.length (messages (onMessage d p s)) <= capacity)%nat.
Proof.
  intros H. unfold onMessage.
  destruct d as [| | | | |d]; try done.
  destruct (field d "type") as [[| | |type| |]|]; try done.
  destruct (String.eqb type "subtitle").
  { destruct (parseSubtitleMessage d p) as [m|] eqn:Hm; [|done].
    cbn. case_decide as Hc; cbn.
    - destruct (messages s); cbn in *; [lia|]. rewrite length_app. cbn. lia.
    - lia. }
  destruct (_ || _).
  { destruct (parseMediaMessage d) as [[i dat]|]; [|done]. cbn.
    destruct (find_message i p s); [|done].
    unfold update_message.
    destruct (String.eqb type "thumbnail"); by destruct (heap s !! _). }
  destruct (String.eqb type "audio_range"); [|done].
  by destruct (parseAudioRangeMessage d) as [[[a b] dat]|].
Qed.

Lemma update_message_messages r f s : messages (update_message r f s) = messages s.
Proof. unfold update_message. by destruct (heap s !! r). Qed.

Lemma clear_media_messages s : messages (clear_media s) = messages s.
Proof.
  unfold clear_media. generalize (messages s) at 1. intros l. revert s.
  induction l as [|r l IH]; intros s; [done|].
  cbn. by rewrite IH, update_message_messages.
Qed.

Lemma step_messages_length s e :
  (List.length (messages s) <= capacity)%nat ->
  (List.length (messages (step s e)) <= capacity)%nat.
Proof.
  intros H. pose proof (step_store s e) as Hst.
  destruct e; try (change (messages (step s ?e)) with (store_view (step s e)).2; rewrite Hst; done).
  - by apply onMessage_messages_length.
  - cbn. by rewrite clear_media_messages.
Qed.

Lemma run_messages_length evs : forall s,
  (List.length (messages s) <= capacity)%nat ->
  (List.length (messages (run evs s)) <= capacity)%nat.
Proof.
  induction evs as [|e evs IH]; intros s H; [done|]. cbn. by apply IH, step_messages_length.
Qed.

Lemma onMessage_selection d p s :
  selectedMessages (onMessage d p s) = selectedMessages s.
Proof.
  unfold onMessage.
  destruct d as [| | | | |d]; try done.
  destruct (field d "type") as [[| | |type| |]|]; try done.
  destruct (String.eqb type "subtitle").
  { destruct (parseSubtitleMessage d p) as [m|] eqn:Hm; [|done].
    cbn. by case_decide. }
  destruct (_ || _).
  { destruct (parseMediaMessage d) as [[i dat]|]; [|done]. cbn.
    destruct (find_message i p s); [|done].
    unfold update_message.
    destruct (String.eqb type "thumbnail"); by destruct (heap s !! _). }
  destruct (String.eqb type "audio_range"); [|done].
  by destruct (parseAudioRangeMessage d) as [[[a b] dat]|].
Qed.

(** C5 (amended): in every run the store holds at most 200 items, and a
    subtitle arriving at a full store evicts the oldest; no inbound
    message changes the selection set, so the uid of an evicted item stays
    in it; [getSelectedMessages], from which the batched operations take
    their items, returns only items still in the store. *)
Theorem store_bounded_selection_kept :
  (forall a evs, (List.length (messages (run evs (init a))) <= 200)%nat) /\
  (forall s d p m,
     List.length (messages s) = 200%nat ->
     field d "type" = Some (JStr "subtitle") ->
     parseSubtitleMessage d p = Some m ->
     let s' := onMessage (JObj d) p s in
     heap s' = heap s ++ [m] /\
     messages s' = tail (messages s) ++ [List.length (heap s)]) /\
  (forall s d p, selectedMessages (onMessage d p s) = selectedMessages s) /\
  (forall s r, r ∈ getSelectedMessages s -> r ∈ messages s).
Proof.
  split_and!.
  - intros a evs. apply (run_messages_length evs (init a)). cbn. unfold capacity. lia.
  - intros s d p m Hlen Hty Hm. unfold onMessage. rewrite Hty. cbn. rewrite Hm. cbn.
    rewrite decide_True by (rewrite length_app, Hlen; unfold capacity; cbn; lia).
    cbn. split; [done|].
    destruct (messages s); [done|]. done.
  - intros s d p. apply onMessage_selection.
  - intros s r. unfold getSelectedMessages.
    intros H. apply list_elem_of_In in H. apply filter_In in H as [H _].
    by apply list_elem_of_In.
Qed.

Lemma insert_sorted_perm x l : insert_sorted (fun i : Z => i) x l ≡ₚ x :: l.
Proof.
  induction l as [|y l IH]; cbn; [done|].
  destruct (x <=? y); [done|]. rewrite IH. apply Permutation_swap.
Qed.

Lemma sort_Z_perm l : sort_Z l ≡ₚ l.
Proof.
  induction l as [|x l IH]; cbn; [done|].
  unfold sort_Z, sort_by in *. cbn. rewrite insert_sorted_perm. by rewrite IH.
Qed.

Lemma insert_sorted_sorted x l :
  StronglySorted Z.le l -> StronglySorted Z.le (insert_sorted (fun i : Z => i) x l).
Proof.
  induction 1 as [|y l Hs IH Hall]; cbn.
  - repeat constructor.
  - destruct (x <=? y) eqn:Hxy.
    + apply Z.leb_le in Hxy. constructor; [by constructor|].
      constructor; [done|]. eapply Forall_impl; [exact Hall|]. cbn. intros; lia.
    + apply Z.leb_gt in Hxy. constructor; [done|].
      rewrite insert_sorted_perm. constructor; [lia|done].
Qed.

Lemma sort_Z_sorted l : StronglySorted Z.le (sort_Z l).
Proof.
  induction l as [|x l IH]; [constructor|].
  unfold sort_Z, sort_by in *. cbn. by apply insert_sorted_sorted.
Qed.

Lemma sorted_head_min l x :
  StronglySorted Z.le l -> head l = Some x <-> is_min x l.
Proof.
  intros Hs. destruct Hs as [|y l Hs Hall]; cbn.
  - split; [done|]. intros [H _]. by apply elem_of_nil in H.
  - rewrite Forall_forall in Hall. split.
    + intros [= ->]. split; [left|]. intros z [->|Hz]%elem_of_cons; [lia|by apply Hall].
    + intros [Hx Hmin]. f_equal.
      apply elem_of_cons in Hx as [->|Hx]; [done|].
      specialize (Hall _ Hx). specialize (Hmin y (list_elem_of_here _ _)). lia.
Qed.

Lemma sorted_last_max l x :
  StronglySorted Z.le l -> last l = Some x <-> is_max x l.
Proof.
  induction 1 as [|y l Hs IH Hall].
  - split; [done|]. intros [H _]. by apply elem_of_nil in H.
  - rewrite Forall_forall in Hall. destruct l as [|z l].
    + cbn. split.
      * intros [= ->]. split; [left|]. by intros z ->%list_elem_of_singleton.
      * intros [Hx _]. by apply list_elem_of_singleton in Hx as ->.
    + change (last (y :: z :: l)) with (last (z :: l)). rewrite IH. split.
      * intros [Hx Hmax]. split; [by right|].
        intros w [->|Hw]%elem_of_cons; [|by apply Hmax].
        specialize (Hall _ Hx). lia.
      * intros [Hx Hmax]. split.
        -- apply elem_of_cons in Hx as [->|Hx]; [|done].
           assert (z = y) as ->; [|left].
           specialize (Hall z (list_elem_of_here _ _)).
           specialize (Hmax z (list_elem_of_further _ _ _ (list_elem_of_here _ _))). lia.
        -- intros w Hw. apply Hmax. by right.
Qed.

Lemma head_selectedIndices s x :
  head (selectedIndices s) = Some x <-> is_min x (selected_positions s).
Proof.
  unfold selectedIndices. fold (selected_positions s). fold (sort_Z (selected_positions s)).
  rewrite (sorted_head_min _ _ (sort_Z_sorted _)).
  unfold is_min. by setoid_rewrite (sort_Z_perm (selected_positions s)).
Qed.

Lemma last_selectedIndices s x :
  last (selectedIndices s) = Some x <-> is_max x (selected_positions s).
Proof.
  unfold selectedIndices. fold (selected_positions s). fold (sort_Z (selected_positions s)).
  rewrite (sorted_last_max _ _ (sort_Z_sorted _)).
  unfold is_max. by setoid_rewrite (sort_Z_perm (selected_positions s)).
Qed.

Lemma boundary_test s index :
  bool_decide (head (selectedIndices s) = Some index)
  || bool_decide (last (selectedIndices s) = Some index) = true <-> boundary index s.
Proof.
  rewrite orb_true_iff, !bool_decide_eq_true, head_selectedIndices, last_selectedIndices.
  done.
Qed.

Lemma adjacent_test s index :
  (index =? default index (head (selectedIndices s)) - 1)
  || (index =? default index (last (selectedIndices s)) + 1) = true <-> adjacent index s.
Proof.
  rewrite orb_true_iff, !Z.eqb_eq. unfold adjacent. split.
  - intros [H|H].
    + left. destruct (head (selectedIndices s)) as [lo|] eqn:Hlo; cbn in H; [|lia].
      exists lo. by rewrite <- head_selectedIndices.
    + right. destruct (last (selectedIndices s)) as [hi|] eqn:Hhi; cbn in H; [|lia].
      exists hi. by rewrite <- last_selectedIndices.
  - intros [(lo & Hlo%head_selectedIndices & ->)|(hi & Hhi%last_selectedIndices & ->)].
    + left. by rewrite Hlo.
    + right. by rewrite Hhi.
Qed.

(** C4: toggling a selected id removes it exactly when the given position
    is the least or the greatest selected position, and otherwise changes
    nothing; toggling an unselected id selects it when the selection is
    empty, adds it to a non-empty selection exactly when the position is
    one below the least or one above the greatest selected position, and
    otherwise changes nothing. *)
Theorem toggle_selection_contiguous s msg m index :
  heap s !! msg = Some m ->
  let sel := selectedMessages s in
  let s' := toggleSelection msg index s in
  (uid m ∈ sel ->
     (boundary index s -> selectedMessages s' = sel ∖ {[uid m]}) /\
     (~ boundary index s -> selectedMessages s' = sel)) /\
  (uid m ∉ sel ->
     (sel = ∅ -> selectedMessages s' = {[uid m]}) /\
     (sel <> ∅ ->
        (adjacent index s -> selectedMessages s' = {[uid m]} ∪ sel) /\
        (~ adjacent index s -> selectedMessages s' = sel))).
Proof.
  intros Hm sel s'. subst s'. unfold toggleSelection. rewrite Hm. fold sel.
  split.
  - intros Hin. rewrite decide_True by done.
    destruct (_ || _) eqn:Hb.
    + apply boundary_test in Hb. split; [done|]. by intros [].
    + split; [|done]. intros Hb'%boundary_test. congruence.
  - intros Hnin. rewrite decide_False by done. split.
    + intros Hemp. rewrite decide_True by (by rewrite Hemp, size_empty).
      cbn. rewrite Hemp. by rewrite (right_id_L ∅ (∪)).
    + intros Hne. rewrite decide_False by (by intros ?%size_empty_inv%leibniz_equiv).
      destruct (_ || _) eqn:Ha.
      * apply adjacent_test in Ha. split; [done|]. by intros [].
      * split; [|done]. intros Ha'%adjacent_test. congruence.
Qed.






Lemma no_dash_digits d : no_dash (NilEmpty.string_of_uint d).
Proof. induction d; cbn; split; try done. Qed.

Lemma no_dash_uint d : no_dash (NilZero.string_of_uint d) /\ NilZero.string_of_uint d <> "".
Proof.
  destruct d; cbn; try (split; [split; [done|apply no_dash_digits]|done]).
  split; [done|done].
Qed.

Lemma split_at_dash u1 : forall u2 x1 x2,
  no_dash u1 -> no_dash u2 ->
  (u1 ++ "-" ++ x1)%string = (u2 ++ "-" ++ x2)%string -> u1 = u2.
Proof.
  induction u1 as [|c u1 IH]; intros [|c' u2] x1 x2 H1 H2 E; cbn in *.
  - done.
  - injection E as E _. destruct H2 as [H2 _]. congruence.
  - injection E as E _. destruct H1 as [H1 _]. congruence.
  - injection E as -> E. f_equal. destruct H1, H2. by eapply IH.
Qed.

Lemma show_Z_inj a b : show_Z a = show_Z b -> a = b.
Proof.
  unfold show_Z. intros E. apply DecimalZ.to_int_inj.
  assert (H : forall z, NilZero.int_of_string (NilZero.string_of_int (Z.to_int z))
                        = Some (Z.to_int z)).
  { intros z. apply NilZero.isi; destruct z; cbn; try done.
    - intros [= H]. by apply Unsigned.to_uint_nonnil in H.
    - intros [= H]. by apply Unsigned.to_uint_nonnil in H. }
  pose proof (H a) as Ha. rewrite E, H in Ha. congruence.
Qed.

Lemma uid_port_inj p1 p2 x1 x2 :
  (show_Z p1 ++ "-" ++ x1)%string = (show_Z p2 ++ "-" ++ x2)%string -> p1 = p2.
Proof.
  intros E. apply show_Z_inj. revert E. unfold show_Z.
  destruct (Z.to_int p1) as [d1|d1], (Z.to_int p2) as [d2|d2]; cbn [NilZero.string_of_int].
  - intros E. apply split_at_dash in E; [done|apply no_dash_uint..].
  - intros E. destruct (no_dash_uint d1) as [Hn Hne].
    destruct (NilZero.string_of_uint d1) as [|c u]; [done|].
    cbn in E. injection E as E _. destruct Hn. congruence.
  - intros E. destruct (no_dash_uint d2) as [Hn Hne].
    destruct (NilZero.string_of_uint d2) as [|c u]; [done|].
    cbn in E. injection E as E _. destruct Hn. congruence.
  - intros E. cbn in E. injection E as E.
    apply split_at_dash in E; [by rewrite E|apply no_dash_uint..].
Qed.







Lemma insert_sorted_nonempty {A} (key : A -> Z) x l : insert_sorted key x l <> [].
Proof. destruct l; cbn; [done|]. by destruct (_ <=? _). Qed.

Lemma sort_by_nonempty {A} (key : A -> Z) (l : list A) : l <> [] -> sort_by key l <> [].
Proof. destruct l; [done|]. intros _. cbn. apply insert_sorted_nonempty. Qed.





Lemma timeless_refl s : timeless s s.
Proof. constructor; auto. Qed.

Lemma timeless_trans s1 s2 s3 : timeless s1 s2 -> timeless s2 s3 -> timeless s1 s3.
Proof.
  intros [Hn1 Ht1 Hr1 Hs1] [Hn2 Ht2 Hr2 Hs2]. constructor; [congruence|auto|auto|].
  intros r Hr. destruct (Hs2 r Hr) as [H|H]; [|right; congruence].
  destruct (Hs1 r H) as [H'|H']; auto.
Qed.

Lemma timeless_same s s' :
  now s' = now s -> timers s' = timers s -> resolved s' = resolved s -> timeless s s'.
Proof. intros Hn Ht Hr. constructor; rewrite ?Ht, ?Hr; auto. Qed.

Lemma is_resolved_spec c s :
  is_resolved c s = true <-> exists r, r ∈ resolved s /\ res_call r = c.
Proof.
  unfold is_resolved. rewrite existsb_exists. split.
  - intros (r & Hr%list_elem_of_In & He%Nat.eqb_eq). eauto.
  - intros (r & Hr%list_elem_of_In & He%Nat.eqb_eq). eauto.
Qed.

Lemma resolve_timeless c v s : timeless s (resolve c v s).
Proof.
  unfold resolve. destruct (is_resolved c s); [apply timeless_refl|].
  constructor; cbn; auto.
  - intros r Hr. apply elem_of_app. by left.
  - intros r [Hr | ->%list_elem_of_singleton]%elem_of_app; auto.
Qed.

Lemma resolve_resolved c v s : is_resolved c (resolve c v s) = true.
Proof.
  unfold resolve. destruct (is_resolved c s) eqn:H; [done|].
  apply is_resolved_spec. eexists. split; [apply elem_of_app; right; apply list_elem_of_singleton; reflexivity|done].
Qed.

Lemma setInterval_spec a ms s :
  let '(t, s') := setInterval a ms s in
  t = next_timer s /\ next_timer s' = S (next_timer s) /\
  timers s' = timers s ++ [{| tid := t; due := (now s + ms)%N; period := Some ms; action := a |}] /\
  now s' = now s /\ resolved s' = resolved s.
Proof. done. Qed.

Lemma setTimeout_spec a ms s :
  let '(t, s') := setTimeout a ms s in
  t = next_timer s /\ next_timer s' = S (next_timer s) /\
  timers s' = timers s ++ [{| tid := t; due := (now s + ms)%N; period := None; action := a |}] /\
  now s' = now s /\ resolved s' = resolved s.
Proof. done. Qed.

Lemma resolve_settled c v s0 s :
  timers s0 = timers s -> next_timer s0 = next_timer s -> now s0 = now s ->
  resolved s0 = resolved s ->
  settled_at_once c s (resolve c v s0).
Proof.
  intros Ht Hn Hnow Hr. unfold settled_at_once.
  pose proof (resolve_timeless c v s0) as Htl.
  split_and!.
  - unfold resolve. destruct (is_resolved c s0); cbn; done.
  - unfold resolve. destruct (is_resolved c s0); cbn; done.
  - unfold resolve. destruct (is_resolved c s0); cbn; done.
  - apply resolve_resolved.
  - eapply timeless_trans; [|exact Htl]. by apply timeless_same.
Qed.

Lemma requestAudioRange_outcome a b p s :
  let s' := requestAudioRange a b p s in
  settled_at_once (next_call s) s s' \/ registered range_deadline (next_call s) s s'.
Proof.
  unfold requestAudioRange, sendToPort, ws_send, setInterval, setTimeout.
  repeat (break_match; cbn [fst snd negb]).
  all: try (left; by apply resolve_settled).
  all: right; eexists _, _; cbn; rewrite <- ?app_assoc; split_and!;
    [| | |cbn; reflexivity|..]; reflexivity.
Qed.

Lemma requestMediaFromServer_outcome msg type e s :
  let s' := requestMediaFromServer msg type e s in
  settled_at_once (next_call s) s s' \/ registered single_deadline (next_call s) s s' \/
  (heap s !! msg = None /\ untouched s s').
Proof.
  unfold requestMediaFromServer, sendToPort, ws_send, setInterval, setTimeout.
  repeat (break_match; cbn [fst snd negb]).
  all: try (left; by apply resolve_settled).
  all: try (right; left; eexists _, _; cbn; rewrite <- ?app_assoc; split_and!;
    [| | |cbn; reflexivity|..]; reflexivity).
  right; right. done.
Qed.

Lemma registered_timeless D c s s' : registered D c s s' -> timeless s s'.
Proof.
  intros (a & b & _ & _ & _ & Ht & _ & Hr & Hn). constructor; rewrite ?Ht, ?Hr; auto.
  intros t H. apply elem_of_app. by left.
Qed.

Lemma untouched_timeless s s' : untouched s s' -> timeless s s'.
Proof. intros (? & ? & ? & ?). by apply timeless_same. Qed.

Lemma NoDup_fmap_inj {A B} (f : A -> B) (l : list A) x y :
  NoDup (f <$> l) -> x ∈ l -> y ∈ l -> f x = f y -> x = y.
Proof.
  induction l as [|z l IH]; cbn; intros Hnd Hx Hy Hf; [by apply elem_of_nil in Hx|].
  apply NoDup_cons in Hnd as [Hz Hnd].
  apply elem_of_cons in Hx as [->|Hx], Hy as [->|Hy]; auto.
  - exfalso. apply Hz. rewrite Hf. by apply list_elem_of_fmap_2.
  - exfalso. apply Hz. rewrite <- Hf. by apply list_elem_of_fmap_2.
Qed.

Lemma untouched_wf s s' : untouched s s' -> queue_wf s -> queue_wf s'.
Proof.
  intros (Ht & Hn & _ & _) [H1 H2 H3]. constructor; rewrite ?Ht, ?Hn; auto.
Qed.

Lemma settled_wf c s s' : settled_at_once c s s' -> queue_wf s -> queue_wf s'.
Proof.
  intros (Ht & Hn & _ & _) [H1 H2 H3]. constructor; rewrite ?Ht, ?Hn; auto.
Qed.

Lemma registered_wf D c s s' : registered D c s s' -> queue_wf s -> queue_wf s'.
Proof.
  intros (a & b & Ha & Hb & _ & Ht & Hn & _ & _) [H1 H2 H3].
  constructor; rewrite ?Ht, ?Hn.
  - intros t [H|H]%elem_of_app; [apply H1 in H; lia|].
    apply elem_of_cons in H as [->|H]; [cbn; lia|].
    apply list_elem_of_singleton in H as ->. cbn. lia.
  - rewrite fmap_app. cbn. apply NoDup_app. split_and!; [done| |].
    + intros i (t & -> & Hin%H1)%list_elem_of_fmap Hi.
      apply elem_of_cons in Hi as [Hi|Hi]; [lia|].
      apply list_elem_of_singleton in Hi. lia.
    + apply NoDup_cons. split; [|apply NoDup_singleton].
      intros H%list_elem_of_singleton. lia.
  - intros t ci [Hin|Hin]%elem_of_app Hci.
    + destruct (H3 t ci Hin Hci) as [Hlt Hper]. split; [lia|].
      intros u [Hu|Hu]%elem_of_app Htid; [by apply Hper|].
      apply elem_of_cons in Hu as [->|Hu]; [cbn in *; lia|].
      apply list_elem_of_singleton in Hu as ->. cbn in *. lia.
    + apply elem_of_cons in Hin as [->|Hin]; [cbn in Hci; congruence|].
      apply list_elem_of_singleton in Hin as ->. cbn in Hci.
      assert (ci = next_timer s) as -> by congruence. split; [lia|].
      intros u [Hu|Hu]%elem_of_app Htid; [apply H1 in Hu; lia|].
      apply elem_of_cons in Hu as [->|Hu]; [by eexists|].
      apply list_elem_of_singleton in Hu as ->. cbn in *. lia.
Qed.

Lemma registered_waiting D c s s' :
  (0 < D)%N -> registered D c s s' -> waiting c (now s + D) s'.
Proof.
  intros HD (a & b & Ha & Hb & Hc & Ht & Hn & _ & Hnow). right.
  split; [lia|]. eexists. split; [rewrite Ht; apply elem_of_app; right; right; left|].
  done.
Qed.

Lemma shrinks_refl s : shrinks s s.
Proof. constructor; eauto. Qed.

Lemma shrinks_trans s1 s2 s3 : shrinks s1 s2 -> shrinks s2 s3 -> shrinks s1 s3.
Proof.
  intros [Hn1 Hx1 Hr1 Hs1 Ht1 Hd1] [Hn2 Hx2 Hr2 Hs2 Ht2 Hd2].
  constructor; [congruence|congruence|auto| | |auto].
  - intros r Hr. destruct (Hs2 r Hr) as [H|H]; [|right; congruence].
    destruct (Hs1 r H); auto.
  - intros u Hu. destruct (Ht2 u Hu) as (t & Ht & E1 & E2 & E3).
    destruct (Ht1 t Ht) as (t' & Ht' & E1' & E2' & E3').
    exists t'. split_and!; congruence.
Qed.

Lemma shrinks_wf s s' : shrinks s s' -> queue_wf s -> queue_wf s'.
Proof.
  intros [Hn Hx Hr Hs Ht Hd] [H1 H2 H3]. constructor.
  - intros u Hu. destruct (Ht u Hu) as (t & Hin & E1 & _). rewrite <- E1, Hx. auto.
  - auto.
  - intros u ci Hu Hci. destruct (Ht u Hu) as (t & Hin & E1 & E2 & E3).
    rewrite <- E3 in Hci. destruct (H3 t ci Hin Hci) as [Hlt Hper]. split; [by rewrite Hx|].
    intros u' Hu' Htid. destruct (Ht u' Hu') as (t' & Hin' & E1' & E2' & E3').
    rewrite <- E2'. apply Hper; [done|congruence].
Qed.

Lemma shrinks_stamped s s' : shrinks s s' -> resolved_stamped s -> resolved_stamped s'.
Proof.
  intros [Hn Hx Hr Hs Ht Hd] H r Hin. rewrite Hn.
  destruct (Hs r Hin) as [H'|H']; [by apply H|]. rewrite H'. lia.
Qed.

Lemma timeless_stamped s s' : timeless s s' -> resolved_stamped s -> resolved_stamped s'.
Proof.
  intros [Hn Ht Hr Hs] H r Hin. rewrite Hn.
  destruct (Hs r Hin) as [H'|H']; [by apply H|]. rewrite H'. lia.
Qed.

Lemma clearInterval_shrinks i s : shrinks s (clearInterval i s).
Proof.
  constructor; cbn; auto.
  - intros u [Hu Hin]%list_elem_of_filter. exists u. done.
  - intros H. eapply sublist_NoDup; [exact H|].
    apply fmap_sublist, sublist_filter.
Qed.

Lemma rearm_shrinks i p s : shrinks s (rearm i p s).
Proof.
  constructor; cbn; auto.
  - intros u (t & -> & Ht)%list_elem_of_fmap. exists t. by destruct (tid t =? i)%nat.
  - intros H. rewrite <- list_fmap_compose.
    erewrite list_fmap_ext; [exact H|]. intros k t _. cbn. by destruct (tid t =? i)%nat.
Qed.

Lemma resolve_shrinks c v s : shrinks s (resolve c v s).
Proof.
  unfold resolve. destruct (is_resolved c s); [apply shrinks_refl|].
  constructor; cbn; eauto.
  - intros r Hr. apply elem_of_app. by left.
  - intros r [Hr | ->%list_elem_of_singleton]%elem_of_app; auto.
Qed.

Lemma shrinks_same s s' :
  now s' = now s -> next_timer s' = next_timer s -> timers s' = timers s ->
  resolved s' = resolved s -> shrinks s s'.
Proof. intros Hn Hx Ht Hr. constructor; rewrite ?Ht, ?Hr; eauto. Qed.

Lemma shrinks_resolve c v s s1 : shrinks s s1 -> shrinks s (resolve c v s1).
Proof. intros H. eapply shrinks_trans; [exact H|apply resolve_shrinks]. Qed.

Lemma shrinks_set_loadingMedia x s s1 : shrinks s s1 -> shrinks s (set_loadingMedia x s1).
Proof. intros H. eapply shrinks_trans; [exact H|by apply shrinks_same]. Qed.

Lemma shrinks_set_pendingAudioRange x s s1 :
  shrinks s s1 -> shrinks s (set_pendingAudioRange x s1).
Proof. intros H. eapply shrinks_trans; [exact H|by apply shrinks_same]. Qed.

Lemma run_callback_shrinks a self s : shrinks s (run_callback a self s).
Proof.
  destruct a; cbn [run_callback]; repeat break_match.
  all: repeat first
    [ apply shrinks_refl
    | apply clearInterval_shrinks
    | apply shrinks_resolve
    | apply shrinks_set_loadingMedia
    | apply shrinks_set_pendingAudioRange ].
Qed.

Lemma fire_shrinks t s : shrinks s (fire t s).
Proof.
  unfold fire. destruct (is_armed (tid t) s); [|apply shrinks_refl].
  eapply shrinks_trans; [|apply run_callback_shrinks].
  destruct (period t); [apply rearm_shrinks|apply clearInterval_shrinks].
Qed.

Lemma fold_fire_shrinks l : forall s, shrinks s (fold_left (fun s t => fire t s) l s).
Proof.
  induction l as [|t l IH]; intros s; [apply shrinks_refl|].
  cbn. eapply shrinks_trans; [apply fire_shrinks|apply IH].
Qed.

Lemma resolve_timers c v s : timers (resolve c v s) = timers s.
Proof. unfold resolve. by destruct (is_resolved c s). Qed.

Lemma clearInterval_keeps i s t0 :
  t0 ∈ timers s -> tid t0 <> i -> t0 ∈ timers (clearInterval i s).
Proof. intros H Hne. cbn. by apply list_elem_of_filter. Qed.

Lemma run_callback_keeps a self s t0 :
  t0 ∈ timers s -> tid t0 <> self -> checkInterval_of a <> Some (tid t0) ->
  t0 ∈ timers (run_callback a self s).
Proof.
  intros Hin Hself Hci.
  destruct a; cbn [run_callback checkInterval_of] in *; repeat break_match;
    rewrite ?resolve_timers; cbn [timers set_loadingMedia set_pendingAudioRange];
    try done; apply clearInterval_keeps; try done; congruence.
Qed.

Lemma fire_keeps t s t0 :
  t0 ∈ timers s -> tid t <> tid t0 -> checkInterval_of (action t) <> Some (tid t0) ->
  t0 ∈ timers (fire t s).
Proof.
  intros Hin Hne Hci. unfold fire. destruct (is_armed (tid t) s); [|done].
  apply run_callback_keeps; [|congruence|done].
  destruct (period t).
  - cbn. apply list_elem_of_fmap. exists t0. split; [|done].
    destruct (tid t0 =? tid t)%nat eqn:E; [|done]. apply Nat.eqb_eq in E. congruence.
  - apply clearInterval_keeps; [done|congruence].
Qed.

Lemma is_armed_elem t s : t ∈ timers s -> is_armed (tid t) s = true.
Proof.
  intros H. unfold is_armed. apply existsb_exists. exists t.
  split; [by apply list_elem_of_In|apply Nat.eqb_refl].
Qed.

Lemma run_callback_deadline a self s c :
  deadline_call a = Some c -> is_resolved c (run_callback a self s) = true.
Proof.
  destruct a; cbn; try done; intros [= ->]; apply resolve_resolved.
Qed.

Lemma fire_deadline t0 s c :
  t0 ∈ timers s -> deadline_call (action t0) = Some c ->
  is_resolved c (fire t0 s) = true.
Proof.
  intros Hin Hc. unfold fire. rewrite (is_armed_elem _ _ Hin).
  by apply run_callback_deadline.
Qed.

Lemma shrinks_is_resolved c s s' :
  shrinks s s' -> is_resolved c s = true -> is_resolved c s' = true.
Proof.
  intros [_ _ Hr _ _ _]. rewrite !is_resolved_spec. intros (r & Hin & E). eauto.
Qed.

Lemma shrinks_resolved_by c d s s' : shrinks s s' -> resolved_by c d s -> resolved_by c d s'.
Proof. intros [_ _ Hr _ _ _] (r & Hin & E). exists r. auto. Qed.

Lemma timeless_resolved_by c d s s' : timeless s s' -> resolved_by c d s -> resolved_by c d s'.
Proof. intros [_ _ Hr _] (r & Hin & E). exists r. auto. Qed.

Lemma timeless_waiting c d s s' : timeless s s' -> waiting c d s -> waiting c d s'.
Proof.
  intros Htl [H|(Hnow & t & Hin & Hper)].
  - left. by eapply timeless_resolved_by.
  - right. destruct Htl as [Hn Ht _ _]. rewrite Hn. split; [done|]. exists t. auto.
Qed.

(** Inside a tick: the timers of the snapshot [l], all taken from the
    queue of [s0], run from state [s]. *)
Lemma fold_fire_keeps s0 t0 l : forall s,
  queue_wf s0 -> t0 ∈ timers s0 -> period t0 = None ->
  (forall t, t ∈ l -> t ∈ timers s0) ->
  t0 ∉ l ->
  t0 ∈ timers s ->
  t0 ∈ timers (fold_left (fun s t => fire t s) l s).
Proof.
  induction l as [|t l IH]; intros s Hwf H0 Hp Hl Hnin Hin; [done|].
  cbn. apply IH; try done.
  - intros u Hu. apply Hl. by right.
  - intros Hu. apply Hnin. by right.
  - assert (Ht : t ∈ timers s0) by (apply Hl; left).
    assert (t <> t0) by (intros ->; apply Hnin; left).
    apply fire_keeps; [done| |].
    + intros E. by apply (NoDup_fmap_inj tid (timers s0) t t0 (wf_nodup _ Hwf)) in E.
    + intros Hci. destruct (wf_ci _ Hwf t (tid t0) Ht Hci) as [_ Hper].
      destruct (Hper t0 H0 eq_refl) as [p Hp']. congruence.
Qed.

Lemma fold_fire_deadline s0 t0 c l : forall s,
  queue_wf s0 -> t0 ∈ timers s0 -> period t0 = None ->
  deadline_call (action t0) = Some c ->
  (forall t, t ∈ l -> t ∈ timers s0) ->
  t0 ∈ l ->
  t0 ∈ timers s ->
  is_resolved c (fold_left (fun s t => fire t s) l s) = true.
Proof.
  induction l as [|t l IH]; intros s Hwf H0 Hp Hc Hl Hin0 Hin; [by apply elem_of_nil in Hin0|].
  cbn. assert (Ht : t ∈ timers s0) by (apply Hl; left).
  destruct (decide (tid t = tid t0)) as [E|Hne].
  - apply (NoDup_fmap_inj tid (timers s0) t t0 (wf_nodup _ Hwf)) in E as ->; [|done..].
    eapply shrinks_is_resolved; [apply fold_fire_shrinks|]. by apply fire_deadline.
  - apply elem_of_cons in Hin0 as [->|Hin0]; [done|].
    apply IH; try done.
    + intros u Hu. apply Hl. by right.
    + apply fire_keeps; [done|done|].
      intros Hci. destruct (wf_ci _ Hwf t (tid t0) Ht Hci) as [_ Hper].
      destruct (Hper t0 H0 eq_refl) as [p Hp']. congruence.
Qed.

Lemma tick_shrinks s : shrinks (set_now (now s + 1)%N s) (tick s).
Proof. unfold tick. apply fold_fire_shrinks. Qed.

Lemma tick_now s : now (tick s) = (now s + 1)%N.
Proof. by rewrite (sh_now _ _ (tick_shrinks s)). Qed.

Lemma tick_wf s : queue_wf s -> queue_wf (tick s).
Proof.
  intros [H1 H2 H3]. eapply shrinks_wf; [apply tick_shrinks|]. by constructor.
Qed.

Lemma tick_stamped s : resolved_stamped s -> resolved_stamped (tick s).
Proof.
  intros H. eapply shrinks_stamped; [apply tick_shrinks|].
  intros r Hr. cbn. specialize (H r Hr). lia.
Qed.

Lemma tick_waiting c d s :
  queue_wf s -> resolved_stamped s -> waiting c d s -> waiting c d (tick s).
Proof.
  intros Hwf Hst [H|(Hnow & t0 & Hin & Hper & Hdue & Hc)].
  - left. eapply shrinks_resolved_by; [apply tick_shrinks|].
    destruct H as (r & ? & ? & ?). by exists r.
  - set (s1 := set_now (now s + 1)%N s).
    assert (Hwf1 : queue_wf s1) by (destruct Hwf; by constructor).
    assert (Hl : forall t, t ∈ filter (fun t => (due t <= now s1)%N) (timers s1) -> t ∈ timers s1).
    { intros t [_ Ht]%list_elem_of_filter. done. }
    destruct (decide (due t0 <= now s1)%N) as [Hle|Hgt].
    + left. assert (Hres : is_resolved c (tick s) = true).
      { unfold tick. fold s1.
        eapply (fold_fire_deadline s1 t0 c); try done.
        by apply list_elem_of_filter. }
      apply is_resolved_spec in Hres as (r & Hr & Hrc).
      exists r. split_and!; [done|done|].
      pose proof (tick_stamped s Hst r Hr) as Hle'. rewrite tick_now in Hle'.
      cbn in Hle. lia.
    + right. rewrite tick_now. cbn in Hgt. split; [lia|].
      exists t0. split_and!; try done.
      unfold tick. fold s1. eapply (fold_fire_keeps s1 t0); try done.
      intros [Hd _]%list_elem_of_filter. done.
Qed.

Lemma benign_trans s1 s2 s3 : benign s1 s2 -> benign s2 s3 -> benign s1 s3.
Proof. intros [H1 W1] [H2 W2]. split; [by eapply timeless_trans|auto]. Qed.

Lemma untouched_benign s s' : untouched s s' -> benign s s'.
Proof. intros H. split; [by apply untouched_timeless|by apply untouched_wf]. Qed.

Lemma requestAudioRange_benign a b p s : benign s (requestAudioRange a b p s).
Proof.
  destruct (requestAudioRange_outcome a b p s) as [H|H].
  - split; [apply H|by eapply settled_wf].
  - split; [by eapply registered_timeless|by eapply registered_wf].
Qed.

Lemma requestMediaFromServer_benign msg type e s :
  benign s (requestMediaFromServer msg type e s).
Proof.
  destruct (requestMediaFromServer_outcome msg type e s) as [H|[H|[_ H]]].
  - split; [apply H|by eapply settled_wf].
  - split; [by eapply registered_timeless|by eapply registered_wf].
  - by apply untouched_benign.
Qed.

Lemma set_job_untouched j st s : untouched s (set_job j st s).
Proof. unfold set_job. by destruct (jobs s !! j). Qed.

Lemma update_message_untouched r f s : untouched s (update_message r f s).
Proof. unfold update_message. by destruct (heap s !! r). Qed.

Lemma untouched_trans s1 s2 s3 : untouched s1 s2 -> untouched s2 s3 -> untouched s1 s3.
Proof. intros (?&?&?&?) (?&?&?&?). unfold untouched. split_and!; congruence. Qed.

Lemma untouched_refl s : untouched s s.
Proof. done. Qed.

Lemma clear_media_untouched s : untouched s (clear_media s).
Proof.
  unfold clear_media. generalize (messages s). intros l. revert s.
  induction l as [|r l IH]; intros s; [done|].
  cbn. eapply untouched_trans; [apply update_message_untouched|apply IH].
Qed.

Lemma onMessage_untouched d p s : untouched s (onMessage d p s).
Proof.
  unfold onMessage.
  destruct d as [| | | | |d]; try done.
  destruct (field d "type") as [[| | |type| |]|]; try done.
  destruct (String.eqb type "subtitle").
  { destruct (parseSubtitleMessage d p) as [m|] eqn:Hm; [|done].
    cbn. by case_decide. }
  destruct (_ || _).
  { destruct (parseMediaMessage d) as [[i dat]|]; [|done]. cbn.
    destruct (find_message i p s); [|done].
    unfold update_message.
    destruct (String.eqb type "thumbnail"); by destruct (heap s !! _). }
  destruct (String.eqb type "audio_range"); [|done].
  by destruct (parseAudioRangeMessage d) as [[[a b] dat]|].
Qed.

Lemma export_resume_benign j reply d s : benign s (export_resume j reply d s).
Proof.
  unfold export_resume, export_fail.
  repeat (break_match; cbn [fst snd negb]).
  all: try (apply untouched_benign; first [done | apply set_job_untouched
       | (eapply untouched_trans; [|apply set_job_untouched]); done]).
  all: (eapply benign_trans; [|apply untouched_benign, set_job_untouched]).
  all: first [apply requestAudioRange_benign | apply requestMediaFromServer_benign].
Qed.

Lemma step_benign s e : e <> Tick -> benign s (step s e).
Proof.
  intros He. destruct e; cbn [step]; try done.
  - apply untouched_benign, onMessage_untouched.
  - by apply untouched_benign.
  - apply untouched_benign. unfold toggleSelection. repeat break_match; done.
  - by apply untouched_benign.
  - apply untouched_benign. unfold requestThumbnail, sendToPort, ws_send.
    repeat (break_match; cbn [fst snd negb]); done.
  - apply untouched_benign. unfold requestAudio, sendToPort, ws_send.
    repeat (break_match; cbn [fst snd negb]); done.
  - unfold requestSelectionAudioRange. repeat break_match;
      first [apply requestAudioRange_benign | by apply untouched_benign].
  - apply untouched_benign. unfold sendSelectionToAnki.
    repeat (break_match; cbn [fst snd negb]); done.
  - apply export_resume_benign.
  - apply requestMediaFromServer_benign.
  - apply requestAudioRange_benign.
  - apply untouched_benign, clear_media_untouched.
Qed.

Lemma step_wf s e : queue_wf s -> queue_wf (step s e).
Proof.
  destruct e; try (apply step_benign; done). apply tick_wf.
Qed.

Lemma step_stamped s e : resolved_stamped s -> resolved_stamped (step s e).
Proof.
  destruct e; try (apply timeless_stamped, step_benign; done). apply tick_stamped.
Qed.

Lemma step_waiting c d s e :
  queue_wf s -> resolved_stamped s -> waiting c d s -> waiting c d (step s e).
Proof.
  intros Hwf Hst. destruct e; try (apply timeless_waiting, step_benign; done).
  by apply tick_waiting.
Qed.

Lemma run_invariants evs : forall s c d,
  queue_wf s -> resolved_stamped s -> waiting c d s ->
  queue_wf (run evs s) /\ resolved_stamped (run evs s) /\ waiting c d (run evs s).
Proof.
  induction evs as [|e evs IH]; intros s c d Hwf Hst Hw; [done|].
  cbn. apply IH; [by apply step_wf|by apply step_stamped|by apply step_waiting].
Qed.

Lemma run_wf evs s : queue_wf s -> resolved_stamped s ->
  queue_wf (run evs s) /\ resolved_stamped (run evs s).
Proof.
  revert s. induction evs as [|e evs IH]; intros s Hwf Hst; [done|].
  cbn. apply IH; [by apply step_wf|by apply step_stamped].
Qed.

Lemma init_wf a : queue_wf (init a) /\ resolved_stamped (init a).
Proof.
  split; [constructor; cbn|].
  - intros t H. by apply elem_of_nil in H.
  - constructor.
  - intros t ci H. by apply elem_of_nil in H.
  - intros r H. by apply elem_of_nil in H.
Qed.

Lemma waiting_done c d s : waiting c d s -> (d <= now s)%N -> resolved_by c d s.
Proof. intros [H|[H _]] Hle; [done|lia]. Qed.

Lemma settled_resolved_by c d s s' :
  resolved_stamped s -> settled_at_once c s s' -> (now s <= d)%N -> resolved_by c d s'.
Proof.
  intros Hst (_ & _ & Hn & Hres & Htl) Hle.
  apply is_resolved_spec in Hres as (r & Hr & Hc). exists r. split_and!; [done..|].
  pose proof (timeless_stamped _ _ Htl Hst r Hr). lia.
Qed.

Lemma settles_by_deadline_wf (s : state) (evs : list event) :
  queue_wf s -> resolved_stamped s ->
  (forall msg type e,
     is_Some (heap s !! msg) ->
     let s1 := requestMediaFromServer msg type e s in
     (now s + single_deadline <= now (run evs s1))%N ->
     resolved_by (next_call s) (now s + single_deadline) (run evs s1)) /\
  (forall a b p,
     let s1 := requestAudioRange a b p s in
     (now s + range_deadline <= now (run evs s1))%N ->
     resolved_by (next_call s) (now s + range_deadline) (run evs s1)).
Proof.
  intros Hwf Hst. split.
  - intros msg type e [m Hm] s1 Hnow.
    assert (Hb : benign s s1) by apply requestMediaFromServer_benign.
    assert (Hw : waiting (next_call s) (now s + single_deadline) s1).
    { destruct (requestMediaFromServer_outcome msg type e s) as [H|[H|[H _]]].
      - left. eapply settled_resolved_by; [done|exact H|lia].
      - by apply registered_waiting.
      - congruence. }
    destruct (run_invariants evs s1 _ _ (proj2 Hb Hwf)
                (timeless_stamped _ _ (proj1 Hb) Hst) Hw) as (_ & _ & Hw').
    by apply waiting_done.
  - intros a b p s1 Hnow.
    assert (Hb : benign s s1) by apply requestAudioRange_benign.
    assert (Hw : waiting (next_call s) (now s + range_deadline) s1).
    { destruct (requestAudioRange_outcome a b p s) as [H|H].
      - left. eapply settled_resolved_by; [done|exact H|lia].
      - by apply registered_waiting. }
    destruct (run_invariants evs s1 _ _ (proj2 Hb Hwf)
                (timeless_stamped _ _ (proj1 Hb) Hst) Hw) as (_ & _ & Hw').
    by apply waiting_done.
Qed.

Lemma onMessage_loadingMedia d p s :
  loadingMedia (onMessage d p s) =
  match response_key d p with
  | Some k => delete k (loadingMedia s)
  | None => loadingMedia s
  end.
Proof.
  unfold onMessage, response_key.
  destruct d as [| | | | |d]; try done.
  destruct (field d "type") as [[| | |type| |]|]; try done.
  destruct (String.eqb type "subtitle").
  { destruct (parseSubtitleMessage d p) as [m|] eqn:Hm; [|done].
    cbn. by case_decide. }
  destruct (_ || _).
  { destruct (parseMediaMessage d) as [[i dat]|]; [|done]. cbn.
    destruct (find_message i p s); [|done].
    unfold update_message.
    destruct (String.eqb type "thumbnail"); by destruct (heap s !! _). }
  destruct (String.eqb type "audio_range"); [|done].
  by destruct (parseAudioRangeMessage d) as [[[a b] dat]|].
Qed.

Lemma resolve_loadingMedia c v s : loadingMedia (resolve c v s) = loadingMedia s.
Proof. unfold resolve. by destruct (is_resolved c s). Qed.

Lemma run_callback_marker key a self s :
  own_deadline_key a <> Some key ->
  loading key (run_callback a self s) = loading key s.
Proof.
  intros H. unfold loading.
  destruct a; cbn [run_callback own_deadline_key] in *; repeat break_match;
    rewrite ?resolve_loadingMedia; cbn; try done.
  all: rewrite lookup_delete_ne; [done|congruence].
Qed.

Lemma fire_marker key t s :
  own_deadline_key (action t) <> Some key ->
  loading key (fire t s) = loading key s.
Proof.
  intros H. unfold fire. destruct (is_armed (tid t) s); [|done].
  rewrite run_callback_marker by done. by destruct (period t).
Qed.

Lemma fold_fire_marker key l : forall s,
  (forall t, t ∈ l -> own_deadline_key (action t) <> Some key) ->
  loading key (fold_left (fun s t => fire t s) l s) = loading key s.
Proof.
  induction l as [|t l IH]; intros s H; [done|].
  cbn. rewrite IH.
  - apply fire_marker, H. left.
  - intros u Hu. apply H. by right.
Qed.

Lemma tick_marker key s :
  clears key s Tick = false -> loading key (tick s) = loading key s.
Proof.
  intros H. unfold tick. rewrite fold_fire_marker; [done|].
  intros t [Hdue Hin]%list_elem_of_filter Hk. cbn in Hdue.
  cbn in H. rewrite <- not_true_iff_false in H. apply H.
  apply existsb_exists. exists t. split; [by apply list_elem_of_In|].
  by rewrite !bool_decide_eq_true_2.
Qed.

Lemma requestAudioRange_marker key a b p s :
  loading key s = true -> loading key (requestAudioRange a b p s) = true.
Proof.
  intros H. unfold requestAudioRange. cbv zeta.
  destruct (negb _); [unfold loading in *; by rewrite resolve_loadingMedia|].
  destruct (loading (range_key a b p) _) eqn:Hk; [done|].
  assert (range_key a b p <> key) as Hne
    by (intros Heq; rewrite Heq in Hk; unfold loading in *; cbn in *; congruence).
  unfold sendToPort, ws_send. unfold loading in *.
  repeat (break_match; cbn [fst snd negb]); rewrite ?resolve_loadingMedia; cbn;
    rewrite ?lookup_delete_ne, ?lookup_insert_ne by done; done.
Qed.

Lemma requestMediaFromServer_marker key msg type e s :
  loading key s = true -> loading key (requestMediaFromServer msg type e s) = true.
Proof.
  intros H. unfold requestMediaFromServer. cbv zeta.
  destruct (negb _); [unfold loading in *; by rewrite resolve_loadingMedia|].
  destruct (heap _ !! msg) as [m|]; [|done].
  destruct (loading (media_key type m e) _) eqn:Hk; [done|].
  assert (media_key type m e <> key) as Hne
    by (intros Heq; rewrite Heq in Hk; unfold loading in *; cbn in *; congruence).
  unfold sendToPort, ws_send. unfold loading in *.
  repeat (break_match; cbn [fst snd negb]); rewrite ?resolve_loadingMedia; cbn;
    rewrite ?lookup_delete_ne, ?lookup_insert_ne by done; done.
Qed.

Lemma insert_marker key k (m : gmap string bool) :
  default false (m !! key) = true -> default false (<[k := true]> m !! key) = true.
Proof.
  intros H. destruct (decide (k = key)) as [->|Hne].
  - by rewrite lookup_insert_eq.
  - by rewrite lookup_insert_ne.
Qed.

Lemma set_job_loadingMedia j st s : loadingMedia (set_job j st s) = loadingMedia s.
Proof. unfold set_job. by destruct (jobs s !! j). Qed.

Lemma update_message_loadingMedia r f s : loadingMedia (update_message r f s) = loadingMedia s.
Proof. unfold update_message. by destruct (heap s !! r). Qed.

Lemma clear_media_loadingMedia s : loadingMedia (clear_media s) = loadingMedia s.
Proof.
  unfold clear_media. generalize (messages s). intros l. revert s.
  induction l as [|r l IH]; intros s; [done|].
  cbn. by rewrite IH, update_message_loadingMedia.
Qed.

Lemma export_resume_marker key j reply d s :
  loading key s = true -> loading key (export_resume j reply d s) = true.
Proof.
  intros H. unfold export_resume, export_fail.
  repeat (break_match; cbn [fst snd negb]); try done.
  all: unfold loading at 1; rewrite ?set_job_loadingMedia; try done.
  all: first [ by apply requestAudioRange_marker | by apply requestMediaFromServer_marker ].
Qed.

Lemma step_marker key s e :
  loading key s = true -> clears key s e = false -> loading key (step s e) = true.
Proof.
  intros H Hc. destruct e; cbn [step].
  - by rewrite tick_marker.
  - unfold loading. rewrite onMessage_loadingMedia.
    cbn in Hc. apply bool_decide_eq_false in Hc.
    destruct (response_key d p) as [k|]; [|done].
    rewrite lookup_delete_ne; [done|congruence].
  - done.
  - unfold toggleSelection. repeat break_match; done.
  - done.
  - unfold requestThumbnail, sendToPort, ws_send, loading in *.
    repeat (break_match; cbn [fst snd negb]); try done; cbn; by apply insert_marker.
  - unfold requestAudio, sendToPort, ws_send, loading in *.
    repeat (break_match; cbn [fst snd negb]); try done; cbn; by apply insert_marker.
  - unfold requestSelectionAudioRange. repeat break_match; try done.
    by apply requestAudioRange_marker.
  - unfold sendSelectionToAnki. repeat (break_match; cbn [fst snd negb]); done.
  - by apply export_resume_marker.
  - by apply requestMediaFromServer_marker.
  - by apply requestAudioRange_marker.
  - unfold loading. by rewrite clear_media_loadingMedia.
Qed.

Lemma run_marker key evs : forall s,
  loading key s = true -> undisturbed key evs s = true -> loading key (run evs s) = true.
Proof.
  induction evs as [|e evs IH]; intros s H Hu; [done|].
  cbn in *. apply andb_true_iff in Hu as [Hc Hu]. apply negb_true_iff in Hc.
  apply IH; [by apply step_marker|done].
Qed.

Lemma update_message_item r f s r0 m :
  (forall x, same_item x (f x)) ->
  heap s !! r0 = Some m ->
  exists m', heap (update_message r f s) !! r0 = Some m' /\ same_item m m'.
Proof.
  intros Hf H. unfold update_message. destruct (heap s !! r) as [x|] eqn:Hx.
  - cbn. destruct (decide (r = r0)) as [->|Hne].
    + rewrite list_lookup_insert_eq by (by eapply lookup_lt_Some).
      exists (f x). split; [done|]. assert (x = m) as -> by congruence. apply Hf.
    + rewrite list_lookup_insert_ne by done. by exists m.
  - by exists m.
Qed.

Lemma same_item_trans m1 m2 m3 : same_item m1 m2 -> same_item m2 m3 -> same_item m1 m3.
Proof. intros (?&?&?) (?&?&?). unfold same_item. split_and!; congruence. Qed.

Lemma clear_media_item s r0 m :
  heap s !! r0 = Some m ->
  exists m', heap (clear_media s) !! r0 = Some m' /\ same_item m m'.
Proof.
  unfold clear_media. generalize (messages s). intros l. revert s m.
  induction l as [|r l IH]; intros s m H; [by exists m|].
  cbn. destruct (update_message_item r (fun m => set_thumbnail None (set_audio None m)) s r0 m)
    as (m1 & H1 & S1); [done|done|].
  destruct (IH _ _ H1) as (m2 & H2 & S2). exists m2. split; [done|].
  by eapply same_item_trans.
Qed.

Lemma onMessage_item d p s r0 m :
  heap s !! r0 = Some m ->
  exists m', heap (onMessage d p s) !! r0 = Some m' /\ same_item m m'.
Proof.
  intros H. unfold onMessage.
  destruct d as [| | | | |d]; try by exists m.
  destruct (field d "type") as [[| | |type| |]|]; try by exists m.
  destruct (String.eqb type "subtitle").
  { destruct (parseSubtitleMessage d p) as [x|] eqn:Hx; [|by exists m].
    exists m. split; [|done]. cbn. case_decide; cbn; by apply lookup_app_l_Some. }
  destruct (_ || _).
  { destruct (parseMediaMessage d) as [[i dat]|]; [|by exists m]. cbn.
    destruct (find_message i p s); [|by exists m].
    destruct (String.eqb type "thumbnail"); by apply update_message_item. }
  destruct (String.eqb type "audio_range"); [|by exists m].
  destruct (parseAudioRangeMessage d) as [[[a b] dat]|]; by exists m.
Qed.

Lemma step_item s e r0 m :
  heap s !! r0 = Some m ->
  exists m', heap (step s e) !! r0 = Some m' /\ same_item m m'.
Proof.
  intros H. pose proof (step_store s e) as Hst.
  destruct e;
    try (exists m; split; [|done];
         change (heap (step s ?e)) with (store_view (step s e)).1; by rewrite Hst).
  - by apply onMessage_item.
  - by apply clear_media_item.
Qed.

Lemma run_item evs : forall s r0 m,
  heap s !! r0 = Some m ->
  exists m', heap (run evs s) !! r0 = Some m' /\ same_item m m'.
Proof.
  induction evs as [|e evs IH]; intros s r0 m H; [by exists m|].
  cbn. destruct (step_item s e r0 m H) as (m1 & H1 & S1).
  destruct (IH _ _ _ H1) as (m2 & H2 & S2). exists m2. split; [done|].
  by eapply same_item_trans.
Qed.

Lemma media_key_item type e m m' : same_item m m' -> media_key type m' e = media_key type m e.
Proof. intros (Hu & _ & _). unfold media_key. by rewrite Hu. Qed.

Lemma requestMediaFromServer_first msg m type e s :
  heap s !! msg = Some m ->
  ws_status s = connected -> sourcePort m <> 0 ->
  port_state (sourcePort m) s = connected ->
  loading (media_key type m e) s = false ->
  let s1 := requestMediaFromServer msg type e s in
  sent s1 = sent s ++ [(sourcePort m, MediaRequest type (id m) (truthy_number e))] /\
  loading (media_key type m e) s1 = true.
Proof.
  intros Hm Hws Hp0 Hp Hk. unfold requestMediaFromServer. cbv zeta.
  change (ws_status (set_next_call _ s)) with (ws_status s). rewrite Hws. cbn [negb bool_decide].
  rewrite bool_decide_eq_true_2 by done. cbn [negb].
  change (heap (set_next_call _ s)) with (heap s). rewrite Hm.
  change (loading ?k (set_next_call _ s)) with (loading k s). rewrite Hk.
  unfold sendToPort, ws_send.
  apply Z.eqb_neq in Hp0. rewrite Hp0.
  match goal with |- context [bool_decide (port_state ?p ?s0 = connected)] =>
    change (port_state p s0) with (port_state p s) end.
  rewrite bool_decide_eq_true_2 by done. cbn. unfold loading. cbn.
  by rewrite lookup_insert_eq.
Qed.

Lemma requestMediaFromServer_join msg m type e s :
  heap s !! msg = Some m ->
  loading (media_key type m e) s = true ->
  let s' := requestMediaFromServer msg type e s in
  sent s' = sent s /\ loadingMedia s' = loadingMedia s /\
  (ws_status s = connected ->
   timers s' = timers s ++
     [{| tid := next_timer s; due := (now s + poll_interval)%N;
         period := Some poll_interval;
         action := MediaJoinPoll (next_call s) msg type (media_key type m e) |};
      {| tid := S (next_timer s); due := (now s + single_deadline)%N;
         period := None;
         action := MediaJoinDeadline (next_call s) msg type (next_timer s) |}]).
Proof.
  intros Hm Hk. unfold requestMediaFromServer. cbv zeta.
  change (ws_status (set_next_call _ s)) with (ws_status s).
  destruct (bool_decide (ws_status s = connected)) eqn:Hws; cbn [negb].
  - change (heap (set_next_call _ s)) with (heap s). rewrite Hm.
    change (loading ?k (set_next_call _ s)) with (loading k s). rewrite Hk.
    cbn. split_and!; [done|done|]. intros _. by rewrite <- app_assoc.
  - apply bool_decide_eq_false in Hws. unfold resolve.
    destruct (is_resolved _ _); cbn; split_and!; done.
Qed.

Lemma requestAudioRange_first a b p s :
  ws_status s = connected -> p <> 0 -> port_state p s = connected ->
  loading (range_key a b p) s = false ->
  let s1 := requestAudioRange a b p s in
  sent s1 = sent s ++ [(p, AudioRangeRequest a b)] /\
  loading (range_key a b p) s1 = true.
Proof.
  intros Hws Hp0 Hp Hk. unfold requestAudioRange. cbv zeta.
  change (ws_status (set_next_call _ s)) with (ws_status s).
  rewrite bool_decide_eq_true_2 by done. cbn [negb].
  change (loading ?k (set_next_call _ s)) with (loading k s). rewrite Hk.
  unfold sendToPort, ws_send.
  apply Z.eqb_neq in Hp0. rewrite Hp0.
  match goal with |- context [bool_decide (port_state ?p ?s0 = connected)] =>
    change (port_state p s0) with (port_state p s) end.
  rewrite bool_decide_eq_true_2 by done. cbn. unfold loading. cbn.
  by rewrite lookup_insert_eq.
Qed.

Lemma requestAudioRange_join a b p s :
  loading (range_key a b p) s = true ->
  let s' := requestAudioRange a b p s in
  sent s' = sent s /\ loadingMedia s' = loadingMedia s /\
  (ws_status s = connected ->
   timers s' = timers s ++
     [{| tid := next_timer s; due := (now s + poll_interval)%N;
         period := Some poll_interval;
         action := RangeJoinPoll (next_call s) a b p (range_key a b p) |};
      {| tid := S (next_timer s); due := (now s + range_deadline)%N;
         period := None;
         action := RangeJoinDeadline (next_call s) (next_timer s) |}]).
Proof.
  intros Hk. unfold requestAudioRange. cbv zeta.
  change (ws_status (set_next_call _ s)) with (ws_status s).
  destruct (bool_decide (ws_status s = connected)) eqn:Hws; cbn [negb].
  - change (loading ?k (set_next_call _ s)) with (loading k s). rewrite Hk.
    cbn. split_and!; [done|done|]. intros _. by rewrite <- app_assoc.
  - apply bool_decide_eq_false in Hws. unfold resolve.
    destruct (is_resolved _ _); cbn; split_and!; done.
Qed.

(** C3 (amended): a call made while the pending marker of its key is clear
    and its port connected sets the marker and transmits once; as long as
    no event clears the marker (no response for the key arrives and no
    deadline timer of a transmitting call for the key elapses), the marker
    stays set, and a second call with the same key transmits nothing and
    leaves the marker as it is: while connected, it registers a poll on
    the same key and its own deadline. *)
Theorem second_call_joins_pending (s : state) (evs : list event) :
  (forall msg m type e,
     heap s !! msg = Some m ->
     ws_status s = connected -> sourcePort m <> 0 ->
     port_state (sourcePort m) s = connected ->
     let key := media_key type m e in
     loading key s = false ->
     let s1 := requestMediaFromServer msg type e s in
     undisturbed key evs s1 = true ->
     let s2 := run evs s1 in
     let s3 := requestMediaFromServer msg type e s2 in
     sent s1 = sent s ++ [(sourcePort m, MediaRequest type (id m) (truthy_number e))] /\
     loading key s2 = true /\
     sent s3 = sent s2 /\ loadingMedia s3 = loadingMedia s2 /\
     (ws_status s2 = connected ->
      exists poll deadline,
        timers s3 = timers s2 ++ [poll; deadline] /\
        action poll = MediaJoinPoll (next_call s2) msg type key /\
        period poll = Some poll_interval /\
        action deadline = MediaJoinDeadline (next_call s2) msg type (tid poll) /\
        due deadline = (now s2 + single_deadline)%N)) /\
  (forall a b p,
     ws_status s = connected -> p <> 0 -> port_state p s = connected ->
     let key := range_key a b p in
     loading key s = false ->
     let s1 := requestAudioRange a b p s in
     undisturbed key evs s1 = true ->
     let s2 := run evs s1 in
     let s3 := requestAudioRange a b p s2 in
     sent s1 = sent s ++ [(p, AudioRangeRequest a b)] /\
     loading key s2 = true /\
     sent s3 = sent s2 /\ loadingMedia s3 = loadingMedia s2 /\
     (ws_status s2 = connected ->
      exists poll deadline,
        timers s3 = timers s2 ++ [poll; deadline] /\
        action poll = RangeJoinPoll (next_call s2) a b p key /\
        period poll = Some poll_interval /\
        action deadline = RangeJoinDeadline (next_call s2) (tid poll) /\
        due deadline = (now s2 + range_deadline)%N)).
Proof.
  split.
  - intros msg m type e Hm Hws Hp0 Hp key Hk s1 Hu s2 s3.
    destruct (requestMediaFromServer_first msg m type e s Hm Hws Hp0 Hp Hk) as [Hsent Hk1].
    fold s1 key in Hsent, Hk1.
    assert (Hk2 : loading key s2 = true) by (by apply run_marker).
    destruct (step_item s (CallMedia msg type e) msg m Hm) as (m1 & Hm1 & S1).
    change (step s (CallMedia msg type e)) with s1 in Hm1.
    destruct (run_item evs s1 msg m1 Hm1) as (m2 & Hm2 & S2). fold s2 in Hm2.
    assert (Hkey : media_key type m2 e = key).
    { rewrite (media_key_item type e m1 m2 S2). by apply media_key_item. }
    rewrite <- Hkey in Hk2.
    destruct (requestMediaFromServer_join msg m2 type e s2 Hm2 Hk2) as (H1 & H2 & H3).
    fold s3 in H1, H2, H3. rewrite Hkey in *.
    split_and!; try done.
    intros Hws2. rewrite (H3 Hws2). by eexists _, _.
  - intros a b p Hws Hp0 Hp key Hk s1 Hu s2 s3.
    destruct (requestAudioRange_first a b p s Hws Hp0 Hp Hk) as [Hsent Hk1].
    fold s1 key in Hsent, Hk1.
    assert (Hk2 : loading key s2 = true) by (by apply run_marker).
    destruct (requestAudioRange_join a b p s2 Hk2) as (H1 & H2 & H3).
    fold s3 in H1, H2, H3.
    split_and!; try done.
    intros Hws2. rewrite (H3 Hws2). by eexists _, _.
Qed.

Lemma step_now s e :
  now (step s e) = (now s + match e with Tick => 1 | _ => 0 end)%N.
Proof.
  destruct e; [cbn [step]; rewrite tick_now; lia|..].
  all: rewrite (tl_now s); [lia|apply step_benign; done].
Qed.

Lemma run_now evs : forall s, now (run evs s) = (now s + count_ticks evs)%N.
Proof.
  induction evs as [|e evs IH]; intros s; cbn [run fold_left count_ticks]; [lia|].
  change (fold_left step evs (step s e)) with (run evs (step s e)).
  rewrite IH, step_now. destruct e; lia.
Qed.

Lemma resolve_settles c v s : is_resolved c s = false -> settles c v s (resolve c v s).
Proof. intros H. unfold settles, resolve. by rewrite H. Qed.

Lemma deadline_callbacks c msg type key ci a b p self s :
  is_resolved c s = false ->
  (let s' := run_callback (MediaOwnDeadline c msg type key ci) self s in
   settles c (media_now type msg s) s s' /\
   loadingMedia s' = delete key (loadingMedia s)) /\
  (let s' := run_callback (MediaJoinDeadline c msg type ci) self s in
   settles c (media_now type msg s) s s' /\
   loadingMedia s' = loadingMedia s) /\
  (let s' := run_callback (RangeOwnDeadline c key ci) self s in
   settles c None s s' /\ loadingMedia s' = delete key (loadingMedia s)) /\
  (let s' := run_callback (RangeJoinDeadline c ci) self s in
   settles c None s s' /\ loadingMedia s' = loadingMedia s) /\
  (loading key s = false -> truthy (media_now type msg s) = false ->
   settles c None s (run_callback (MediaJoinPoll c msg type key) self s)) /\
  (loading key s = false -> pendingAudioRange s = None ->
   settles c None s (run_callback (RangeJoinPoll c a b p key) self s)).
Proof.
  intros H. cbn [run_callback].
  assert (Hres : forall v s0, resolved s0 = resolved s -> now s0 = now s ->
                              settles c v s (resolve c v s0)).
  { intros v s0 Hr Hn. unfold settles, resolve, is_resolved in *.
    rewrite Hr, H. cbn. by rewrite Hn. }
  split_and!; try (by rewrite resolve_loadingMedia); try (by apply Hres).
  - intros Hk Hm. rewrite Hm, Hk. cbn. by apply Hres.
  - intros Hk Hp. rewrite Hp, Hk. cbn. by apply Hres.
Qed.

Lemma request_now evs s s1 :
  benign s s1 -> now (run evs s1) = (now s + count_ticks evs)%N.
Proof. intros [Htl _]. by rewrite run_now, (tl_now _ _ Htl). Qed.

(** C6 (amended): from any reachable state, a call settles no later than
    its own deadline, 10 s after it for a single item and 15 s for a
    range, whatever happens meanwhile; a deadline callback settles a call
    not yet settled with the media then on the item (a range call with
    none); the deadline of the call that transmitted deletes the pending
    marker, the deadline of a joiner leaves it, and a joiner that polls
    after the marker is gone, with nothing to return, settles with none. *)
Theorem request_settles_by_deadline (a0 : AnkiSettings) (history evs : list event) :
  let s := run history (init a0) in
  (forall msg type e,
     is_Some (heap s !! msg) ->
     (single_deadline <= count_ticks evs)%N ->
     resolved_by (next_call s) (now s + single_deadline)
       (run evs (requestMediaFromServer msg type e s))) /\
  (forall a b p,
     (range_deadline <= count_ticks evs)%N ->
     resolved_by (next_call s) (now s + range_deadline)
       (run evs (requestAudioRange a b p s))) /\
  (forall c msg type key ci a b p self s0,
     is_resolved c s0 = false ->
     (let s' := run_callback (MediaOwnDeadline c msg type key ci) self s0 in
      settles c (media_now type msg s0) s0 s' /\
      loadingMedia s' = delete key (loadingMedia s0)) /\
     (let s' := run_callback (MediaJoinDeadline c msg type ci) self s0 in
      settles c (media_now type msg s0) s0 s' /\
      loadingMedia s' = loadingMedia s0) /\
     (let s' := run_callback (RangeOwnDeadline c key ci) self s0 in
      settles c None s0 s' /\ loadingMedia s' = delete key (loadingMedia s0)) /\
     (let s' := run_callback (RangeJoinDeadline c ci) self s0 in
      settles c None s0 s' /\ loadingMedia s' = loadingMedia s0) /\
     (loading key s0 = false -> truthy (media_now type msg s0) = false ->
      settles c None s0 (run_callback (MediaJoinPoll c msg type key) self s0)) /\
     (loading key s0 = false -> pendingAudioRange s0 = None ->
      settles c None s0 (run_callback (RangeJoinPoll c a b p key) self s0))).
Proof.
  intros s.
  destruct (run_wf history (init a0)) as [Hwf Hst]; [apply init_wf..|]. fold s in Hwf, Hst.
  destruct (settles_by_deadline_wf s evs Hwf Hst) as [H1 H2].
  split_and!.
  - intros msg type e Hm Hd. apply H1; [done|].
    rewrite (request_now evs s) by apply requestMediaFromServer_benign. lia.
  - intros a b p Hd. apply H2.
    rewrite (request_now evs s) by apply requestAudioRange_benign. lia.
  - intros c msg type key ci a b p self s0 Hc. by apply deadline_callbacks.
Qed.

(** *** Examples *)

Lemma example_store_is_run : example_store = run example_history (init example_anki).
Proof. reflexivity. Qed.

Lemma second_call_joins_pending_witness :
  let s1 := requestMediaFromServer 0 thumbnail_t None example_store in
  let s2 := run (ticks 250 ++ [ClickRow 1 1] ++ ticks 250) s1 in
  let s3 := requestMediaFromServer 0 thumbnail_t None s2 in
  sent s1 = [(61777, MediaRequest thumbnail_t (Fin 1) None)] /\
  loading "thumb-61777-1" s2 = true /\
  sent s3 = sent s2.
Proof.
  destruct (second_call_joins_pending example_store (ticks 250 ++ [ClickRow 1 1] ++ ticks 250))
    as [H _].
  destruct (H 0%nat item_A thumbnail_t None) as (H1 & H2 & H3 & _).
  - reflexivity.
  - vm_compute; reflexivity.
  - vm_compute; discriminate.
  - vm_compute; reflexivity.
  - vm_compute; reflexivity.
  - vm_compute; reflexivity.
  - split; [exact H1|]. split; [exact H2|exact H3].
Defined.

(** C3, as stated, fails: the response to the first call arrives and
    deletes the marker; a second call with the same key, made before the
    first caller's next poll has settled it, transmits again. *)
Lemma response_then_second_call_retransmits :
  let s1 := run ([CallRange (Fin 1) (Fin 2) 61777] ++ ticks 50 ++
                 [WsMessage (audio_range_frame 1 2 "QUJD") 61777] ++ ticks 10)
                example_store in
  let s2 := step s1 (CallRange (Fin 1) (Fin 2) 61777) in
  now s1 = 60%N /\
  is_resolved 0 s1 = false /\
  sent s1 = [(61777, AudioRangeRequest (Fin 1) (Fin 2))] /\
  sent s2 = [(61777, AudioRangeRequest (Fin 1) (Fin 2));
             (61777, AudioRangeRequest (Fin 1) (Fin 2))].
Proof. vm_compute. repeat split; reflexivity. Qed.

(** The deadline timer of a call that settled long ago still deletes the
    marker: the second call is without an answer and within its deadline
    when the third transmits. *)
Lemma stale_deadline_clears_marker :
  let s1 := run ([CallRange (Fin 1) (Fin 2) 61777] ++ ticks 1000 ++
                 [WsMessage (audio_range_frame 1 2 "QUJD") 61777] ++ ticks 1000 ++
                 [CallRange (Fin 1) (Fin 2) 61777] ++ ticks 13000)
                example_store in
  let s2 := step s1 (CallRange (Fin 1) (Fin 2) 61777) in
  now s1 = 15000%N /\
  is_resolved 0 s1 = true /\ is_resolved 1 s1 = false /\
  loading (range_key (Fin 1) (Fin 2) 61777) s1 = false /\
  List.length (sent s1) = 2%nat /\ List.length (sent s2) = 3%nat.
Proof. vm_compute. repeat split; reflexivity. Qed.

Lemma request_settles_by_deadline_witness :
  resolved_by 0 10000
    (run (ticks 10000) (requestMediaFromServer 0 thumbnail_t None example_store)) /\
  resolved_by 0 15000
    (run (ticks 15000) (requestAudioRange (Fin 1) (Fin 2) 61777 example_store)).
Proof.
  destruct (request_settles_by_deadline example_anki example_history (ticks 10000))
    as (H1 & _ & _).
  destruct (request_settles_by_deadline example_anki example_history (ticks 15000))
    as (_ & H2 & _).
  split.
  - apply (H1 0%nat thumbnail_t None); [eexists; reflexivity|vm_compute; discriminate].
  - apply (H2 (Fin 1) (Fin 2) 61777). vm_compute; discriminate.
Defined.

(** C6, as stated, fails: the marker set at 0 by the transmitting call is
    deleted by that call's deadline at 10 s, while the last waiter, which
    joined at 5.05 s, has its own deadline at 15.05 s; that waiter settles
    with none at its next poll, at 10.05 s, not at its deadline. *)
Lemma marker_cleared_before_last_waiter :
  let s := run ([CallMedia 0 thumbnail_t None] ++ ticks 5050 ++
                [CallMedia 0 thumbnail_t None] ++ ticks 4949) example_store in
  let s' := step s Tick in
  let s'' := run (ticks 50) s' in
  loading "thumb-61777-1" s = true /\ resolved s = [] /\
  now s' = 10000%N /\
  loading "thumb-61777-1" s' = false /\
  resolved s' = [{| res_call := 0; res_at := 10000; res_value := None |}] /\
  map due (filter (fun t => period t = None) (timers s')) = [15050%N] /\
  resolved s'' = [{| res_call := 0; res_at := 10000; res_value := None |};
                  {| res_call := 1; res_at := 10050; res_value := None |}].
Proof. vm_compute. repeat split; reflexivity. Qed.


Lemma store_bounded_selection_kept_witness :
  let s' := onMessage (JObj frame_201) 61777 full_store in
  messages s' = tail (messages full_store) ++ [List.length (heap full_store)] /\
  selectedMessages s' = selectedMessages full_store.
Proof.
  destruct store_bounded_selection_kept as (_ & H & Hsel & _).
  edestruct (H full_store frame_201 61777) as [_ Hm].
  - vm_compute; reflexivity.
  - reflexivity.
  - reflexivity.
  - split; [exact Hm|apply Hsel].
Defined.

(** C5, as stated, fails: the oldest item is selected when the 201st
    arrives; it is evicted, its uid stays in the selection set although no
    item of the store has it, and no other item can be selected any more
    until the selection is cleared. *)
Lemma eviction_leaves_selection_dangling :
  let s := full_store in
  let s' := onMessage (JObj frame_201) 61777 s in
  List.length (messages s) = 200%nat /\
  elements (selectedMessages s) = ["61777-1"] /\
  index_of_uid "61777-1" s = 0 /\
  List.length (messages s') = 200%nat /\
  elements (selectedMessages s') = ["61777-1"] /\
  index_of_uid "61777-1" s' = -1 /\
  getSelectedMessages s' = [] /\
  elements (selectedMessages (toggleSelection 1 0 s')) = ["61777-1"].
Proof. vm_compute. repeat split; reflexivity. Qed.

Lemma toggle_selection_contiguous_witness :
  selectedMessages (toggleSelection 0 0 range_B_C)
  = {[ "61777-1" ]} ∪ selectedMessages range_B_C.
Proof.
  destruct (toggle_selection_contiguous range_B_C 0%nat item_A 0) as [_ H].
  - reflexivity.
  - destruct H as [_ H].
    + apply (bool_decide_unpack _). vm_compute. exact I.
    + destruct H as [H _].
      * apply (bool_decide_unpack _). vm_compute. exact I.
      * apply H. left. exists 1. split; [|reflexivity].
        apply head_selectedIndices. vm_compute. reflexivity.
Defined.

(** The selection sequence on the ordered items A, B, C, D: B, then C,
    then A, then D are added; D, two beyond the run A..B, and A, two
    before the run C..D, are rejected; the interior C is kept; the
    boundary D is removed. *)
Lemma selection_sequence :
  let pos evs := selectedIndices (run evs example_store) in
  pos [ClickRow 1 1] = [1] /\
  pos [ClickRow 1 1; ClickRow 2 2] = [1; 2] /\
  pos [ClickRow 1 1; ClickRow 2 2; ClickRow 0 0] = [0; 1; 2] /\
  pos [ClickRow 1 1; ClickRow 2 2; ClickRow 0 0; ClickRow 3 3] = [0; 1; 2; 3] /\
  pos [ClickRow 1 1; ClickRow 0 0; ClickRow 3 3] = [0; 1] /\
  pos [ClickRow 2 2; ClickRow 3 3; ClickRow 0 0] = [2; 3] /\
  pos [ClickRow 1 1; ClickRow 2 2; ClickRow 0 0; ClickRow 3 3; ClickRow 2 2] = [0; 1; 2; 3] /\
  pos [ClickRow 1 1; ClickRow 2 2; ClickRow 0 0; ClickRow 3 3; ClickRow 3 3] = [0; 1; 2].
Proof. vm_compute. repeat split; reflexivity. Qed.


(** ** Further properties of the client *)

(** X8: a frame that is not an object, has no string [type], has a type
    the handler does not know, or lacks a well-typed field its type
    requires, is dropped: the state is left exactly as it was. *)
Theorem malformed_frames_ignored (p : Z) (s : state) :
  (forall d, (forall f, d <> JObj f) -> onMessage d p s = s) /\
  (forall f, asString (field f "type") = None -> onMessage (JObj f) p s = s) /\
  (forall f t, field f "type" = Some (JStr t) -> t ∉ known_types ->
               onMessage (JObj f) p s = s) /\
  (forall f, field f "type" = Some (JStr "subtitle") ->
             asNumber (field f "id") = None \/ asString (field f "subtitle") = None \/
             asNumber (field f "sub_start") = None \/ asNumber (field f "sub_end") = None ->
             onMessage (JObj f) p s = s) /\
  (forall f t, field f "type" = Some (JStr t) -> t = "thumbnail" \/ t = "audio" ->
               asNumber (field f "id") = None \/ asString (field f "data") = None ->
               onMessage (JObj f) p s = s) /\
  (forall f, field f "type" = Some (JStr "audio_range") ->
             asNumber (field f "start_id") = None \/ asNumber (field f "end_id") = None \/
             asString (field f "data") = None ->
             onMessage (JObj f) p s = s).
Proof.
  split_and!.
  - intros d Hd. destruct d; try done. by destruct (Hd fields).
  - intros f Hf. cbn. by destruct (field f "type") as [[]|].
  - intros f t Hf Ht. cbn. rewrite Hf.
    destruct (String.eqb_spec t "subtitle") as [->|_].
    { destruct Ht. unfold known_types. set_solver. }
    destruct (String.eqb_spec t "thumbnail") as [->|_].
    { destruct Ht. unfold known_types. set_solver. }
    destruct (String.eqb_spec t "audio") as [->|_].
    { destruct Ht. unfold known_types. set_solver. }
    destruct (String.eqb_spec t "audio_range") as [->|_]; [|done].
    destruct Ht. unfold known_types. set_solver.
  - intros f Hf H. cbn. rewrite Hf. cbn. unfold parseSubtitleMessage.
    destruct H as [-> | [-> | [-> | ->]]]; repeat break_match; done.
  - intros f t Hf Ht H. cbn. rewrite Hf. unfold parseMediaMessage.
    destruct Ht as [-> | ->]; cbn;
      destruct H as [-> | ->]; repeat break_match; done.
  - intros f Hf H. cbn. rewrite Hf. cbn. unfold parseAudioRangeMessage.
    destruct H as [-> | [-> | ->]]; repeat break_match; done.
Qed.

Lemma port_connected_status p s : port_state p s = connected -> ws_status s = connected.
Proof.
  unfold port_state, ws_status. intros H.
  destruct (List.find _ (connections s)) as [[q c]|] eqn:Hf; [|done].
  cbn in H. subst c. apply find_some in Hf as [Hin _].
  assert (E : existsb (fun e : Z * connectionState => bool_decide (e.2 = connected))
                (connections s) = true).
  { apply existsb_exists. exists (q, connected). split; [done|]. by apply bool_decide_eq_true. }
  by rewrite E.
Qed.

Lemma button_key_wf type m :
  uid_wf m ->
  button_key type m
  = (media_prefix type ++ "-" ++ show_Z (sourcePort m) ++ "-" ++ show_number (id m))%string.
Proof. intros H. unfold button_key. by rewrite H. Qed.

Lemma click_media_first type r m s :
  heap s !! r = Some m ->
  port_state (sourcePort m) s = connected -> sourcePort m <> 0 ->
  truthy (media_of type m) = false ->
  loading (button_key type m) s = false ->
  click_media type r s
  = set_loadingMedia (<[button_key type m := true]> (loadingMedia s))
      (set_sent (sent s ++ [(sourcePort m, MediaRequest type (id m) None)]) s).
Proof.
  intros Hm Hp Hp0 Hmedia Hk.
  pose proof (port_connected_status _ _ Hp) as Hws.
  apply Z.eqb_neq in Hp0.
  destruct type; cbn in *; unfold requestThumbnail, requestAudio;
    rewrite Hm, Hws, Hmedia; cbn [negb bool_decide orb];
    rewrite bool_decide_eq_true_2 by done; cbn [negb orb];
    change ("thumb-" ++ uid m)%string with (button_key thumbnail_t m);
    change ("audio-" ++ uid m)%string with (button_key audio_t m);
    rewrite Hk; unfold sendToPort, ws_send; rewrite Hp0, Hp;
    rewrite bool_decide_eq_true_2 by done; done.
Qed.

Lemma click_media_cached type r m s :
  heap s !! r = Some m -> truthy (media_of type m) = true -> click_media type r s = s.
Proof.
  intros Hm Hmedia.
  destruct type; cbn in *; unfold requestThumbnail, requestAudio; rewrite Hm, Hmedia.
  - by rewrite orb_true_r.
  - by destruct (negb _).
Qed.

Lemma media_frame_effect type r m dat s :
  heap s !! r = Some m -> uid_wf m -> Number_isFinite (id m) = true ->
  find_message (id m) (sourcePort m) s = Some r ->
  onMessage (media_frame type (id m) dat) (sourcePort m) s
  = set_loadingMedia (delete (button_key type m) (loadingMedia s))
      (set_heap (<[r := match type with
                        | thumbnail_t => set_thumbnail (Some dat) m
                        | audio_t => set_audio (Some dat) m
                        end]> (heap s)) s).
Proof.
  intros Hm Hwf Hfin Hfind. rewrite (button_key_wf type m Hwf).
  destruct type; cbn; unfold parseMediaMessage; cbn; rewrite Hfin, Hfind;
    unfold update_message; rewrite Hm; done.
Qed.

(** X9: the request of a row's button and the response of the server
    meet on the same marker.  Pressing the thumbnail (or audio) button of a
    stored item whose port is connected transmits one request and sets the
    item's marker; the response frame with the item's id, on the item's
    port, stores the data on the item and clears that marker; pressing the
    button again then sends nothing, the media being cached. *)
Theorem button_request_answered (type : media_type) (r : nat) (m : SubtitleMessage)
    (dat : string) (s : state) :
  heap s !! r = Some m -> uid_wf m -> Number_isFinite (id m) = true ->
  find_message (id m) (sourcePort m) s = Some r ->
  port_state (sourcePort m) s = connected -> sourcePort m <> 0 ->
  truthy (media_of type m) = false ->
  loading (button_key type m) s = false ->
  dat <> "" ->
  let s1 := click_media type r s in
  let s2 := onMessage (media_frame type (id m) dat) (sourcePort m) s1 in
  sent s1 = sent s ++ [(sourcePort m, MediaRequest type (id m) None)] /\
  loading (button_key type m) s1 = true /\
  media_now type r s2 = Some dat /\
  loading (button_key type m) s2 = false /\
  sent s2 = sent s1 /\
  click_media type r s2 = s2.
Proof.
  intros Hm Hwf Hfin Hfind Hp Hp0 Hmedia Hk Hdat s1 s2.
  assert (E1 : s1 = set_loadingMedia (<[button_key type m := true]> (loadingMedia s))
                      (set_sent (sent s ++ [(sourcePort m, MediaRequest type (id m) None)]) s))
    by (by apply click_media_first).
  assert (E2 : s2 = set_loadingMedia (delete (button_key type m) (loadingMedia s1))
                      (set_heap (<[r := match type with
                                        | thumbnail_t => set_thumbnail (Some dat) m
                                        | audio_t => set_audio (Some dat) m
                                        end]> (heap s1)) s1)).
  { subst s2. apply media_frame_effect; rewrite ?E1; done. }
  clearbody s1 s2.
  assert (Hlen : (r < List.length (heap s1))%nat).
  { rewrite E1. cbn. by eapply lookup_lt_Some. }
  split_and!.
  - by rewrite E1.
  - rewrite E1. unfold loading. cbn. by rewrite lookup_insert_eq.
  - rewrite E2. unfold media_now. cbn. rewrite list_lookup_insert_eq by done.
    by destruct type.
  - rewrite E2. unfold loading. cbn. by rewrite lookup_delete_eq.
  - by rewrite E2.
  - eapply click_media_cached.
    + rewrite E2. cbn. by apply list_lookup_insert_eq.
    + destruct type; cbn; by destruct (String.eqb_spec dat "").
Qed.

Lemma str_app_assoc (a b c : string) : ((a ++ b) ++ c = a ++ (b ++ c))%string.
Proof.
  induction a as [|x a IH]; [done|].
  change (String x ((a ++ b) ++ c) = String x (a ++ (b ++ c)))%string. by rewrite IH.
Qed.

Lemma str_app_inv_head (a b c : string) : (a ++ b = a ++ c)%string -> b = c.
Proof.
  induction a as [|x a IH]; [done|].
  change (String x (a ++ b) = String x (a ++ c) -> b = c)%string.
  intros [= E]. by apply IH.
Qed.

Lemma no_dash_app_dash (a b : string) : ~ no_dash (a ++ "-" ++ b).
Proof.
  induction a as [|x a IH].
  - intros [H _]. by apply H.
  - change (~ no_dash (String x (a ++ "-" ++ b))). intros [_ H]. by apply IH.
Qed.

Lemma show_Z_dash z (a b : string) : show_Z z = (a ++ "-" ++ b)%string -> a = "".
Proof.
  unfold show_Z. destruct (Z.to_int z) as [d|d]; cbn [NilZero.string_of_int].
  - intros E. destruct (no_dash_uint d) as [Hn _]. rewrite E in Hn.
    by apply no_dash_app_dash in Hn.
  - destruct a as [|x a]; [done|].
    change (String "-" (NilZero.string_of_uint d) = String x (a ++ "-" ++ b) -> String x a = "").
    intros [= _ E]. destruct (no_dash_uint d) as [Hn _]. rewrite E in Hn.
    by apply no_dash_app_dash in Hn.
Qed.

Lemma show_Z_nonempty z : show_Z z <> "".
Proof.
  unfold show_Z. destruct (Z.to_int z) as [d|d]; cbn [NilZero.string_of_int]; [|done].
  apply no_dash_uint.
Qed.

Lemma show_number_nonempty n : show_number n <> "".
Proof. destruct n; cbn; try done. apply show_Z_nonempty. Qed.

Lemma asNumber_Fin v n : asNumber v = Some n -> exists z, n = Fin z.
Proof.
  destruct v as [[| |k| | |]|]; try done. cbn.
  destruct k; cbn; try done. intros [= <-]. by eexists.
Qed.

(** No response for an item has the key of a request with an end id. *)
Lemma item_key_not_ranged (p : Z) (i : number) (m : SubtitleMessage) (e : number) :
  uid_wf m -> (exists z, i = Fin z) ->
  (show_Z p ++ "-" ++ show_number i)%string <> (uid m ++ "-" ++ show_number e)%string.
Proof.
  intros Hwf [z ->] E. rewrite Hwf in E. rewrite str_app_assoc in E.
  pose proof (uid_port_inj _ _ _ _ E) as ->.
  apply str_app_inv_head in E.
  change (("-" ++ show_number (Fin z))%string = ("-" ++ show_number (id m) ++ "-" ++ show_number e)%string) in E.
  injection E as E. cbn [show_number] in E.
  apply show_Z_dash in E. by apply show_number_nonempty in E.
Qed.

Lemma response_key_not_ranged d p type m e :
  uid_wf m -> number_truthy e = true ->
  response_key d p <> Some (media_key type m (Some e)).
Proof.
  intros Hwf He. unfold media_key. rewrite He.
  destruct d as [| | | | |f]; try done. cbn.
  destruct (field f "type") as [[| | |t| |]|]; try done.
  destruct (String.eqb t "subtitle"); [done|].
  destruct (String.eqb t "thumbnail" || String.eqb t "audio").
  - unfold parseMediaMessage.
    destruct (asNumber (field f "id")) as [i|] eqn:Hi; [|done].
    destruct (asString (field f "data")); [|done].
    apply asNumber_Fin in Hi.
    destruct (String.eqb t "thumbnail"), type; cbn; intros [= E];
      by apply (item_key_not_ranged p i m e).
  - destruct (String.eqb t "audio_range"); [|done].
    destruct (parseAudioRangeMessage f) as [[[a b] dat]|]; [|done].
    unfold range_key. by destruct type.
Qed.

Lemma frames_keep_ranged_marker type m e frames : forall s,
  uid_wf m -> number_truthy e = true ->
  loadingMedia (run (map (fun f : JsonValue * Z => WsMessage f.1 f.2) frames) s)
    !! media_key type m (Some e)
  = loadingMedia s !! media_key type m (Some e).
Proof.
  induction frames as [|[d p] frames IH]; intros s Hwf He; [done|].
  cbn. rewrite IH by done. rewrite onMessage_loadingMedia.
  pose proof (response_key_not_ranged d p type m e Hwf He) as Hne.
  destruct (response_key d p) as [k|]; [|done].
  apply lookup_delete_ne. congruence.
Qed.

(** X10: a request for the media of a range (a thumbnail for the first
    item with an end id, as the export makes for a selection of several
    items) is filed under a key that ends with the end id, while a response
    is matched under the key of its port and id alone.  The two never
    coincide: no inbound frame, whatever it holds, clears the marker of
    such a request; it stays set until the deadline of the request. *)
Theorem ranged_marker_outlives_responses (type : media_type) (r : nat) (m : SubtitleMessage)
    (e : number) (frames : list (JsonValue * Z)) (s : state) :
  heap s !! r = Some m -> uid_wf m -> number_truthy e = true ->
  port_state (sourcePort m) s = connected -> sourcePort m <> 0 ->
  loading (media_key type m (Some e)) s = false ->
  let s1 := requestMediaFromServer r type (Some e) s in
  let s2 := run (map (fun f : JsonValue * Z => WsMessage f.1 f.2) frames) s1 in
  sent s1 = sent s ++ [(sourcePort m, MediaRequest type (id m) (Some e))] /\
  loading (media_key type m (Some e)) s1 = true /\
  loading (media_key type m (Some e)) s2 = true.
Proof.
  intros Hm Hwf He Hp Hp0 Hk s1 s2.
  destruct (requestMediaFromServer_first r m type (Some e) s Hm
              (port_connected_status _ _ Hp) Hp0 Hp Hk) as [H1 H2].
  cbn [truthy_number] in H1. rewrite He in H1.
  split_and!; [exact H1|exact H2|].
  subst s2. unfold loading in *. by rewrite frames_keep_ranged_marker.
Qed.

Lemma omap_lookup_valid {A B} (f : A -> option B) (l : list A) : forall k,
  Forall (fun x => is_Some (f x)) l -> omap f l !! k = l !! k ≫= f.
Proof.
  induction l as [|x l IH]; intros k H; [done|].
  apply Forall_cons in H as [[y Hy] H]. cbn. rewrite Hy.
  destruct k as [|k]; cbn; [done|]. by apply IH.
Qed.

Lemma store_lookup s k msg :
  Forall (fun r => is_Some (heap s !! r)) (messages s) ->
  messages s !! k = Some msg -> store s !! k = heap s !! msg.
Proof.
  intros H Hk. unfold store. rewrite omap_lookup_valid by done. by rewrite Hk.
Qed.

Lemma findIndex_from_found {A} (p : A -> bool) (l : list A) : forall i k x,
  l !! k = Some x -> p x = true ->
  (forall j y, (j < k)%nat -> l !! j = Some y -> p y = false) ->
  findIndex_from p l i = i + Z.of_nat k.
Proof.
  induction l as [|a l IH]; intros i k x Hk Hx Hlt; [done|].
  destruct k as [|k]; cbn in *.
  - injection Hk as ->. rewrite Hx. lia.
  - rewrite (Hlt 0%nat a) by (done || lia).
    rewrite (IH (i + 1) k x Hk Hx).
    + lia.
    + intros j y Hj Hy. apply (Hlt (S j) y); [lia|done].
Qed.

Lemma findIndex_from_none {A} (p : A -> bool) (l : list A) : forall i,
  (forall x, x ∈ l -> p x = false) -> findIndex_from p l i = -1.
Proof.
  induction l as [|a l IH]; intros i H; [done|]. cbn.
  rewrite (H a) by left. apply IH. intros x Hx. apply H. by right.
Qed.

Lemma index_of_uid_row s k u :
  NoDup (store_uids s) -> store_uids s !! k = Some u -> index_of_uid u s = Z.of_nat k.
Proof.
  intros Hnd Hk. unfold index_of_uid, findIndex.
  unfold store_uids in *. rewrite list_lookup_fmap in Hk.
  destruct (store s !! k) as [m|] eqn:Hm; [|done]. injection Hk as Hu.
  rewrite (findIndex_from_found _ _ 0 k m Hm); [lia|by apply String.eqb_eq|].
  intros j y Hj Hy. apply String.eqb_neq. intros E.
  assert (j = k); [|lia].
  apply (NoDup_lookup _ j k u Hnd); rewrite list_lookup_fmap.
  - by rewrite Hy; cbn; rewrite E.
  - by rewrite Hm; cbn; rewrite Hu.
Qed.

Lemma index_of_uid_absent s u : u ∉ store_uids s -> index_of_uid u s = -1.
Proof.
  intros H. unfold index_of_uid, findIndex. apply findIndex_from_none.
  intros m Hm. apply String.eqb_neq. intros E. apply H.
  unfold store_uids. apply list_elem_of_fmap. by exists m.
Qed.

Lemma selected_positions_rows lo n s x :
  NoDup (store_uids s) -> selects_rows lo n s ->
  x ∈ selected_positions s <-> exists k, (lo <= k < lo + n)%nat /\ x = Z.of_nat k.
Proof.
  intros Hnd [Hlen Hsel]. unfold selected_positions.
  rewrite list_elem_of_filter, list_elem_of_fmap. split.
  - intros [Hx (u & -> & Hu)]. apply elem_of_elements, Hsel in Hu as (k & Hk & Hu).
    exists k. split; [done|]. by apply index_of_uid_row.
  - intros (k & Hk & ->).
    destruct (lookup_lt_is_Some_2 (store_uids s) k) as [u Hu]; [lia|].
    split; [lia|]. exists u. split; [by rewrite (index_of_uid_row s k u)|].
    apply elem_of_elements, Hsel. by exists k.
Qed.

Lemma is_min_rows lo n s x :
  NoDup (store_uids s) -> selects_rows lo n s ->
  is_min x (selected_positions s) <-> (0 < n)%nat /\ x = Z.of_nat lo.
Proof.
  intros Hnd Hsel. unfold is_min.
  setoid_rewrite (selected_positions_rows lo n s _ Hnd Hsel). split.
  - intros [(k & Hk & ->) Hmin]. split; [lia|].
    assert (Z.of_nat k <= Z.of_nat lo) by (apply Hmin; exists lo; lia). lia.
  - intros [Hn ->]. split; [exists lo; lia|]. intros y (k & Hk & ->). lia.
Qed.

Lemma is_max_rows lo n s x :
  NoDup (store_uids s) -> selects_rows lo n s ->
  is_max x (selected_positions s) <-> (0 < n)%nat /\ x = Z.of_nat (lo + n - 1).
Proof.
  intros Hnd Hsel. unfold is_max.
  setoid_rewrite (selected_positions_rows lo n s _ Hnd Hsel). split.
  - intros [(k & Hk & ->) Hmax]. split; [lia|].
    assert (Z.of_nat (lo + n - 1) <= Z.of_nat k)
      by (apply Hmax; exists (lo + n - 1)%nat; lia).
    lia.
  - intros [Hn ->]. split; [exists (lo + n - 1)%nat; lia|]. intros y (k & Hk & ->). lia.
Qed.

Lemma toggle_contiguous s k msg :
  store_ok s -> contiguous s -> messages s !! k = Some msg ->
  contiguous (toggleSelection msg (Z.of_nat k) s).
Proof.
  intros [Hnd Hval] (lo & n & Hsel) Hk.
  destruct (Forall_lookup_1 _ _ _ _ Hval Hk) as [m Hm].
  assert (Hrow : store_uids s !! k = Some (uid m)).
  { unfold store_uids. rewrite list_lookup_fmap, (store_lookup s k msg Hval Hk), Hm. done. }
  pose proof (lookup_lt_Some _ _ _ Hrow) as Hklen.
  pose proof (is_min_rows lo n s (Z.of_nat k) Hnd Hsel) as Hmin.
  pose proof (is_max_rows lo n s (Z.of_nat k) Hnd Hsel) as Hmax.
  destruct Hsel as [Hlen Hsel].
  assert (Huniq : forall j, store_uids s !! j = Some (uid m) -> j = k).
  { intros j Hj. by apply (NoDup_lookup _ j k (uid m) Hnd). }
  unfold toggleSelection. rewrite Hm. cbv zeta.
  destruct (decide (uid m ∈ selectedMessages s)) as [Hin|Hnin].
  - apply Hsel in Hin as (k' & Hk' & Hu'). apply Huniq in Hu' as ->.
    destruct (bool_decide _ || bool_decide _) eqn:Hb; [|by exists lo, n].
    apply boundary_test in Hb as [[Hn E]%Hmin | [Hn E]%Hmax].
    + assert (k = lo) as -> by lia.
      exists (S lo), (n - 1)%nat. split; [change (store_uids _) with (store_uids s); lia|].
      intros u. change (store_uids _) with (store_uids s). cbn.
      rewrite elem_of_difference, elem_of_singleton, Hsel. split.
      * intros [(j & Hj & Hu) Hne]. exists j. split; [|done].
        assert (j <> lo) by (intros ->; congruence). lia.
      * intros (j & Hj & Hu). split; [exists j; split; [lia|done]|].
        intros ->. apply Huniq in Hu. lia.
    + assert (k = lo + n - 1)%nat as -> by lia.
      exists lo, (n - 1)%nat. split; [change (store_uids _) with (store_uids s); lia|].
      intros u. change (store_uids _) with (store_uids s). cbn.
      rewrite elem_of_difference, elem_of_singleton, Hsel. split.
      * intros [(j & Hj & Hu) Hne]. exists j. split; [|done].
        assert (j <> lo + n - 1)%nat by (intros ->; congruence). lia.
      * intros (j & Hj & Hu). split; [exists j; split; [lia|done]|].
        intros ->. apply Huniq in Hu. lia.
  - destruct (decide (size (selectedMessages s) = 0%nat)) as [Hsize|Hsize].
    + apply size_empty_inv in Hsize. apply leibniz_equiv in Hsize.
      exists k, 1%nat. split; [change (store_uids _) with (store_uids s); lia|].
      intros u. change (store_uids _) with (store_uids s). cbn.
      rewrite Hsize, elem_of_union, elem_of_singleton. split.
      * intros [->|Hu]; [|by apply elem_of_empty in Hu]. exists k. split; [lia|done].
      * intros (j & Hj & Hu). left. assert (j = k) as -> by lia. congruence.
    + assert (Hn : (0 < n)%nat).
      { destruct (decide (n = 0%nat)) as [->|]; [|lia]. destruct Hsize.
        apply size_empty_iff, elem_of_equiv_empty.
        intros u Hu. apply Hsel in Hu as (j & Hj & _). lia. }
      destruct ((_ =? _) || (_ =? _)) eqn:Hb; [|by exists lo, n].
      apply adjacent_test in Hb as [(x & Hx & E) | (x & Hx & E)].
      * apply (is_min_rows lo n s x Hnd (conj Hlen Hsel)) in Hx as [_ ->].
        exists k, (S n). split; [change (store_uids _) with (store_uids s); lia|].
        intros u. change (store_uids _) with (store_uids s). cbn.
        rewrite elem_of_union, elem_of_singleton, Hsel. split.
        -- intros [->|(j & Hj & Hu)]; [exists k; split; [lia|done]|].
           exists j. split; [lia|done].
        -- intros (j & Hj & Hu). destruct (decide (j = k)) as [->|Hne].
           ++ left. congruence.
           ++ right. exists j. split; [lia|done].
      * apply (is_max_rows lo n s x Hnd (conj Hlen Hsel)) in Hx as [_ ->].
        exists lo, (S n). split; [change (store_uids _) with (store_uids s); lia|].
        intros u. change (store_uids _) with (store_uids s). cbn.
        rewrite elem_of_union, elem_of_singleton, Hsel. split.
        -- intros [->|(j & Hj & Hu)]; [exists k; split; [lia|done]|].
           exists j. split; [lia|done].
        -- intros (j & Hj & Hu). destruct (decide (j = k)) as [->|Hne].
           ++ left. congruence.
           ++ right. exists j. split; [lia|done].
Qed.

Lemma toggle_store msg index s : store_view (toggleSelection msg index s) = store_view s.
Proof.
  unfold toggleSelection. destruct (heap s !! msg); [|done]. cbv zeta.
  repeat case_decide; repeat break_match; done.
Qed.

Lemma row_click_step s0 s e :
  store_view s = store_view s0 -> store_ok s -> contiguous s -> row_click s0 e ->
  store_view (step s e) = store_view s0 /\ store_ok (step s e) /\ contiguous (step s e).
Proof.
  intros Hv Hok Hc [->|(k & msg & -> & Hk)]; cbn.
  - split_and!; [done|done|]. exists 0%nat, 0%nat. split; [cbn; lia|].
    intros u. cbn. split; [by intros ?%elem_of_empty|]. intros (j & ? & _). lia.
  - assert (Hm : messages s !! k = Some msg).
    { injection Hv as _ ->. done. }
    pose proof (toggle_store msg (Z.of_nat k) s) as Hst.
    split_and!.
    + by rewrite Hst.
    + unfold store_ok, store_uids, store in *. injection Hst as -> ->. done.
    + by apply toggle_contiguous.
Qed.

(** X11: on a store that holds no uid twice, the selection stays a run of
    consecutive rows whatever rows are clicked, in whatever order: clicks
    on rows and on the clear button never produce a selection with a gap,
    and never touch the store. *)
Theorem selection_stays_contiguous (s : state) (evs : list event) :
  store_ok s -> contiguous s -> Forall (row_click s) evs ->
  store_view (run evs s) = store_view s /\ contiguous (run evs s).
Proof.
  intros Hok Hc Hevs.
  enough (H : forall s1, store_view s1 = store_view s -> store_ok s1 -> contiguous s1 ->
                         store_view (run evs s1) = store_view s /\ contiguous (run evs s1))
    by (by apply H).
  induction Hevs as [|e evs He Hevs IH]; intros s1 Hv Hok1 Hc1; [done|].
  cbn. destruct (row_click_step s s1 e Hv Hok1 Hc1 He) as (H1 & H2 & H3).
  by apply IH.
Qed.

Lemma insert_sorted_perm_by {A} (key : A -> Z) x l : insert_sorted key x l ≡ₚ x :: l.
Proof.
  induction l as [|y l IH]; cbn; [done|].
  destruct (key x <=? key y); [done|]. rewrite IH. apply Permutation_swap.
Qed.

Lemma sort_by_perm {A} (key : A -> Z) l : sort_by key l ≡ₚ l.
Proof.
  induction l as [|x l IH]; [done|].
  unfold sort_by in *. cbn. rewrite insert_sorted_perm_by. by rewrite IH.
Qed.

Lemma insert_sorted_sorted_by {A} (key : A -> Z) x l :
  StronglySorted (fun a b => key a <= key b) l ->
  StronglySorted (fun a b => key a <= key b) (insert_sorted key x l).
Proof.
  induction 1 as [|y l Hs IH Hall]; cbn.
  - repeat constructor.
  - destruct (key x <=? key y) eqn:Hxy.
    + apply Z.leb_le in Hxy. constructor; [by constructor|].
      constructor; [done|]. eapply Forall_impl; [exact Hall|]. cbn. intros; lia.
    + apply Z.leb_gt in Hxy. constructor; [done|].
      rewrite insert_sorted_perm_by. constructor; [lia|done].
Qed.

Lemma sort_by_sorted {A} (key : A -> Z) l :
  StronglySorted (fun a b => key a <= key b) (sort_by key l).
Proof.
  induction l as [|x l IH]; [constructor|].
  unfold sort_by in *. cbn. by apply insert_sorted_sorted_by.
Qed.

Lemma sort_by_head {A} (key : A -> Z) l x :
  head (sort_by key l) = Some x -> x ∈ l /\ forall y, y ∈ l -> key x <= key y.
Proof.
  intros H. pose proof (sort_by_sorted key l) as Hs. pose proof (sort_by_perm key l) as Hp.
  destruct (sort_by key l) as [|a l']; [done|]. injection H as ->.
  apply StronglySorted_inv in Hs as [_ Hall]. rewrite Forall_forall in Hall.
  split; [rewrite <- Hp; left|].
  intros y Hy. rewrite <- Hp in Hy. apply elem_of_cons in Hy as [->|Hy]; [lia|by apply Hall].
Qed.

Lemma sorted_last_by {A} (key : A -> Z) l x :
  StronglySorted (fun a b => key a <= key b) l ->
  last l = Some x -> x ∈ l /\ forall y, y ∈ l -> key y <= key x.
Proof.
  induction 1 as [|a l Hs IH Hall]; intros H; [done|].
  rewrite Forall_forall in Hall.
  destruct l as [|b l].
  - injection H as ->. split; [left|].
    intros y Hy. apply list_elem_of_singleton in Hy as ->. lia.
  - change (last (a :: b :: l)) with (last (b :: l)) in H.
    destruct (IH H) as [Hx Hmax].
    split; [by right|].
    intros y Hy. apply elem_of_cons in Hy as [->|Hy]; [|by apply Hmax].
    by apply Hall.
Qed.

Lemma sort_by_last {A} (key : A -> Z) l x :
  last (sort_by key l) = Some x -> x ∈ l /\ forall y, y ∈ l -> key y <= key x.
Proof.
  intros H. apply (sorted_last_by key) in H as [Hx Hmax]; [|apply sort_by_sorted].
  pose proof (sort_by_perm key l) as Hp. split; [by rewrite <- Hp|].
  intros y Hy. apply Hmax. by rewrite Hp.
Qed.

Lemma omap_length_valid {A B} (f : A -> option B) (l : list A) :
  Forall (fun x => is_Some (f x)) l -> List.length (omap f l) = List.length l.
Proof.
  induction 1 as [|x l [y Hy] H IH]; [done|]. cbn. rewrite Hy. cbn. by rewrite IH.
Qed.

Lemma selected_row s lo n k r :
  store_ok s -> selects_rows lo n s -> messages s !! k = Some r ->
  is_selected s r = true <-> (lo <= k < lo + n)%nat.
Proof.
  intros [Hnd Hval] [Hlen Hsel] Hk.
  destruct (Forall_lookup_1 _ _ _ _ Hval Hk) as [m Hm].
  assert (Hrow : store_uids s !! k = Some (uid m)).
  { unfold store_uids. rewrite list_lookup_fmap, (store_lookup s k r Hval Hk), Hm. done. }
  unfold is_selected. rewrite Hm, bool_decide_eq_true, Hsel. split.
  - intros (j & Hj & Hu). by rewrite <- (NoDup_lookup _ j k (uid m) Hnd Hu Hrow).
  - intros Hj. by exists k.
Qed.

Lemma selected_key s k r :
  store_ok s -> messages s !! k = Some r ->
  index_of_uid (uid_of s r) s = Z.of_nat k.
Proof.
  intros [Hnd Hval] Hk.
  destruct (Forall_lookup_1 _ _ _ _ Hval Hk) as [m Hm].
  unfold uid_of. rewrite Hm. apply index_of_uid_row; [done|].
  unfold store_uids. by rewrite list_lookup_fmap, (store_lookup s k r Hval Hk), Hm.
Qed.

(** X12: on a store that holds no uid twice, the range the audio and
    export operations work on runs from the first to the last selected
    row: for a selection of the [n] rows from position [lo] on,
    [getSelectionRange] returns the objects displayed at [lo] and at
    [lo + n - 1]. *)
Theorem selection_range_endpoints (s : state) (lo n : nat) :
  store_ok s -> selects_rows lo n s -> (0 < n)%nat ->
  exists first last,
    getSelectionRange s = Some (first, last) /\
    messages s !! lo = Some first /\ messages s !! (lo + n - 1)%nat = Some last.
Proof.
  intros Hok Hsel Hn.
  assert (Hlen : (lo + n <= List.length (messages s))%nat).
  { destruct Hok as [_ Hval], Hsel as [Hlen _]. unfold store_uids, store in Hlen.
    by rewrite length_fmap, omap_length_valid in Hlen. }
  assert (Hmem : forall r, r ∈ getSelectedMessages s <->
                           exists k, messages s !! k = Some r /\ (lo <= k < lo + n)%nat).
  { intros r. unfold getSelectedMessages. rewrite list_elem_of_In, filter_In, <- list_elem_of_In.
    rewrite list_elem_of_lookup. split.
    - intros [[k Hk] Hr]. exists k. split; [done|]. by apply (selected_row s lo n k r).
    - intros (k & Hk & Hr). split; [by exists k|]. by apply (selected_row s lo n k r). }
  destruct (lookup_lt_is_Some_2 (messages s) lo) as [r_lo Hlo]; [lia|].
  destruct (lookup_lt_is_Some_2 (messages s) (lo + n - 1)) as [r_hi Hhi]; [lia|].
  assert (Hne : getSelectedMessages s <> []).
  { intros E. assert (H : r_lo ∈ getSelectedMessages s) by (apply Hmem; exists lo; split; [done|lia]).
    rewrite E in H. by apply elem_of_nil in H. }
  unfold getSelectionRange. rewrite decide_False by (by intros ?%nil_length_inv).
  pose proof (sort_by_nonempty (fun r => index_of_uid (uid_of s r) s) _ Hne) as Hs.
  destruct (head (sort_by _ (getSelectedMessages s))) as [first|] eqn:Hfirst.
  2:{ by apply head_None in Hfirst. }
  destruct (last (sort_by _ (getSelectedMessages s))) as [lst|] eqn:Hlast.
  2:{ by apply last_None in Hlast. }
  exists first, lst. split; [done|].
  apply sort_by_head in Hfirst as [Hf Hfmin]. apply sort_by_last in Hlast as [Hl Hlmax].
  apply Hmem in Hf as (kf & Hkf & Hrf). apply Hmem in Hl as (kl & Hkl & Hrl).
  assert (Hklo : r_lo ∈ getSelectedMessages s) by (apply Hmem; exists lo; split; [done|lia]).
  assert (Hkhi : r_hi ∈ getSelectedMessages s)
    by (apply Hmem; exists (lo + n - 1)%nat; split; [done|lia]).
  specialize (Hfmin _ Hklo). specialize (Hlmax _ Hkhi). cbn in Hfmin, Hlmax.
  rewrite (selected_key s kf first Hok Hkf), (selected_key s lo r_lo Hok Hlo) in Hfmin.
  rewrite (selected_key s kl lst Hok Hkl), (selected_key s _ r_hi Hok Hhi) in Hlmax.
  assert (kf = lo) as -> by lia. assert (kl = lo + n - 1)%nat as -> by lia.
  done.
Qed.

Lemma fold_update_heap (f : SubtitleMessage -> SubtitleMessage) (l : list nat) :
  (forall m, f (f m) = f m) ->
  forall s r,
    heap (fold_left (fun s r => update_message r f s) l s) !! r
    = if decide (r ∈ l) then f <$> heap s !! r else heap s !! r.
Proof.
  intros Hf. induction l as [|a l IH]; intros s r; [done|].
  cbn. rewrite IH.
  assert (Hup : heap (update_message a f s) !! r
                = if decide (r = a) then f <$> heap s !! r else heap s !! r).
  { unfold update_message. destruct (heap s !! a) as [m|] eqn:Hm.
    - cbn. case_decide as E.
      + subst r. rewrite list_lookup_insert_eq by (by eapply lookup_lt_Some). by rewrite Hm.
      + by rewrite list_lookup_insert_ne.
    - case_decide as E; [|done]. subst r. by rewrite Hm. }
  rewrite Hup.
  destruct (decide (r ∈ l)) as [Hl|Hl], (decide (r = a)) as [->|Ha].
  - rewrite decide_True by left. destruct (heap s !! a); cbn; by rewrite ?Hf.
  - by rewrite decide_True by (by right).
  - by rewrite decide_True by left.
  - rewrite decide_False; [done|]. by intros [?|?]%elem_of_cons.
Qed.

Lemma fold_update_frame (f : SubtitleMessage -> SubtitleMessage) (l : list nat) : forall s,
  let s' := fold_left (fun s r => update_message r f s) l s in
  messages s' = messages s /\ loadingMedia s' = loadingMedia s /\
  selectedMessages s' = selectedMessages s /\ sent s' = sent s /\
  connections s' = connections s /\ toasts s' = toasts s.
Proof.
  induction l as [|a l IH]; intros s; [done|].
  cbn. destruct (IH (update_message a f s)) as (H1 & H2 & H3 & H4 & H5 & H6).
  rewrite H1, H2, H3, H4, H5, H6. unfold update_message. by destruct (heap s !! a).
Qed.

Lemma clear_media_frame s :
  messages (clear_media s) = messages s /\ loadingMedia (clear_media s) = loadingMedia s /\
  selectedMessages (clear_media s) = selectedMessages s /\ sent (clear_media s) = sent s /\
  connections (clear_media s) = connections s /\ toasts (clear_media s) = toasts s.
Proof. exact (fold_update_frame _ (messages s) s). Qed.

Lemma clear_media_heap s r :
  heap (clear_media s) !! r
  = if decide (r ∈ messages s) then without_media <$> heap s !! r else heap s !! r.
Proof. apply fold_update_heap. by intros []. Qed.

(** X13: saving changed media settings drops the cached thumbnail and
    audio of every item in the store and nothing else; objects that left
    the store keep theirs.  The next press of a row's button therefore
    asks the server again, although the item had its media before. *)
Theorem changed_settings_drop_cache (type : media_type) (r : nat) (m : SubtitleMessage)
    (s : state) :
  r ∈ messages s -> heap s !! r = Some m ->
  port_state (sourcePort m) s = connected -> sourcePort m <> 0 ->
  loading (button_key type m) s = false ->
  let s' := clear_media s in
  heap s' !! r = Some (without_media m) /\
  (forall r', r' ∉ messages s -> heap s' !! r' = heap s !! r') /\
  messages s' = messages s /\ selectedMessages s' = selectedMessages s /\
  sent (click_media type r s') = sent s ++ [(sourcePort m, MediaRequest type (id m) None)].
Proof.
  intros Hr Hm Hp Hp0 Hk s'.
  pose proof (clear_media_heap s) as Hheap.
  destruct (clear_media_frame s) as (H1 & H2 & H3 & H4 & H5 & _).
  fold s' in Hheap, H1, H2, H3, H4, H5. clearbody s'.
  assert (Hm' : heap s' !! r = Some (without_media m)).
  { by rewrite Hheap, decide_True, Hm by done. }
  split_and!; try done.
  - intros r' Hr'. by rewrite Hheap, decide_False.
  - rewrite (click_media_first type r (without_media m) s' Hm').
    + cbn. by rewrite H4.
    + unfold port_state. by rewrite H5.
    + done.
    + by destruct type.
    + unfold loading. by rewrite H2.
Qed.













Lemma sendToPort_fail pl p s :
  p = 0 \/ port_state p s <> connected -> sendToPort pl p s = (false, s).
Proof.
  intros H. unfold sendToPort, ws_send. destruct H as [->|H]; [done|].
  destruct (p =? 0); [done|]. by rewrite bool_decide_eq_false_2.
Qed.

Lemma resolve_at_once c s0 s :
  sent s0 = sent s -> timers s0 = timers s -> resolved s0 = resolved s -> now s0 = now s ->
  let s' := resolve c None s0 in
  sent s' = sent s /\ timers s' = timers s /\ loadingMedia s' = loadingMedia s0 /\
  resolved s' = resolved (resolve c None s).
Proof.
  intros E1 E2 E3 E4. unfold resolve, is_resolved. rewrite E3.
  destruct (existsb _ (resolved s)); cbn; rewrite ?E3, ?E4; done.
Qed.

Lemma loading_rolled_back key k s (m : gmap string bool) :
  loading key s = false -> m = delete key (<[key := true]> (loadingMedia s)) ->
  default false (m !! k) = loading k s.
Proof.
  intros Hk ->. unfold loading in *.
  destruct (decide (k = key)) as [->|Hne].
  - rewrite lookup_delete_eq. by destruct (loadingMedia s !! key) as [[]|].
  - by rewrite lookup_delete_ne, lookup_insert_ne.
Qed.

Lemma unsendable_range a b p s :
  ws_status s <> connected \/
  (loading (range_key a b p) s = false /\ (p = 0 \/ port_state p s <> connected)) ->
  let s' := requestAudioRange a b p s in
  sent s' = sent s /\ timers s' = timers s /\ (forall k, loading k s' = loading k s) /\
  resolved s' = resolved (resolve (next_call s) None s).
Proof.
  intros H. unfold requestAudioRange. cbv zeta.
  change (ws_status (set_next_call _ s)) with (ws_status s).
  destruct (bool_decide (ws_status s = connected)) eqn:Hws; cbn [negb].
  2:{ destruct (resolve_at_once (next_call s) (set_next_call (S (next_call s)) s) s)
        as (? & ? & E & ?); try done.
      split_and!; try done. intros k. unfold loading. by rewrite E. }
  apply bool_decide_eq_true in Hws. destruct H as [H|[Hk H]]; [done|].
  change (loading ?k (set_next_call _ s)) with (loading k s). rewrite Hk.
  rewrite sendToPort_fail by exact H. cbn [negb].
  match goal with |- context [resolve _ None ?s0] =>
    destruct (resolve_at_once (next_call s) s0 s) as (? & ? & E & ?); try done end.
  split_and!; try done. intros k. unfold loading at 1. rewrite E.
  by apply (loading_rolled_back (range_key a b p)).
Qed.

Lemma unsendable_media msg m type e s :
  heap s !! msg = Some m ->
  ws_status s <> connected \/
  (loading (media_key type m e) s = false /\
   (sourcePort m = 0 \/ port_state (sourcePort m) s <> connected)) ->
  let s' := requestMediaFromServer msg type e s in
  sent s' = sent s /\ timers s' = timers s /\ (forall k, loading k s' = loading k s) /\
  resolved s' = resolved (resolve (next_call s) None s).
Proof.
  intros Hm H. unfold requestMediaFromServer. cbv zeta.
  change (ws_status (set_next_call _ s)) with (ws_status s).
  destruct (bool_decide (ws_status s = connected)) eqn:Hws; cbn [negb].
  2:{ destruct (resolve_at_once (next_call s) (set_next_call (S (next_call s)) s) s)
        as (? & ? & E & ?); try done.
      split_and!; try done. intros k. unfold loading. by rewrite E. }
  apply bool_decide_eq_true in Hws. destruct H as [H|[Hk H]]; [done|].
  change (heap (set_next_call _ s)) with (heap s). rewrite Hm.
  change (loading ?k (set_next_call _ s)) with (loading k s). rewrite Hk.
  rewrite sendToPort_fail by exact H. cbn [negb].
  match goal with |- context [resolve _ None ?s0] =>
    destruct (resolve_at_once (next_call s) s0 s) as (? & ? & E & ?); try done end.
  split_and!; try done. intros k. unfold loading at 1. rewrite E.
  by apply (loading_rolled_back (media_key type m e)).
Qed.

(** X15: a request that cannot be transmitted does not wait.  When no
    port is connected, or when the request would be first for its key and
    the port it is for is 0 or not connected, the promise of the call
    settles at once with no result; nothing is sent, no timer is armed, and
    no marker is left behind that would make later calls wait. *)
Theorem unsendable_call_settles_at_once (s : state) :
  (forall a b p,
     ws_status s <> connected \/
     (loading (range_key a b p) s = false /\ (p = 0 \/ port_state p s <> connected)) ->
     let s' := requestAudioRange a b p s in
     sent s' = sent s /\ timers s' = timers s /\ (forall k, loading k s' = loading k s) /\
     resolved s' = resolved (resolve (next_call s) None s)) /\
  (forall msg m type e,
     heap s !! msg = Some m ->
     ws_status s <> connected \/
     (loading (media_key type m e) s = false /\
      (sourcePort m = 0 \/ port_state (sourcePort m) s <> connected)) ->
     let s' := requestMediaFromServer msg type e s in
     sent s' = sent s /\ timers s' = timers s /\ (forall k, loading k s' = loading k s) /\
     resolved s' = resolved (resolve (next_call s) None s)).
Proof.
  split.
  - intros a b p. apply unsendable_range.
  - intros msg m type e. apply unsendable_media.
Qed.

Lemma selection_ext s s' :
  store_view s' = store_view s -> selectedMessages s' = selectedMessages s ->
  selectionRange s' = selectionRange s /\ getSelectedMessages s' = getSelectedMessages s /\
  (forall r, port_of s' r = port_of s r) /\ (forall r, id_of s' r = id_of s r).
Proof.
  intros [= Hh Hm] Hsel.
  unfold selectionRange, getSelectionRange, getSelectedMessages, is_selected,
    index_of_uid, uid_of, store, port_of, id_of.
  rewrite Hh, Hm, Hsel. done.
Qed.

Lemma requestAudioRange_selection a b p s :
  selectedMessages (requestAudioRange a b p s) = selectedMessages s.
Proof.
  unfold requestAudioRange, setInterval, setTimeout, sendToPort, ws_send, resolve.
  cbv zeta. repeat (break_match; cbn [fst snd negb]); done.
Qed.

Lemma range_frame_effect a b dat p s :
  Number_isFinite a = true -> Number_isFinite b = true ->
  onMessage (range_frame a b dat) p s
  = set_loadingMedia (delete (range_key a b p) (loadingMedia s))
      (set_pendingAudioRange (Some {| startId := a; endId := b; data := dat; port := p |}) s).
Proof.
  intros Ha Hb. cbn. unfold parseAudioRangeMessage. cbn. by rewrite Ha, Hb.
Qed.

(** X16: the busy indicator of the range-audio button watches the very
    marker the button's request sets.  For a selection of several items
    from one connected port, pressing the button transmits one range
    request and the indicator turns on; the response frame for that range
    on that port is kept for the waiting call and turns the indicator
    off. *)
Theorem range_indicator_follows_request (s : state) (first last : nat) (dat : string) :
  selectionRange s = Some (first, last) ->
  allSamePort s (getSelectedMessages s) (port_of s first) = true ->
  port_state (port_of s first) s = connected -> port_of s first <> 0 ->
  Number_isFinite (id_of s first) = true -> Number_isFinite (id_of s last) = true ->
  selectionAudioLoading s = false ->
  let s1 := requestSelectionAudioRange s in
  let s2 := onMessage (range_frame (id_of s first) (id_of s last) dat) (port_of s first) s1 in
  sent s1 = sent s ++ [(port_of s first, AudioRangeRequest (id_of s first) (id_of s last))] /\
  selectionAudioLoading s1 = true /\
  selectionAudioLoading s2 = false /\
  pendingAudioRange s2
  = Some {| startId := id_of s first; endId := id_of s last; data := dat;
            port := port_of s first |}.
Proof.
  intros Hr Hall Hp Hp0 Hfa Hfb Hload s1 s2.
  set (a := id_of s first) in *. set (b := id_of s last) in *. set (p := port_of s first) in *.
  assert (Hkey : forall s', selectionRange s' = Some (first, last) ->
                   (forall r, port_of s' r = port_of s r) -> (forall r, id_of s' r = id_of s r) ->
                   selectionAudioLoading s' = loading (range_key a b p) s').
  { intros s' E1 E2 E3. unfold selectionAudioLoading, selectionAudioKey.
    rewrite E1, E2, !E3. done. }
  assert (Hk : loading (range_key a b p) s = false) by (by rewrite <- Hkey).
  assert (E1 : s1 = requestAudioRange a b p s).
  { subst s1. unfold requestSelectionAudioRange. rewrite Hr. cbv zeta.
    fold p. by rewrite Hall. }
  destruct (requestAudioRange_first a b p s (port_connected_status _ _ Hp) Hp0 Hp Hk)
    as [Hsent Hset].
  rewrite <- E1 in Hsent, Hset.
  destruct (selection_ext s s1) as (R1 & _ & P1 & I1).
  { rewrite E1. apply requestAudioRange_store. }
  { rewrite E1. apply requestAudioRange_selection. }
  rewrite Hr in R1.
  assert (E2 : s2 = set_loadingMedia (delete (range_key a b p) (loadingMedia s1))
                      (set_pendingAudioRange
                         (Some {| startId := a; endId := b; data := dat; port := p |}) s1))
    by (by apply range_frame_effect).
  clearbody s1 s2.
  split_and!.
  - exact Hsent.
  - by rewrite Hkey.
  - rewrite Hkey.
    + rewrite E2. unfold loading. cbn. by rewrite lookup_delete_eq.
    + by rewrite E2.
    + intros r. rewrite E2. apply P1.
    + intros r. rewrite E2. apply I1.
  - by rewrite E2.
Qed.

Lemma example_store_ok : store_ok example_store.
Proof.
  split.
  - apply (bool_decide_unpack _). vm_compute. exact I.
  - apply (bool_decide_unpack _). vm_compute. exact I.
Qed.

Lemma button_request_answered_witness :
  let s1 := click_media thumbnail_t 0 example_store in
  let s2 := onMessage (media_frame thumbnail_t (id item_A) "aW1n") (sourcePort item_A) s1 in
  sent s1 = sent example_store ++ [(sourcePort item_A, MediaRequest thumbnail_t (id item_A) None)] /\
  loading (button_key thumbnail_t item_A) s1 = true /\
  media_now thumbnail_t 0 s2 = Some "aW1n" /\
  loading (button_key thumbnail_t item_A) s2 = false /\
  sent s2 = sent s1 /\
  click_media thumbnail_t 0 s2 = s2.
Proof.
  apply (button_request_answered thumbnail_t 0 item_A "aW1n" example_store).
  - vm_compute; reflexivity.
  - vm_compute; reflexivity.
  - reflexivity.
  - vm_compute; reflexivity.
  - vm_compute; reflexivity.
  - discriminate.
  - reflexivity.
  - vm_compute; reflexivity.
  - discriminate.
Defined.

Lemma ranged_marker_outlives_responses_witness :
  let s1 := requestMediaFromServer 0 thumbnail_t (Some (Fin 3)) example_store in
  let s2 := run (map (fun f : JsonValue * Z => WsMessage f.1 f.2)
                   [(media_frame thumbnail_t (Fin 1) "aW1n", 61777)]) s1 in
  sent s1 = sent example_store
            ++ [(sourcePort item_A, MediaRequest thumbnail_t (id item_A) (Some (Fin 3)))] /\
  loading (media_key thumbnail_t item_A (Some (Fin 3))) s1 = true /\
  loading (media_key thumbnail_t item_A (Some (Fin 3))) s2 = true.
Proof.
  apply (ranged_marker_outlives_responses thumbnail_t 0 item_A (Fin 3)
           [(media_frame thumbnail_t (Fin 1) "aW1n", 61777)] example_store).
  - vm_compute; reflexivity.
  - vm_compute; reflexivity.
  - reflexivity.
  - vm_compute; reflexivity.
  - discriminate.
  - vm_compute; reflexivity.
Defined.

Lemma selection_stays_contiguous_witness :
  store_view (run example_clicks example_store) = store_view example_store /\
  contiguous (run example_clicks example_store).
Proof.
  apply (selection_stays_contiguous example_store example_clicks).
  - exact example_store_ok.
  - exists 0%nat, 0%nat. split; [apply Nat.le_0_l|]. intros u. split.
    + intros Hu. exfalso. revert Hu. apply (bool_decide_unpack _). vm_compute. exact I.
    + intros (k & Hk & _). lia.
  - unfold example_clicks.
    apply Forall_cons; split;
      [right; exists 1%nat, 1%nat; split; [reflexivity|vm_compute; reflexivity]|].
    apply Forall_cons; split;
      [right; exists 3%nat, 3%nat; split; [reflexivity|vm_compute; reflexivity]|].
    apply Forall_cons; split;
      [right; exists 2%nat, 2%nat; split; [reflexivity|vm_compute; reflexivity]|].
    apply Forall_cons; split;
      [right; exists 0%nat, 0%nat; split; [reflexivity|vm_compute; reflexivity]|].
    apply Forall_nil_2.
Defined.

Lemma range_B_C_ok : store_ok range_B_C.
Proof.
  split.
  - apply (bool_decide_unpack _). vm_compute. exact I.
  - apply (bool_decide_unpack _). vm_compute. exact I.
Qed.

Lemma range_B_C_rows : selects_rows 1 2 range_B_C.
Proof.
  assert (Hu : store_uids range_B_C = ["61777-1"; "61777-2"; "61777-3"; "61777-4"])
    by (vm_compute; reflexivity).
  assert (Hs : selectedMessages range_B_C = {["61777-2"]} ∪ {["61777-3"]})
    by (vm_compute; reflexivity).
  split; [rewrite Hu; cbn; lia|].
  intros u. rewrite Hu, Hs, elem_of_union, !elem_of_singleton. split.
  - intros [-> | ->]; [exists 1%nat|exists 2%nat]; (split; [lia|done]).
  - intros (k & Hk & Hl). destruct k as [|[|[|k]]]; try lia; cbn in Hl; injection Hl as <-; auto.
Qed.

Lemma selection_range_endpoints_witness :
  exists first last,
    getSelectionRange range_B_C = Some (first, last) /\
    messages range_B_C !! 1%nat = Some first /\
    messages range_B_C !! (1 + 2 - 1)%nat = Some last.
Proof.
  apply (selection_range_endpoints range_B_C 1 2).
  - exact range_B_C_ok.
  - exact range_B_C_rows.
  - lia.
Defined.

Lemma changed_settings_drop_cache_witness :
  click_media thumbnail_t 0 cached_store = cached_store /\
  let s' := clear_media cached_store in
  heap s' !! 0%nat = Some (without_media cached_item_A) /\
  (forall r', r' ∉ messages cached_store -> heap s' !! r' = heap cached_store !! r') /\
  messages s' = messages cached_store /\
  selectedMessages s' = selectedMessages cached_store /\
  sent (click_media thumbnail_t 0 s')
  = sent cached_store
    ++ [(sourcePort cached_item_A, MediaRequest thumbnail_t (id cached_item_A) None)].
Proof.
  split; [vm_compute; reflexivity|].
  apply (changed_settings_drop_cache thumbnail_t 0 cached_item_A cached_store).
  - apply (bool_decide_unpack _). vm_compute. exact I.
  - vm_compute; reflexivity.
  - vm_compute; reflexivity.
  - discriminate.
  - vm_compute; reflexivity.
Defined.

Lemma range_indicator_follows_request_witness :
  let s := range_B_C in
  let s1 := requestSelectionAudioRange s in
  let s2 := onMessage (range_frame (id_of s 1) (id_of s 2) "QUJD") (port_of s 1) s1 in
  sent s1 = sent s ++ [(port_of s 1, AudioRangeRequest (id_of s 1) (id_of s 2))] /\
  selectionAudioLoading s1 = true /\
  selectionAudioLoading s2 = false /\
  pendingAudioRange s2
  = Some {| startId := id_of s 1; endId := id_of s 2; data := "QUJD"; port := port_of s 1 |}.
Proof.
  apply (range_indicator_follows_request range_B_C 1 2 "QUJD").
  - vm_compute; reflexivity.
  - vm_compute; reflexivity.
  - vm_compute; reflexivity.
  - vm_compute; discriminate.
  - vm_compute; reflexivity.
  - vm_compute; reflexivity.
  - vm_compute; reflexivity.
Defined.

Lemma untouched_arms s s' : untouched s s' -> arms s s'.
Proof. intros (? & ? & ? & ?). by left. Qed.

Lemma settled_arms c s s' : settled_at_once c s s' -> arms s s'.
Proof. intros (? & ? & ? & ?). by left. Qed.

Lemma arms_untouched s s1 s2 : arms s s1 -> untouched s1 s2 -> arms s s2.
Proof.
  intros [(E1 & E2 & E3)|(D & c & HD & a & b & Ha & Hb & Hc & Ht & Hn & Hr & Hnow)]
         (U1 & U2 & U3 & U4).
  - left. split_and!; congruence.
  - right. exists D, c. split; [done|]. exists a, b. split_and!; try done; congruence.
Qed.

Lemma requestAudioRange_arms a b p s : arms s (requestAudioRange a b p s).
Proof.
  destruct (requestAudioRange_outcome a b p s) as [H|H].
  - by eapply settled_arms.
  - right. exists range_deadline, (next_call s). auto.
Qed.

Lemma requestMediaFromServer_arms msg type e s : arms s (requestMediaFromServer msg type e s).
Proof.
  destruct (requestMediaFromServer_outcome msg type e s) as [H|[H|[_ H]]].
  - by eapply settled_arms.
  - right. exists single_deadline, (next_call s). auto.
  - by apply untouched_arms.
Qed.

Lemma export_resume_arms j reply d s : arms s (export_resume j reply d s).
Proof.
  unfold export_resume, export_fail.
  repeat (break_match; cbn [fst snd negb]).
  all: try (apply untouched_arms; first [done | apply set_job_untouched
       | (eapply untouched_trans; [|apply set_job_untouched]); done]).
  all: (eapply arms_untouched; [|apply set_job_untouched]).
  all: first [apply requestAudioRange_arms | apply requestMediaFromServer_arms].
Qed.

Lemma step_arms s e : e <> Tick -> arms s (step s e).
Proof.
  intros He. destruct e; cbn [step]; try done.
  - apply untouched_arms, onMessage_untouched.
  - by apply untouched_arms.
  - apply untouched_arms. unfold toggleSelection. repeat break_match; done.
  - by apply untouched_arms.
  - apply untouched_arms. unfold requestThumbnail, sendToPort, ws_send.
    repeat (break_match; cbn [fst snd negb]); done.
  - apply untouched_arms. unfold requestAudio, sendToPort, ws_send.
    repeat (break_match; cbn [fst snd negb]); done.
  - unfold requestSelectionAudioRange. repeat break_match;
      first [apply requestAudioRange_arms | by apply untouched_arms].
  - apply untouched_arms. unfold sendSelectionToAnki.
    repeat (break_match; cbn [fst snd negb]); done.
  - apply export_resume_arms.
  - apply requestMediaFromServer_arms.
  - apply requestAudioRange_arms.
  - apply untouched_arms, clear_media_untouched.
Qed.

Lemma tidy_weaken B B' s : (B <= B')%N -> tidy B s -> tidy B' s.
Proof.
  intros HB [H1 H2 H3 H4 H5 H6]. constructor; try done.
  intros t Ht Hp. specialize (H3 t Ht Hp). lia.
Qed.

Lemma arms_tidy B s s' :
  arms s s' -> (now s + 15000 <= B)%N -> tidy B s -> tidy B s'.
Proof.
  intros [(E1 & E2 & E3)|(D & c & HD & Hreg)] HB [H1 H2 H3 H4 H5 H6].
  - constructor; rewrite ?E1, ?E3; try done.
    destruct H1 as [W1 W2 W3]. constructor; rewrite ?E1, ?E2; done.
  - pose proof (registered_wf D c s s' Hreg H1) as Hwf.
    destruct Hreg as (a & b & Ha & Hb & Hc & Ht & Hn & Hr & Hnow).
    assert (HD' : (0 < D <= 15000)%N).
    { destruct HD as [-> | ->]; unfold single_deadline, range_deadline; lia. }
    constructor; rewrite ?Ht, ?Hnow; try done.
    + intros t [Hin|Hin]%elem_of_app; [by apply H2|].
      apply elem_of_cons in Hin as [->|Hin]; [cbn; unfold poll_interval; lia|].
      apply list_elem_of_singleton in Hin as ->. cbn. lia.
    + intros t [Hin|Hin]%elem_of_app Hp; [by apply H3|].
      apply elem_of_cons in Hin as [->|Hin]; [done|].
      apply list_elem_of_singleton in Hin as ->. cbn. lia.
    + intros t p [Hin|Hin]%elem_of_app Hp; [by eapply H4|].
      apply elem_of_cons in Hin as [->|Hin].
      * cbn in Hp. injection Hp as <-. unfold poll_interval. lia.
      * apply list_elem_of_singleton in Hin as ->. done.
    + intros t [Hin|Hin]%elem_of_app; [by apply H5|].
      apply elem_of_cons in Hin as [->|Hin].
      * cbn. rewrite Ha. split; [done|]. by intros [? ?].
      * apply list_elem_of_singleton in Hin as ->. cbn. rewrite Hb. split; [by eexists|done].
    + intros u [Hin|Hin]%elem_of_app Hp.
      * destruct (H6 u Hin Hp) as (t & Ht' & Hpt & Hci). exists t.
        split; [apply elem_of_app; by left|done].
      * apply elem_of_cons in Hin as [->|Hin].
        -- eexists. split; [apply elem_of_app; right; right; left|]. cbn. done.
        -- apply list_elem_of_singleton in Hin as ->. cbn in Hp. by destruct Hp.
Qed.

Lemma run_callback_timers a self s :
  match checkInterval_of a with
  | Some ci => timers (run_callback a self s) = filter (fun u => tid u ≠ ci) (timers s)
  | None => timers (run_callback a self s) = timers s \/
            timers (run_callback a self s) = filter (fun u => tid u ≠ self) (timers s)
  end.
Proof.
  destruct a; cbn [checkInterval_of run_callback]; repeat break_match;
    rewrite ?resolve_timers; cbn; auto.
Qed.

Lemma is_armed_spec i s : is_armed i s = true <-> exists u, u ∈ timers s /\ tid u = i.
Proof.
  unfold is_armed. rewrite existsb_exists. split.
  - intros (u & Hu%list_elem_of_In & E%Nat.eqb_eq). by exists u.
  - intros (u & Hu%list_elem_of_In & E%Nat.eqb_eq). by exists u.
Qed.

Lemma rearm_elem i p s u :
  u ∈ timers (rearm i p s) <->
  exists u0, u0 ∈ timers s /\
    u = if (tid u0 =? i)%nat
        then {| tid := tid u0; due := (due u0 + p)%N; period := period u0; action := action u0 |}
        else u0.
Proof.
  unfold rearm. cbn. rewrite list_elem_of_fmap. split; intros (u0 & H1 & H2); by exists u0.
Qed.

Section Tick.
Variable s1 : state.
Hypothesis Hwf : queue_wf s1.
Hypothesis Hfut : forall t, t ∈ timers s1 -> (now s1 <= due t)%N.
Hypothesis Hper : forall t p, t ∈ timers s1 -> period t = Some p -> (0 < p)%N.
Hypothesis Hkind : forall t, t ∈ timers s1 ->
                   (period t = None <-> is_Some (checkInterval_of (action t))).

Lemma snapshot_same s t u :
  shrinks s1 s -> t ∈ timers s1 -> u ∈ timers s -> tid u = tid t ->
  period u = period t /\ action u = action t.
Proof.
  intros Hsh Ht Hu E. destruct (sh_timers _ _ Hsh u Hu) as (t' & Ht' & E1 & E2 & E3).
  assert (t' = t) as ->.
  { apply (NoDup_fmap_inj tid (timers s1) t' t (wf_nodup _ Hwf)); [done|done|congruence]. }
  by rewrite E2, E3.
Qed.

Lemma fire_mid_tick t l s :
  (forall x, x ∈ t :: l -> x ∈ timers s1) ->
  mid_tick s1 (t :: l) s -> mid_tick s1 l (fire t s).
Proof.
  intros Hl [M1 M2 M3 M4 M5].
  assert (Ht : t ∈ timers s1) by (apply Hl; left).
  assert (Hsame : forall u, u ∈ timers s -> tid u = tid t ->
                            period u = period t /\ action u = action t).
  { intros u Hu E. by apply (snapshot_same s). }
  assert (Horig : forall u, u ∈ timers s -> period u = None -> tid u = tid t -> u = t).
  { intros u Hu Hp E.
    apply (NoDup_fmap_inj tid (timers s1) u t (wf_nodup _ Hwf)); [by apply M1|done|done]. }
  unfold fire. destruct (is_armed (tid t) s) eqn:Harm.
  2:{ assert (Hnot : t ∉ timers s).
      { intros Hin. by rewrite (is_armed_elem _ _ Hin) in Harm. }
      constructor; try done.
      - intros u Hu Hp Hd. pose proof (M2 u Hu Hp Hd) as [->|?]%elem_of_cons; done.
      - intros u Hu Hp. pose proof (M3 u Hu Hp) as [?|[->|?]%elem_of_cons]; auto. done. }
  apply is_armed_spec in Harm as (u0 & Hu0 & Eu0).
  destruct (Hsame u0 Hu0 Eu0) as [Hp0 Ha0].
  destruct (period t) as [p|] eqn:Hpt.
  - (* a poll *)
    assert (Hci : checkInterval_of (action t) = None).
    { destruct (checkInterval_of (action t)) eqn:E; [|done].
      assert (period t = None) by (apply Hkind; [done|by rewrite E]). congruence. }
    assert (Hpos : (0 < p)%N) by (by eapply Hper).
    pose proof (run_callback_timers (action t) (tid t) (rearm (tid t) p s)) as Hrc.
    rewrite Hci in Hrc.
    assert (Hsub : forall u, u ∈ timers (run_callback (action t) (tid t) (rearm (tid t) p s)) ->
                             u ∈ timers (rearm (tid t) p s)).
    { intros u. destruct Hrc as [-> | ->]; [done|]. by intros [_ ?]%list_elem_of_filter. }
    assert (Hkeep : forall u, u ∈ timers s -> period u = None ->
                              u ∈ timers (run_callback (action t) (tid t) (rearm (tid t) p s))).
    { intros u Hu Hp.
      assert (Hne : tid u <> tid t).
      { intros E. destruct (Hsame u Hu E). congruence. }
      assert (u ∈ timers (rearm (tid t) p s)).
      { apply rearm_elem. exists u. split; [done|].
        by rewrite (proj2 (Nat.eqb_neq _ _) Hne). }
      destruct Hrc as [-> | ->]; [done|]. by apply list_elem_of_filter. }
    constructor.
    + intros u Hu%Hsub Hp. apply rearm_elem in Hu as (v & Hv & ->).
      destruct (tid v =? tid t)%nat eqn:E.
      * apply Nat.eqb_eq in E. destruct (Hsame v Hv E). cbn in Hp. congruence.
      * by apply M1.
    + intros u Hu%Hsub Hp Hd. apply rearm_elem in Hu as (v & Hv & ->).
      destruct (tid v =? tid t)%nat eqn:E.
      * apply Nat.eqb_eq in E. destruct (Hsame v Hv E). cbn in Hp. congruence.
      * pose proof (M2 v Hv Hp Hd) as [->|?]%elem_of_cons; [|done].
        by rewrite Nat.eqb_refl in E.
    + intros u Hu%Hsub Hp. apply rearm_elem in Hu as (v & Hv & ->).
      destruct (tid v =? tid t)%nat eqn:E.
      * left. cbn. cbn in Hp.
        assert (now s1 <= due v)%N; [|lia].
        destruct (M3 v Hv Hp) as [?|Hin]; [lia|]. by apply Hfut, Hl.
      * pose proof (M3 v Hv Hp) as [?|[->|?]%elem_of_cons]; auto.
        by rewrite Nat.eqb_refl in E.
    + intros u Hu Hp. pose proof (Hsub u Hu) as Hu'.
      apply rearm_elem in Hu' as (v & Hv & Ev).
      assert (Htid : tid u = tid v) by (rewrite Ev; by destruct (tid v =? tid t)%nat).
      assert (Hpv : is_Some (period v)).
      { rewrite Ev in Hp. by destruct (tid v =? tid t)%nat. }
      destruct (M4 v Hv Hpv) as (t0 & Ht0 & Hp0' & Hc0).
      exists t0. split; [by apply Hkeep|]. split; [done|]. by rewrite Htid.
    + eapply shrinks_trans; [exact M5|].
      eapply shrinks_trans; [apply rearm_shrinks|apply run_callback_shrinks].
  - (* a timeout *)
    assert (Hu0t : u0 = t) by (apply Horig; [done|congruence|done]). subst u0.
    destruct (checkInterval_of (action t)) as [ci|] eqn:Hci.
    2:{ assert (is_Some (checkInterval_of (action t))) by (by apply Hkind).
        rewrite Hci in H. by destruct H. }
    pose proof (run_callback_timers (action t) (tid t) (clearInterval (tid t) s)) as Hrc.
    rewrite Hci in Hrc.
    set (s' := run_callback (action t) (tid t) (clearInterval (tid t) s)) in *.
    assert (Hin : forall u, u ∈ timers s' <->
                            u ∈ timers s /\ tid u <> tid t /\ tid u <> ci).
    { intros u. rewrite Hrc. cbn. rewrite !list_elem_of_filter. tauto. }
    constructor.
    + intros u (Hu & _ & _)%Hin Hp. by apply M1.
    + intros u (Hu & Hne & _)%Hin Hp Hd.
      pose proof (M2 u Hu Hp Hd) as [->|?]%elem_of_cons; done.
    + intros u (Hu & Hne & _)%Hin Hp.
      pose proof (M3 u Hu Hp) as [?|[->|?]%elem_of_cons]; auto. done.
    + intros u (Hu & Hne & Hne')%Hin Hp.
      destruct (M4 u Hu Hp) as (t0 & Ht0 & Hp0' & Hc0).
      exists t0. split; [|done]. apply Hin. split; [done|]. split.
      * intros E. apply Horig in E; [|done..]. subst t0. congruence.
      * intros E. destruct (wf_ci _ Hwf t ci Ht Hci) as [_ Hper'].
        destruct (Hper' t0 (M1 t0 Ht0 Hp0') E) as [? ?]. congruence.
    + eapply shrinks_trans; [exact M5|].
      eapply shrinks_trans; [apply clearInterval_shrinks|apply run_callback_shrinks].
Qed.

Lemma fold_fire_mid_tick l : forall s,
  (forall x, x ∈ l -> x ∈ timers s1) ->
  mid_tick s1 l s -> mid_tick s1 [] (fold_left (fun s t => fire t s) l s).
Proof.
  induction l as [|t l IH]; intros s Hl Hm; [done|].
  cbn. apply IH.
  - intros x Hx. apply Hl. by right.
  - by apply fire_mid_tick.
Qed.

End Tick.

Lemma tick_tidy B s : tidy B s -> tidy B (tick s).
Proof.
  intros [H1 H2 H3 H4 H5 H6].
  set (s1 := set_now (now s + 1)%N s).
  assert (Hwf1 : queue_wf s1) by (destruct H1; by constructor).
  assert (Hfut : forall t, t ∈ timers s1 -> (now s1 <= due t)%N).
  { intros t Ht. specialize (H2 t Ht). cbn. lia. }
  assert (Hm : mid_tick s1 [] (tick s)).
  { unfold tick. fold s1.
    apply (fold_fire_mid_tick s1 Hwf1 Hfut H4 H5).
    - by intros x [_ ?]%list_elem_of_filter.
    - constructor; try done.
      + intros u Hu Hp Hd. by apply list_elem_of_filter.
      + intros u Hu Hp. destruct (decide (due u <= now s1)%N).
        * right. by apply list_elem_of_filter.
        * left. lia.
      + apply shrinks_refl. }
  destruct Hm as [M1 M2 M3 M4 M5].
  constructor.
  - by apply tick_wf.
  - intros u Hu. rewrite tick_now. change (now s + 1)%N with (now s1).
    destruct (period u) eqn:Hp.
    + destruct (M3 u Hu) as [?|?%elem_of_nil]; [by rewrite Hp| |]; done.
    + destruct (decide (due u <= now s1)%N) as [Hd|Hd]; [|lia].
      by apply M2, elem_of_nil in Hd.
  - intros u Hu Hp. apply H3; [|done]. by apply M1.
  - intros u p Hu Hp. destruct (sh_timers _ _ M5 u Hu) as (t & Ht & _ & E & _).
    apply (H4 t p Ht). congruence.
  - intros u Hu. destruct (sh_timers _ _ M5 u Hu) as (t & Ht & _ & E1 & E2).
    rewrite <- E1, <- E2. by apply H5.
  - done.
Qed.

Lemma step_tidy s e : tidy (now s + 15000) s -> tidy (now (step s e) + 15000) (step s e).
Proof.
  intros H.
  assert (He : e = Tick \/ e <> Tick) by (destruct e; auto; by right).
  destruct He as [->|He].
  - change (step s Tick) with (tick s).
    rewrite tick_now. eapply tidy_weaken; [|by apply tick_tidy]. lia.
  - pose proof (step_arms s e He) as Ha.
    assert (Hnow : now (step s e) = now s).
    { destruct Ha as [(_ & _ & E)|(D & c & _ & a & b & _ & _ & _ & _ & _ & _ & E)]; done. }
    rewrite Hnow. by apply (arms_tidy _ s).
Qed.

Lemma run_tidy evs : forall s,
  tidy (now s + 15000) s -> tidy (now (run evs s) + 15000) (run evs s).
Proof.
  induction evs as [|e evs IH]; intros s H; [done|]. cbn. by apply IH, step_tidy.
Qed.

Lemma init_tidy a0 : tidy (now (init a0) + 15000) (init a0).
Proof.
  constructor; cbn; try (intros t H; by apply elem_of_nil in H).
  - apply init_wf.
  - intros t p H. by apply elem_of_nil in H.
Qed.

Lemma ticks_tidy B n : forall s,
  tidy B s ->
  tidy B (run (ticks n) s) /\ now (run (ticks n) s) = (now s + n)%N.
Proof.
  unfold ticks. induction n as [|n IH] using N.peano_ind; intros s H.
  - change (run (repeat Tick (N.to_nat 0)) s) with s. split; [done|lia].
  - rewrite N2Nat.inj_succ.
    change (run (repeat Tick (S (N.to_nat n))) s) with (run (repeat Tick (N.to_nat n)) (tick s)).
    destruct (IH (tick s) (tick_tidy B s H)) as [H1 H2].
    split; [done|]. rewrite H2, tick_now. lia.
Qed.

Lemma tidy_empty s : tidy (now s) s -> timers s = [].
Proof.
  intros [H1 H2 H3 H4 H5 H6].
  assert (Hno : forall t, t ∈ timers s -> period t = None -> False).
  { intros t Ht Hp. specialize (H2 t Ht). specialize (H3 t Ht Hp). lia. }
  destruct (timers s) as [|u l] eqn:E; [done|]. exfalso.
  assert (Hu : u ∈ timers s) by (rewrite E; left). rewrite <- E in *.
  destruct (period u) as [p|] eqn:Hp; [|by eapply Hno].
  destruct (H6 u Hu) as (t & Ht & Hpt & _); [by rewrite Hp|]. by eapply Hno.
Qed.

(** X17: timers do not leak.  In every state the client can reach, each
    armed timer is due in the future, a deadline within 15 seconds, and
    every poll is watched by a deadline that will clear it; so after 15
    seconds in which nothing but time passes the queue of the browser is
    empty, whatever requests were pending, joined, answered or left
    unanswered before. *)
Theorem timers_do_not_leak (a0 : AnkiSettings) (history : list event) :
  let s := run history (init a0) in
  (forall t, t ∈ timers s -> (now s < due t)%N) /\
  (forall t, t ∈ timers s -> period t = None -> (due t <= now s + 15000)%N) /\
  (forall u, u ∈ timers s -> is_Some (period u) ->
     exists t, t ∈ timers s /\ period t = None /\
               checkInterval_of (action t) = Some (tid u)) /\
  timers (run (ticks 15000) s) = [].
Proof.
  intros s.
  pose proof (run_tidy history (init a0) (init_tidy a0)) as H. fold s in H.
  destruct (ticks_tidy _ 15000 s H) as [H1 H2].
  split_and!; try apply H.
  apply tidy_empty. by rewrite H2.
Qed.

End ClientProofs.

(** * Settings dialog and media form: theorems *)

Section SettingsProofs.
Import Client Settings.



Lemma is_digit_not_sep c : is_digit c = true -> is_sep c = false /\ is_space c = false.
Proof.
  unfold is_digit, is_sep, is_space. intros H.
  destruct c as [[] [] [] [] [] [] [] []]; cbn in *; done.
Qed.

Lemma uint_digits d : Forall (fun c => is_digit c = true) (list_ascii_of_string (NilEmpty.string_of_uint d)).
Proof. induction d; cbn; constructor; done. Qed.

Lemma split_token (x : list ascii) : forall cur b rest,
  Forall (fun c => is_digit c = true) x ->
  split_from cur b (string_of_list_ascii x ++ rest)
  = match x with
    | [] => split_from cur b rest
    | _ => split_from (cur ++ string_of_list_ascii x) false rest
    end.
Proof.
  induction x as [|c x IH]; intros cur b rest Hx; [done|].
  apply Forall_cons in Hx as [Hc Hx].
  change (string_of_list_ascii (c :: x) ++ rest)%string
    with (String c (string_of_list_ascii x ++ rest)).
  cbn [split_from]. rewrite (proj1 (is_digit_not_sep c Hc)).
  rewrite IH by done. destruct x as [|c' x].
  - cbn. done.
  - f_equal. change (string_of_list_ascii (c :: c' :: x))
      with (String c (string_of_list_ascii (c' :: x))).
    generalize (string_of_list_ascii (c' :: x)). intros y.
    induction cur as [|a cur IHc]; [done|].
    change ((String a cur ++ String c "") ++ y)%string
      with (String a ((cur ++ String c "") ++ y)).
    change (String a cur ++ String c y)%string with (String a (cur ++ String c y)).
    by rewrite IHc.
Qed.

Lemma str_app_nil_r (s : string) : (s ++ "")%string = s.
Proof.
  induction s as [|c s IH]; [done|].
  change (String c (s ++ "") = String c s). by rewrite IH.
Qed.

Lemma digits_prefix_all t :
  Forall (fun c => is_digit c = true) (list_ascii_of_string t) -> digits_prefix t = t.
Proof.
  induction t as [|c t IH]; [done|]. cbn. intros [Hc Ht]%Forall_cons.
  rewrite Hc. by rewrite IH.
Qed.

Lemma parseInt_digits t d :
  Forall (fun c => is_digit c = true) (list_ascii_of_string t) -> t <> "" ->
  NilEmpty.uint_of_string t = Some d -> parseInt t = Fin (Z.of_uint d).
Proof.
  intros Hd Hne Hu. unfold parseInt.
  destruct t as [|c t]; [done|].
  assert (Hc : is_digit c = true) by (by apply Forall_cons in Hd as [? _]).
  assert (Hs : skip_space (String c t) = String c t).
  { cbn. by rewrite (proj2 (is_digit_not_sep c Hc)). }
  rewrite Hs.
  assert (Hsign : (match String c t with String "-" _ => true | _ => false end) = false /\
                  (match String c t with
                   | String "-" r => r
                   | String "+" r => r
                   | _ => String c t
                   end) = String c t).
  { clear -Hc. destruct c as [[] [] [] [] [] [] [] []]; cbn in *; done. }
  destruct Hsign as [-> ->]. rewrite (digits_prefix_all _ Hd), Hu. done.
Qed.

Lemma show_port z :
  0 < z <= 65535 ->
  Forall (fun c => is_digit c = true) (list_ascii_of_string (show_number (Fin z))) /\
  show_number (Fin z) <> "" /\
  parseInt (show_number (Fin z)) = Fin z.
Proof.
  intros Hz. destruct z as [|p|p]; try lia. cbn [show_number]. unfold show_Z.
  change (Z.to_int (Z.pos p)) with (Decimal.Pos (Pos.to_uint p)).
  cbn [NilZero.string_of_int].
  assert (Hnil : Pos.to_uint p <> Decimal.Nil) by apply Unsigned.to_uint_nonnil.
  assert (E : NilZero.string_of_uint (Pos.to_uint p) = NilEmpty.string_of_uint (Pos.to_uint p)).
  { by destruct (Pos.to_uint p). }
  rewrite E.
  assert (Hne : NilEmpty.string_of_uint (Pos.to_uint p) <> "").
  { by destruct (Pos.to_uint p). }
  split_and!; [apply uint_digits|done|].
  rewrite (parseInt_digits _ (Pos.to_uint p)); [|apply uint_digits|done|apply NilEmpty.usu].
  f_equal. exact (DecimalZ.of_to (Z.pos p)).
Qed.

Lemma split_one t cur b :
  Forall (fun c => is_digit c = true) (list_ascii_of_string t) -> t <> "" ->
  forall rest, split_from cur b (t ++ rest) = split_from (cur ++ t) false rest.
Proof.
  intros Hd Hne rest.
  rewrite <- (string_of_list_ascii_of_string t) at 1 2.
  rewrite split_token by done.
  destruct (list_ascii_of_string t) as [|c x] eqn:E; [|done].
  exfalso. apply Hne. by rewrite <- (string_of_list_ascii_of_string t), E.
Qed.

Lemma split_join (l : list string) : forall t b,
  Forall (fun t => Forall (fun c => is_digit c = true) (list_ascii_of_string t) /\ t <> "")
         (t :: l) ->
  split_from "" b (String.concat ", " (t :: l)) = t :: l.
Proof.
  induction l as [|t' l IH]; intros t b [[Hd Hne] Hl]%Forall_cons.
  - cbn [String.concat]. rewrite <- (str_app_nil_r t) at 1.
    by rewrite split_one.
  - change (String.concat ", " (t :: t' :: l))
      with (t ++ ", " ++ String.concat ", " (t' :: l))%string.
    rewrite split_one by done.
    change (", " ++ String.concat ", " (t' :: l))%string
      with (String "," (String " " (String.concat ", " (t' :: l)))).
    cbn [split_from]. change (is_sep ",") with true. change (is_sep " ") with true.
    cbn match. by rewrite IH.
Qed.

(** X19: the text the dialog shows for the ports reads back as the same
    ports.  The field is filled with the ports joined by ", "; committing
    that text unchanged leaves the connection settings exactly as they
    were, for every non-empty list of ports in 1..65535. *)
Theorem port_text_reads_back {num : Type} (d : dialog num) :
  ports (localConnection d) <> [] ->
  Forall in_range (ports (localConnection d)) ->
  let d' := updateLocalPorts (join_ports (ports (localConnection d))) d in
  localConnection d' = localConnection d /\
  localPortInput d' = join_ports (ports (localConnection d)).
Proof.
  intros Hne Hok d'. subst d'. unfold updateLocalPorts. cbn.
  set (ps := ports (localConnection d)) in *.
  assert (Htok : Forall (fun t => Forall (fun c => is_digit c = true) (list_ascii_of_string t)
                                  /\ t <> "") (map show_number ps)).
  { apply Forall_fmap. eapply Forall_impl; [exact Hok|].
    intros n (z & -> & Hz). destruct (show_port z Hz) as (? & ? & _). by split. }
  assert (Hsplit : split_ports (join_ports ps) = map show_number ps).
  { unfold split_ports, join_ports. destruct ps as [|n ps']; [done|].
    cbn [map] in *. by apply split_join. }
  assert (Hparse : map parseInt (map show_number ps) = ps).
  { clear -Hok. induction Hok as [|n l (z & -> & Hz) Hl IH]; [done|].
    cbn [map]. rewrite IH. f_equal. by destruct (show_port z Hz) as (_ & _ & ?). }
  rewrite Hsplit, Hparse.
  assert (Hfilter : filter (fun n => valid_port n = true) ps = ps).
  { clear -Hok. induction Hok as [|n l (z & -> & Hz) Hl IH]; [done|].
    rewrite filter_cons_True; [by rewrite IH|].
    cbn. apply andb_true_iff. split; [apply Z.ltb_lt|apply Z.leb_le]; lia. }
  rewrite Hfilter. split; [|done].
  rewrite decide_False by (destruct ps; done).
  subst ps. by destruct (localConnection d).
Qed.

(** X20: saving never leaves the animation flag set for an image format
    that cannot hold an animation.  After [saveSettings] the flag is set
    only if the advanced mode is on with an extension given, or it is off
    and the format is AVIF or WebP; the dialog's copy and the saved
    settings agree, and apart from the flag the media settings are saved
    as entered. *)
Theorem saved_animation_flag_is_sound {num : Type} (neq : num -> num -> bool)
    (d : dialog num) (st : Settings num) (s : state) :
  let '(d', st', s') := saveSettings neq d st s in
  (imageAnimated (media st') = true -> can_animate (media st')) /\
  (imageAnimated (media st') = true -> imageAnimated (localMedia d) = true) /\
  localMedia d' = media st' /\
  set_imageAnimated (imageAnimated (localMedia d)) (media st') = localMedia d /\
  anki st' = localSettings d /\ connection st' = localConnection d /\
  showSettings d' = false.
Proof.
  unfold saveSettings. cbn. unfold normalize_animated, can_animate.
  destruct (localMedia d) as [a1 a2 fmt q an af aq afl sz adv args ext aadv aargs aext].
  cbn. destruct adv; cbn.
  - destruct (String.eqb_spec ext ""); cbn; split_and!; try done.
    intros ->. by left.
  - destruct (String.eqb_spec fmt "avif") as [Ea|Ha], (String.eqb_spec fmt "webp") as [Ew|Hw];
      cbn; split_and!; try done; intros ->; right; split; auto.
Qed.

Lemma unchanged_but_extensions {num : Type} (neq : num -> num -> bool)
    (l m : MediaSettings num) :
  same_but_extensions l m -> numbers_ok neq m -> mediaSettingsChanged neq l m = false.
Proof.
  intros [] (N1 & N2 & N3 & N4). unfold mediaSettingsChanged.
  repeat match goal with H : _ l = _ m |- _ => rewrite H; clear H end.
  rewrite N1, N2, N3, N4, !String.eqb_refl, !Bool.eqb_reflx. done.
Qed.

(** X21: the cached media are dropped on saving only when one of the
    thirteen compared settings differs; the extensions of the advanced
    mode are not among them.  Changing nothing but such an extension
    leaves every stored thumbnail and audio in place, although the
    requests made from then on ask for the new format. *)
Theorem extension_change_keeps_cache {num : Type} (neq : num -> num -> bool)
    (d : dialog num) (st : Settings num) (s : state) :
  same_but_extensions (localMedia d) (media st) -> numbers_ok neq (media st) ->
  let '(d', st', s') := saveSettings neq d st s in
  store_view s' = store_view s /\
  loadingMedia s' = loadingMedia s /\
  imageAdvancedExtension (media st') = imageAdvancedExtension (localMedia d) /\
  audioAdvancedExtension (media st') = audioAdvancedExtension (localMedia d) /\
  (imageAdvanced (media st) = true ->
   request_image_format (media st') = imageAdvancedExtension (localMedia d)) /\
  (audioAdvanced (media st) = true ->
   request_audio_format (media st') = audioAdvancedExtension (localMedia d)).
Proof.
  intros Hsame Hok. unfold saveSettings.
  rewrite (unchanged_but_extensions neq _ _ Hsame Hok). cbn.
  destruct Hsame. unfold normalize_animated, request_image_format, request_audio_format.
  destruct (localMedia d) as [a1 a2 fmt q an af aq afl sz adv args ext aadv aargs aext].
  cbn in *. subst.
  repeat match goal with |- context [if ?b then _ else _] => destruct b eqn:? end;
    cbn in *; split_and!; try done; congruence.
Qed.

Lemma clear_media_anki s : Client.anki (clear_media s) = Client.anki s.
Proof.
  unfold clear_media. generalize (messages s). intros l. revert s.
  induction l as [|r l IH]; intros s; [done|].
  cbn. rewrite IH. unfold update_message. by destruct (heap s !! r).
Qed.

(** X22: the validity test of the dialog and the test that enables the
    export agree.  Settings that pass [settingsValid] and name a note type
    make the export available once saved, settings without a note type
    switch it off; and choosing another note type clears the field
    choices, so that the form is not valid again until a field is
    picked. *)
Theorem valid_settings_enable_export {num : Type} (neq : num -> num -> bool)
    (d : dialog num) (st : Settings num) (s : state) (value : string) :
  settingsValid (localSettings d) = true ->
  let '(d', st', s') := saveSettings neq d st s in
  Client.ankiConfigured s' = negb (String.eqb (noteType (localSettings d)) "") /\
  settingsValid (onModelChange value (localSettings d)) = String.eqb value "".
Proof.
  intros Hv. unfold saveSettings. cbn zeta.
  assert (Hanki : forall s0, Client.anki (if mediaSettingsChanged neq (localMedia d) (media st)
                                          then clear_media (set_anki (localSettings d) s0)
                                          else set_anki (localSettings d) s0)
                             = localSettings d).
  { intros s0. destruct (mediaSettingsChanged _ _ _); [|done]. by rewrite clear_media_anki. }
  split.
  - unfold Client.ankiConfigured. cbv zeta. cbn [localSettings].
    change (Client.anki (toast_add ?k ?t ?x)) with (Client.anki x). rewrite Hanki.
    unfold settingsValid in Hv. destruct (String.eqb (noteType (localSettings d)) ""); [done|].
    cbn. exact Hv.
  - unfold settingsValid, onModelChange. cbn. by destruct (String.eqb value "").
Qed.

Lemma split_at_char (c : ascii) (u1 : string) : forall u2 x1 x2,
  c ∉ list_ascii_of_string u1 -> c ∉ list_ascii_of_string u2 ->
  (u1 ++ String c x1)%string = (u2 ++ String c x2)%string -> u1 = u2 /\ x1 = x2.
Proof.
  induction u1 as [|a u1 IH]; intros [|b u2] x1 x2 H1 H2 E.
  - by injection E.
  - exfalso. apply H2. injection E as -> _. left.
  - exfalso. apply H1. injection E as -> _. left.
  - change (String a (u1 ++ String c x1) = String b (u2 ++ String c x2))%string in E.
    injection E as -> E.
    destruct (IH u2 x1 x2) as [-> ->]; [..|done|done].
    + intros H. apply H1. by right.
    + intros H. apply H2. by right.
Qed.

Lemma show_Z_chars z c :
  c ∈ list_ascii_of_string (show_Z z) -> is_digit c = true \/ c = "-"%char.
Proof.
  unfold show_Z.
  assert (Hd : forall d, c ∈ list_ascii_of_string (NilZero.string_of_uint d) ->
                         is_digit c = true).
  { intros d Hc.
    assert (H0 : c ∈ list_ascii_of_string "0" -> is_digit c = true).
    { cbn. by intros ->%list_elem_of_singleton. }
    pose proof (uint_digits d) as Hall. rewrite Forall_forall in Hall.
    destruct d; cbn [NilZero.string_of_uint] in Hc; auto. }
  destruct (Z.to_int z) as [d|d]; cbn [NilZero.string_of_int].
  - intros Hc. left. by apply (Hd d).
  - cbn. intros [->|Hc]%elem_of_cons; [by right|]. left. by apply (Hd d).
Qed.

(** X26: the files stored for an export never collide by name: with the
    same media settings, the names generated for two different items, or
    for one item at two different times, differ. *)
Theorem media_file_names_differ {num : Type} (lower : string -> string)
    (i1 i2 t1 t2 : Z) (type : file_kind) (m : MediaSettings num) :
  i1 <> i2 \/ t1 <> t2 ->
  generateMediaFilename lower (Fin i1) t1 type m
  <> generateMediaFilename lower (Fin i2) t2 type m.
Proof.
  intros Hne E. unfold generateMediaFilename in E.
  apply str_app_inv_head in E. cbn [show_number] in E.
  assert (Hno : forall z c, c = "_"%char \/ c = "."%char ->
                            c ∉ list_ascii_of_string (show_Z z)).
  { intros z c Hc Hin. apply show_Z_chars in Hin. destruct Hc as [-> | ->], Hin; done. }
  apply split_at_char in E as [E1 E2]; [|apply Hno; by left..].
  apply split_at_char in E2 as [E2 _]; [|apply Hno; by right..].
  apply show_Z_inj in E1, E2. destruct Hne; done.
Qed.

Lemma media_file_names_differ_witness :
  generateMediaFilename (fun x => x) (Fin 1) 1700000000000 image_file example_media
  <> generateMediaFilename (fun x => x) (Fin 2) 1700000000000 image_file example_media.
Proof.
  apply (media_file_names_differ (fun x => x) 1 2 1700000000000 1700000000000
           image_file example_media).
  left. discriminate.
Defined.


Lemma port_text_reads_back_witness :
  let d := resetLocalConnectionDefaults (example_dialog example_media) in
  let d' := updateLocalPorts (join_ports (ports (localConnection d))) d in
  localConnection d' = localConnection d /\
  localPortInput d' = join_ports (ports (localConnection d)).
Proof.
  apply (port_text_reads_back (resetLocalConnectionDefaults (example_dialog example_media))).
  - discriminate.
  - repeat constructor; eexists; (split; [reflexivity|lia]).
Defined.

Lemma extension_change_keeps_cache_witness :
  let '(d', st', s') := saveSettings Z_neq (example_dialog example_media_webp)
                          example_settings cached_store in
  store_view s' = store_view cached_store /\
  loadingMedia s' = loadingMedia cached_store /\
  imageAdvancedExtension (media st')
  = imageAdvancedExtension (localMedia (example_dialog example_media_webp)) /\
  audioAdvancedExtension (media st')
  = audioAdvancedExtension (localMedia (example_dialog example_media_webp)) /\
  (imageAdvanced (media example_settings) = true ->
   request_image_format (media st')
   = imageAdvancedExtension (localMedia (example_dialog example_media_webp))) /\
  (audioAdvanced (media example_settings) = true ->
   request_audio_format (media st')
   = audioAdvancedExtension (localMedia (example_dialog example_media_webp))).
Proof.
  apply (extension_change_keeps_cache Z_neq (example_dialog example_media_webp)
           example_settings cached_store).
  - constructor; reflexivity.
  - repeat split; reflexivity.
Defined.

Lemma valid_settings_enable_export_witness :
  let '(d', st', s') := saveSettings Z_neq (example_dialog example_media) example_settings
                          example_store in
  Client.ankiConfigured s'
  = negb (String.eqb (noteType (localSettings (example_dialog example_media))) "") /\
  settingsValid (onModelChange "Cloze" (localSettings (example_dialog example_media)))
  = String.eqb "Cloze" "".
Proof.
  apply (valid_settings_enable_export Z_neq (example_dialog example_media) example_settings
           example_store "Cloze").
  reflexivity.
Defined.

End SettingsProofs.

Section MediaConfigurationProofs.
Import Client Settings MediaConfiguration.
Context {num : Type} (int : Z -> num).

(** X23: the format selector shows what was selected.  Whatever entry is
    chosen, the getter of the selector returns that entry afterwards; the
    two animated entries are stored as their base format with the
    animation flag, every other entry as the format itself with the flag
    cleared. *)
Theorem selector_shows_selection (val : string) (m : MediaSettings num) :
  selected_format (select_format int val m) = val /\
  (imageAnimated (select_format int val m) = true <->
   val = "avif_animated" \/ val = "webp_animated").
Proof.
  unfold select_format, selected_format.
  destruct (String.eqb_spec val "avif_animated") as [->|H1]; [cbn; split; [done|]; tauto|].
  destruct (String.eqb_spec val "webp_animated") as [->|H2]; [cbn; split; [done|]; tauto|].
  cbn. rewrite !andb_false_r. split; [done|]. split; [done|]. by intros [?|?].
Qed.

(** X24: choosing one of the formats the selector offers sets the
    quality to the default [qualityInfo] gives for the new format, and
    that default lies within the range [qualityInfo] allows. *)
Theorem selected_format_gets_default_quality (val : string) (m : MediaSettings num) :
  val ∈ offered_formats ->
  let m' := select_format int val m in
  imageQuality m' = int (q_default (qualityInfo m')) /\
  q_min (qualityInfo m') <= q_default (qualityInfo m') <= q_max (qualityInfo m').
Proof.
  unfold offered_formats. intros Hval.
  repeat (apply elem_of_cons in Hval as [->|Hval]); [..|by apply elem_of_nil in Hval];
    cbn; split; (done || lia).
Qed.

Lemma clamp_range lo hi val : lo <= hi -> lo <= clamp lo hi val <= hi.
Proof. intros H. destruct val; cbn; lia. Qed.

Lemma qualityInfo_range (m : MediaSettings num) : q_min (qualityInfo m) <= q_max (qualityInfo m).
Proof. unfold qualityInfo. repeat case_match; cbn; lia. Qed.

(** X25: the quality fields only take values of their range.  A number
    typed into the image quality field is clamped to the range
    [qualityInfo] gives for the current format, one typed into the audio
    quality field to 8..512; a value inside the range is taken as it is,
    and an input that is not a number changes nothing. *)
Theorem quality_inputs_are_clamped (val : number) (m : MediaSettings num) :
  (isNaN val = true ->
   updateImageQuality int val m = m /\ updateAudioQuality int val m = m) /\
  (isNaN val = false ->
   exists qi qa,
     imageQuality (updateImageQuality int val m) = int qi /\
     q_min (qualityInfo m) <= qi <= q_max (qualityInfo m) /\
     qualityInfo (updateImageQuality int val m) = qualityInfo m /\
     audioQuality (updateAudioQuality int val m) = int qa /\
     8 <= qa <= 512 /\
     (forall z, val = Fin z ->
        (q_min (qualityInfo m) <= z <= q_max (qualityInfo m) -> qi = z) /\
        (8 <= z <= 512 -> qa = z))).
Proof.
  split.
  - intros H. unfold updateImageQuality, updateAudioQuality. by rewrite H.
  - intros H. unfold updateImageQuality, updateAudioQuality. rewrite H. cbn [negb].
    eexists _, _. split_and!; try reflexivity.
    + apply clamp_range, qualityInfo_range.
    + apply clamp_range, qualityInfo_range.
    + by apply clamp_range.
    + by apply clamp_range.
    + intros z ->. cbn. split; lia.
Qed.

End MediaConfigurationProofs.

Section MediaConfigurationExamples.
Import Client Settings MediaConfiguration.

Lemma selected_format_gets_default_quality_witness :
  let m' := select_format (fun z => z) "webp_animated" example_media in
  imageQuality m' = q_default (qualityInfo m') /\
  q_min (qualityInfo m') <= q_default (qualityInfo m') <= q_max (qualityInfo m').
Proof.
  apply (selected_format_gets_default_quality (fun z => z) "webp_animated" example_media).
  unfold offered_formats. do 3 right. left.
Defined.

End MediaConfigurationExamples.
